(** * ezfund_script: the mail-forwarding relay, embedded and verified

    A shallow embedding of [src/main.py] (body reconstruction, the per-account
    forwarding cycle, the polling scheduler) and of [src/email_list_parser.py]
    (the rule loader), followed by the properties the specification states
    about them.

    Conventions of the embedding:
    - a Python [str] is a Rocq [string] holding the UTF-8 encoding of the text,
      a Python [bytes] is a [list byte];
    - a JSON object of the mail service is a record whose optional keys are
      [option] fields;
    - a Python exception is a value of [exn]; code that can raise lives in the
      monad [M], which also reads the history of the calls made so far and
      writes the calls it makes;
    - the directory of the rule files is a [FileSystem]: what [os.listdir]
      and [open] with [readlines] return or raise;
    - the interpreter's recursion limit is not part of [parse_email_body];
      [parse_email_body_bounded] adds it. *)

From Stdlib Require Import ZArith NArith Ascii String Lia.
From Stdlib.Strings Require Import Byte.
From stdpp Require Import base list strings gmap.

Open Scope string_scope.
Open Scope list_scope.

#[local] Set Warnings "-register-all".

(** ** Exceptions *)

(** Exceptions raised inside a library or a remote call. *)
Inductive lib_exn :=
| HttpError (status : nat)            (* googleapiclient.errors.HttpError *)
| LibRuntimeError (msg : string)      (* RuntimeError or a subclass *)
| LibError (cls : string).            (* any other exception class *)

(** Exceptions as [src/main.py] and [src/email_list_parser.py] see them. *)
Inductive exn :=
| AttributeError_NoneType (attr : string)  (* None.attr *)
| ValueError_unpack (got : nat)            (* a, b = <sequence of got items> *)
| KeyError (key : string)                  (* d[key], key absent *)
| TypeError_not_iterable                   (* for x in None *)
| IndexError                               (* l[i], i out of range *)
| UnicodeEncodeError                       (* str.encode("ASCII") *)
| UnicodeDecodeError                       (* bytes.decode("utf-8") *)
| binascii_Error                           (* base64 decoding *)
| RecursionError                           (* call depth over the limit *)
| Raised (e : lib_exn).

(** [isinstance(e, RuntimeError)]: what [except RuntimeError] catches. *)
Definition is_RuntimeError (e : exn) : bool :=
  match e with
  | RecursionError => true
  | Raised (LibRuntimeError _) => true
  | _ => false
  end.

(** [isinstance(e, HttpError)]: what [except HttpError] catches. *)
Definition is_HttpError (e : exn) : bool :=
  match e with
  | Raised (HttpError _) => true
  | _ => false
  end.

Inductive result (E A : Type) :=
| Ok (a : A)
| Err (e : E).
Arguments Ok {E A} a.
Arguments Err {E A} e.

(** ** Strings and bytes of the Python library *)

Definition bytes := list byte.

(** [str.encode('UTF-8')] on a [str] held as its UTF-8 encoding. *)
Definition encode_utf8 (s : string) : bytes := list_byte_of_string s.

Definition code (b : byte) : N := Byte.to_N b.

Definition byte_of_code (n : N) : byte :=
  match Byte.of_N (n mod 256) with
  | Some b => b
  | None => x00
  end.

(** [str.encode("ASCII")]. *)
Definition encode_ascii (s : string) : result exn bytes :=
  let bs := list_byte_of_string s in
  if forallb (fun b => N.ltb (code b) 128) bs then Ok bs else Err UnicodeEncodeError.

(** Strict UTF-8 validity, as [bytes.decode("utf-8")] checks it: shortest
    forms only, no surrogates, nothing above U+10FFFF. *)
Definition continuation (n : N) : bool := N.leb 128 n && N.leb n 191.

Definition between (lo n hi : N) : bool := N.leb lo n && N.leb n hi.

Fixpoint utf8_valid (bs : list N) : bool :=
  match bs with
  | [] => true
  | b0 :: t0 =>
    if N.ltb b0 128 then utf8_valid t0
    else if between 194 b0 223 then
      match t0 with
      | b1 :: t1 => continuation b1 && utf8_valid t1
      | _ => false
      end
    else if between 224 b0 239 then
      match t0 with
      | b1 :: b2 :: t2 =>
        (if N.eqb b0 224 then between 160 b1 191
         else if N.eqb b0 237 then between 128 b1 159
         else continuation b1)
        && continuation b2 && utf8_valid t2
      | _ => false
      end
    else if between 240 b0 244 then
      match t0 with
      | b1 :: b2 :: b3 :: t3 =>
        (if N.eqb b0 240 then between 144 b1 191
         else if N.eqb b0 244 then between 128 b1 143
         else continuation b1)
        && continuation b2 && continuation b3 && utf8_valid t3
      | _ => false
      end
    else false
  end.

(** [bytes.decode("utf-8")]. *)
Definition decode_utf8 (bs : bytes) : result exn string :=
  if utf8_valid (map code bs) then Ok (string_of_list_byte bs) else Err UnicodeDecodeError.

(** [binascii.a2b_base64] in its default, non-strict mode: characters outside
    the alphabet are skipped, a pad that completes a quad ends the input, and
    an incomplete quad at the end is an error. *)
Definition table_a2b_base64 (c : N) : option N :=
  if between 65 c 90 then Some (c - 65)%N
  else if between 97 c 122 then Some (c - 71)%N
  else if between 48 c 57 then Some (c + 4)%N
  else if N.eqb c 43 then Some 62%N
  else if N.eqb c 47 then Some 63%N
  else None.

Definition BASE64_PAD : N := 61.

Fixpoint a2b_base64_loop (data : list N) (quad_pos : nat) (leftchar : N) (pads : nat)
    (bin_data : bytes) : result exn bytes :=
  match data with
  | [] => if Nat.eqb quad_pos 0 then Ok bin_data else Err binascii_Error
  | this_ch :: rest =>
    if N.eqb this_ch BASE64_PAD then
      if Nat.leb 2 quad_pos then
        if Nat.leb 4 (quad_pos + S pads) then Ok bin_data
        else a2b_base64_loop rest quad_pos leftchar (S pads) bin_data
      else a2b_base64_loop rest quad_pos leftchar pads bin_data
    else
      match table_a2b_base64 this_ch with
      | None => a2b_base64_loop rest quad_pos leftchar pads bin_data
      | Some v =>
        match quad_pos with
        | 0 => a2b_base64_loop rest 1 v 0 bin_data
        | 1 =>
          a2b_base64_loop rest 2 (N.land v 15) 0
            (bin_data ++ [byte_of_code (N.lor (N.shiftl leftchar 2) (N.shiftr v 4))])
        | 2 =>
          a2b_base64_loop rest 3 (N.land v 3) 0
            (bin_data ++ [byte_of_code (N.lor (N.shiftl leftchar 4) (N.shiftr v 2))])
        | _ =>
          a2b_base64_loop rest 0 0%N 0
            (bin_data ++ [byte_of_code (N.lor (N.shiftl leftchar 6) v)])
        end
      end
  end.

Definition a2b_base64 (data : bytes) : result exn bytes :=
  a2b_base64_loop (map code data) 0 0%N 0 [].

(** [bytes.translate(_urlsafe_decode_translation)]: '-' to '+', '_' to '/'. *)
Definition urlsafe_decode_translation (b : byte) : byte :=
  if N.eqb (code b) 45 then byte_of_code 43
  else if N.eqb (code b) 95 then byte_of_code 47
  else b.

(** [base64.urlsafe_b64decode] on [bytes]. *)
Definition urlsafe_b64decode (s : bytes) : result exn bytes :=
  a2b_base64 (map urlsafe_decode_translation s).

(** [binascii.b2a_base64(s, newline=False)] with the URL-safe alphabet. *)
Definition table_b2a_urlsafe (v : N) : byte :=
  if N.ltb v 26 then byte_of_code (v + 65)
  else if N.ltb v 52 then byte_of_code (v + 71)
  else if N.ltb v 62 then byte_of_code (v - 4)
  else if N.eqb v 62 then byte_of_code 45
  else byte_of_code 95.

Fixpoint b2a_urlsafe (s : list N) : bytes :=
  match s with
  | [] => []
  | [a] =>
    [table_b2a_urlsafe (N.shiftr a 2);
     table_b2a_urlsafe (N.shiftl (N.land a 3) 4);
     byte_of_code BASE64_PAD; byte_of_code BASE64_PAD]
  | [a; b] =>
    [table_b2a_urlsafe (N.shiftr a 2);
     table_b2a_urlsafe (N.lor (N.shiftl (N.land a 3) 4) (N.shiftr b 4));
     table_b2a_urlsafe (N.shiftl (N.land b 15) 2);
     byte_of_code BASE64_PAD]
  | a :: b :: c :: rest =>
    [table_b2a_urlsafe (N.shiftr a 2);
     table_b2a_urlsafe (N.lor (N.shiftl (N.land a 3) 4) (N.shiftr b 4));
     table_b2a_urlsafe (N.lor (N.shiftl (N.land b 15) 2) (N.shiftr c 6));
     table_b2a_urlsafe (N.land c 63)] ++ b2a_urlsafe rest
  end.

(** [base64.urlsafe_b64encode]. *)
Definition urlsafe_b64encode (s : bytes) : bytes := b2a_urlsafe (map code s).

(** [s.split(sep)] for a one-character separator: one more piece than there
    are separators, never an empty list. *)
Fixpoint split (sep : ascii) (s : string) : list string :=
  match s with
  | EmptyString => [EmptyString]
  | String c s' =>
    if Ascii.eqb c sep then EmptyString :: split sep s'
    else match split sep s' with
         | piece :: pieces => String c piece :: pieces
         | [] => [String c EmptyString]
         end
  end.

(** [sep.join(l)]. *)
Fixpoint join (sep : string) (l : list string) : string :=
  match l with
  | [] => ""
  | [x] => x
  | x :: rest => x ++ sep ++ join sep rest
  end.

(** ASCII [str.lower]. *)
Definition lower_ascii (c : ascii) : ascii :=
  let n := N_of_ascii c in
  if between 65 n 90 then ascii_of_N (n + 32) else c.

Fixpoint lower (s : string) : string :=
  match s with
  | EmptyString => EmptyString
  | String c s' => String (lower_ascii c) (lower s')
  end.

(** [str.strip()]: it removes, at both ends, the characters [str.isspace]
    accepts. A [str] being held as its UTF-8 bytes, such a character is one
    byte (U+0009 to U+000D, U+001C to U+0020), two bytes (U+0085, U+00A0) or
    three bytes (U+1680, U+2000 to U+200A, U+2028, U+2029, U+202F, U+205F,
    U+3000). *)
Definition is_space (c : ascii) : bool :=
  let n := N_of_ascii c in
  between 9 n 13 || between 28 n 32.

Definition is_space2 (c1 c2 : ascii) : bool :=
  let n1 := N_of_ascii c1 in
  let n2 := N_of_ascii c2 in
  (n1 =? 194)%N && ((n2 =? 133) || (n2 =? 160))%N.

Definition is_space3 (c1 c2 c3 : ascii) : bool :=
  let n1 := N_of_ascii c1 in
  let n2 := N_of_ascii c2 in
  let n3 := N_of_ascii c3 in
  ((n1 =? 225) && (n2 =? 154) && (n3 =? 128))%N
  || ((n1 =? 226) && (n2 =? 128)
      && (between 128 n3 138 || (n3 =? 168) || (n3 =? 169) || (n3 =? 175)))%N
  || ((n1 =? 226) && (n2 =? 129) && (n3 =? 159))%N
  || ((n1 =? 227) && (n2 =? 128) && (n3 =? 128))%N.

(** The bytes left once the white space characters at the front are gone;
    [sp1], [sp2] and [sp3] recognise a character of one, two and three
    bytes. *)
Fixpoint strip_front (sp1 : ascii -> bool) (sp2 : ascii -> ascii -> bool)
    (sp3 : ascii -> ascii -> ascii -> bool) (l : list ascii) : list ascii :=
  match l with
  | [] => []
  | c1 :: l1 =>
    if sp1 c1 then strip_front sp1 sp2 sp3 l1
    else match l1 with
         | [] => l
         | c2 :: l2 =>
           if sp2 c1 c2 then strip_front sp1 sp2 sp3 l2
           else match l2 with
                | [] => l
                | c3 :: l3 => if sp3 c1 c2 c3 then strip_front sp1 sp2 sp3 l3 else l
                end
         end
  end.

Definition lstrip (s : string) : string :=
  string_of_list_ascii
    (strip_front is_space is_space2 is_space3 (list_ascii_of_string s)).

(** At the back the bytes of a character are met last byte first. *)
Definition rstrip (s : string) : string :=
  string_of_list_ascii
    (rev (strip_front is_space (fun c2 c1 => is_space2 c1 c2)
            (fun c3 c2 c1 => is_space3 c1 c2 c3) (rev (list_ascii_of_string s)))).

Definition strip (s : string) : string := rstrip (lstrip s).

(** ** Data of the mail service *)

(** A [MessagePartBody] resource; [attachments().get] returns one too. *)
Record MessagePartBody := {
  data : option string;
  attachmentId : option string
}.

(** A [MessagePart] resource: one node of a message's body tree. *)
Inductive MessagePart := mkMessagePart {
  mimeType : option string;
  filename : option string;
  headers : option (list (string * string));
  body : option MessagePartBody;
  parts : option (list MessagePart)
}.

(** A [Message] resource as [messages().get(format="full")] returns it. *)
Record Message := {
  message_id : string;
  threadId : string;
  payload : MessagePart
}.

(** The response of [messages().list]. *)
Record ListResponse := {
  messages : option (list (string * string))   (* id, threadId *)
}.

(** The forwarding rule of one account: [{"to": ..., "cc": [...]}]. *)
Record email_list := {
  to : string;
  cc : list string
}.

(** ** MIME objects of the email library *)

(** What [parse_email_body] builds. *)
Inductive MIMEBase :=
| MIMEText (_text _subtype : string)
    (* MIMEText(_text, _subtype) *)
| MIMEAttachment (_maintype _subtype : string) (_payload : bytes) (disposition_filename : string)
    (* MIMEBase(..), set_payload(..), add_header('Content-Disposition', 'attachment', filename=..) *)
| MIMEContainer (_maintype _subtype : string) (attached : list MIMEBase).
    (* MIMEBase(..), attach(..) once per subpart *)

(** The outer [MIMEMultipart] of a reply: its headers in the order they were
    set, and the parts attached to it. *)
Record MIMEMultipart := {
  mm_headers : list (string * string);
  mm_attached : list MIMEBase
}.

(** [MIMEMultipart()]. *)
Definition MIMEMultipart_new : MIMEMultipart :=
  {| mm_headers := [("Content-Type", "multipart/mixed"); ("MIME-Version", "1.0")];
     mm_attached := [] |}.

(** [message[name] = val]: appends, never replaces. *)
Definition setitem (name val : string) (message : MIMEMultipart) : MIMEMultipart :=
  {| mm_headers := mm_headers message ++ [(name, val)];
     mm_attached := mm_attached message |}.

(** [message.attach(part)]. *)
Definition attach (part : MIMEBase) (message : MIMEMultipart) : MIMEMultipart :=
  {| mm_headers := mm_headers message;
     mm_attached := mm_attached message ++ [part] |}.

(** [message.get(name)]: the first header of that name, names compared
    without case. *)
Fixpoint get_header (name : string) (hs : list (string * string)) : option string :=
  match hs with
  | [] => None
  | (k, v) :: rest => if String.eqb (lower k) (lower name) then Some v else get_header name rest
  end.

Definition message_get (name : string) (message : MIMEMultipart) : option string :=
  get_header name (mm_headers message).

(** ** Calls, their history, and the monad of code that can raise *)

(** The body of a [messages().send] call. *)
Record reply_message := {
  raw : string;
  reply_threadId : string
}.

(** What the program prints. *)
Inductive printed :=
| PrintError (exception : lib_exn)                                (* "Error:", exception *)
| PrintReplied (account : string) (to_header : option string) (subject : string)
| PrintOccurred (error : exn).                                    (* "An error occurred: ..." *)

(** One observable action. [user] is the address the client is signed in as. *)
Inductive event :=
| EvList (user : string)                                  (* messages().list(labelIds=['UNREAD']) *)
| EvBatchGet (user : string) (ids : list string)          (* a batch of messages().get *)
| EvAttachmentGet (user : string) (messageId att_id : string)
| EvSend (user : string) (body_sent : reply_message) (returned : bool)
| EvBatchModify (user : string) (ids : list string)       (* a batch of removeLabelIds=['UNREAD'] *)
| EvPrint (p : printed)
| EvNow (hour minute : Z)                                 (* datetime.now(TIMEZONE) *)
| EvSleep (seconds : nat).                                (* time.sleep *)

(** An authenticated client. The remote service answers each call from the
    history of everything that happened before it. *)
Record Client := {
  emailAddress : string;
  messages_list : list event -> result lib_exn ListResponse;
  messages_batch_get : list event -> list string -> result lib_exn (list (result lib_exn Message));
  attachments_get : list event -> string -> string -> result lib_exn MessagePartBody;
  messages_send : list event -> reply_message -> result lib_exn unit;
  messages_batch_modify : list event -> list string -> result lib_exn unit
}.

(** A computation reads the history and yields a value or an exception,
    together with the events it added. *)
Definition M (A : Type) : Type := list event -> result exn A * list event.

Definition ret {A} (a : A) : M A := fun _ => (Ok a, []).

Definition raise {A} (e : exn) : M A := fun _ => (Err e, []).

Definition bind {A B} (m : M A) (k : A -> M B) : M B := fun h =>
  match m h with
  | (Ok a, evs) => let (r, evs') := k a (h ++ evs) in (r, evs ++ evs')
  | (Err e, evs) => (Err e, evs)
  end.

Declare Scope py_scope.
Delimit Scope py_scope with py.
Notation "x <- m ;; k" := (bind m (fun x => k))
  (at level 100, m at next level, right associativity) : py_scope.
Notation "m ;;; k" := (bind m (fun _ => k))
  (at level 100, right associativity) : py_scope.
Open Scope py_scope.

Definition lift {A} (r : result exn A) : M A := fun _ => (r, []).

Definition emit (ev : event) : M unit := fun _ => (Ok tt, [ev]).

(** A remote call: the event is recorded whether or not the call raises. *)
Definition call {A} (answer : list event -> result lib_exn A) (ev : event) : M A := fun h =>
  (match answer h with Ok a => Ok a | Err e => Err (Raised e) end, [ev]).

(** [try: body except C as e: handler(e)], [catches] deciding [isinstance(e, C)]. *)
Definition try_except {A} (body : M A) (catches : exn -> bool) (handler : exn -> M A) : M A :=
  fun h =>
  match body h with
  | (Ok a, evs) => (Ok a, evs)
  | (Err e, evs) =>
    if catches e
    then let (r, evs') := handler e (h ++ evs) in (r, evs ++ evs')
    else (Err e, evs)
  end.

(** [d[key]]. *)
Definition getitem {A} (key : string) (field : option A) : M A :=
  match field with
  | Some a => ret a
  | None => raise (KeyError key)
  end.

(** ** [parse_email_body] (src/main.py, lines 46-83) *)

(** [a, b = l]. *)
Definition unpack2 (l : list string) : result exn (string * string) :=
  match l with
  | [a; b] => Ok (a, b)
  | _ => Err (ValueError_unpack (length l))
  end.

(** Line 53: [message.get("mimeType").split("/")], unpacked in two. *)
Definition split_mimeType (message : MessagePart) : result exn (string * string) :=
  match mimeType message with
  | None => Err (AttributeError_NoneType "split")
  | Some s => unpack2 (split "/" s)
  end.

(** The truth value of [message.get("filename")]. *)
Definition truthy (s : option string) : bool :=
  match s with
  | Some (String _ _) => true
  | _ => false
  end.

(** Lines 80-81: reconstruct the subparts in order. *)
Fixpoint attach_all (self : MessagePart -> M MIMEBase) (subparts : list MessagePart)
    : M (list MIMEBase) :=
  match subparts with
  | [] => ret []
  | subpart :: rest =>
    child <- self subpart ;;
    children <- attach_all self rest ;;
    ret (child :: children)
  end.

(** The body of the function, its recursive calls going through [self]. *)
Definition parse_email_body_step (self : MessagePart -> M MIMEBase)
    (account_client : Client) (msg_id : string) (message : MessagePart) : M MIMEBase :=
  type_subtype <- lift (split_mimeType message) ;;
  let (mime_type, mime_subtype) := type_subtype : string * string in
  if String.eqb mime_type "text" then
    b <- getitem "body" (body message) ;;
    d <- getitem "data" (data b) ;;
    encoded <- lift (encode_ascii d) ;;
    decoded <- lift (urlsafe_b64decode encoded) ;;
    content <- lift (decode_utf8 decoded) ;;
    ret (MIMEText content mime_subtype)
  else if truthy (filename message) then
    b <- getitem "body" (body message) ;;
    d <- match data b with
         | Some d => ret d
         | None =>
           attachment_id <- getitem "attachmentId" (attachmentId b) ;;
           attachment <- call (fun h => attachments_get account_client h msg_id attachment_id)
                              (EvAttachmentGet (emailAddress account_client) msg_id attachment_id) ;;
           getitem "data" (data attachment)
         end ;;
    attachment_data <- lift (urlsafe_b64decode (encode_utf8 d)) ;;
    ret (MIMEAttachment mime_type mime_subtype attachment_data (default "" (filename message)))
  else
    match parts message with
    | None => raise TypeError_not_iterable
    | Some subparts =>
      children <- attach_all self subparts ;;
      ret (MIMEContainer mime_type mime_subtype children)
    end.

Fixpoint parse_email_body (account_client : Client) (msg_id : string) (message : MessagePart)
    {struct message} : M MIMEBase :=
  parse_email_body_step (parse_email_body account_client msg_id) account_client msg_id message.

(** The same function under a limit on the depth of its calls: at depth
    [limit] the interpreter raises [RecursionError] instead of calling. *)
Fixpoint parse_email_body_bounded (limit : nat) (account_client : Client) (msg_id : string)
    (message : MessagePart) {struct limit} : M MIMEBase :=
  match limit with
  | 0 => raise RecursionError
  | S limit' =>
    parse_email_body_step (parse_email_body_bounded limit' account_client msg_id)
      account_client msg_id message
  end.

(** ** [apply_forwarding_rule] (src/main.py, lines 86-151) *)

(** [for x in field]. *)
Definition iterate {A} (field : option (list A)) : M (list A) :=
  match field with
  | Some l => ret l
  | None => raise TypeError_not_iterable
  end.

(** Lines 115-118: the value of the last header named "Subject". *)
Fixpoint get_subject (hs : list (string * string)) (subject : string) : string :=
  match hs with
  | [] => subject
  | (name, value) :: rest =>
    get_subject rest (if String.eqb name "Subject" then value else subject)
  end.

(** Lines 122-129: the reply, its headers set in the order of the source. *)
Definition build_message (account : string) (rule : email_list) (unread_email : Message)
    (subject : string) (_part : MIMEBase) : MIMEMultipart :=
  let message := MIMEMultipart_new in
  let message := setitem "from" account message in
  let message := setitem "to" (to rule) message in
  let message := setitem "cc" (join "," (cc rule)) message in
  let message := setitem "In-Reply-To" (message_id unread_email) message in
  let message := setitem "References" (message_id unread_email) message in
  let message := setitem "subject" subject message in
  attach _part message.

(** Lines 131-132: [{'raw': urlsafe_b64encode(serialized.encode()).decode(),
    'threadId': ...}]. *)
Definition build_reply (serialized : string) (unread_email : Message) : reply_message :=
  {| raw := string_of_list_byte (urlsafe_b64encode (encode_utf8 serialized));
     reply_threadId := threadId unread_email |}.

(** Line 134: [messages().send(userId="me", body=reply_message).execute()]. *)
Definition send (account_client : Client) (reply : reply_message) : M unit := fun h =>
  match messages_send account_client h reply with
  | Ok _ => (Ok tt, [EvSend (emailAddress account_client) reply true])
  | Err e => (Err (Raised e), [EvSend (emailAddress account_client) reply false])
  end.

Section Engine.

(** [message.as_string()] of the email library: the serialized message, or
    the exception the generator raises. *)
Variable as_string : MIMEMultipart -> result lib_exn string.

(** Lines 114-138, the body of the inner [try]: forwards one message and
    returns the id that line 136 appends to [processed_ids]. *)
Definition forward_one (account_client : Client) (account : string)
    (rule : option email_list) (unread_email : Message) : M string :=
  hs <- iterate (headers (payload unread_email)) ;;
  let subject := get_subject hs "" in
  _part <- parse_email_body account_client (message_id unread_email) (payload unread_email) ;;
  rule <- match rule with
          | Some r => ret r
          | None => raise (AttributeError_NoneType "get")
          end ;;
  let message := build_message account rule unread_email subject _part in
  serialized <- lift (match as_string message with
                      | Ok s => Ok s
                      | Err e => Err (Raised e)
                      end) ;;
  send account_client (build_reply serialized unread_email) ;;;
  emit (EvPrint (PrintReplied account (message_get "to" message) subject)) ;;;
  ret (message_id unread_email).

(** Lines 108-141: the loop over the fetched messages. *)
Fixpoint forward_loop (account_client : Client) (account : string) (rule : option email_list)
    (unread_emails : list (result lib_exn Message)) (processed_ids : list string)
    : M (list string) :=
  match unread_emails with
  | [] => ret processed_ids
  | Err exception :: rest =>
    emit (EvPrint (PrintError exception)) ;;;
    forward_loop account_client account rule rest processed_ids
  | Ok unread_email :: rest =>
    appended <- try_except
                  (sent <- forward_one account_client account rule unread_email ;; ret [sent])
                  is_RuntimeError
                  (fun _ => ret []) ;;
    forward_loop account_client account rule rest (processed_ids ++ appended)
  end.

(** Lines 95-148, the body of the outer [try]. *)
Definition apply_forwarding_rule_try (account_client : Client) (account : string)
    (rule : option email_list) : M unit :=
  let user := emailAddress account_client in
  listed <- call (messages_list account_client) (EvList user) ;;
  let unread_email_ids := default [] (messages listed) in
  let ids := map fst unread_email_ids in
  unread_emails <- call (fun h => messages_batch_get account_client h ids) (EvBatchGet user ids) ;;
  processed_ids <- forward_loop account_client account rule unread_emails [] ;;
  call (fun h => messages_batch_modify account_client h processed_ids)
       (EvBatchModify user processed_ids).

Definition apply_forwarding_rule (account_client : Client) (account : string)
    (rule : option email_list) : M unit :=
  try_except (apply_forwarding_rule_try account_client account rule)
    is_HttpError
    (fun error => emit (EvPrint (PrintOccurred error))).

(** ** The scheduler: [main] (src/main.py, lines 176-184) *)

(** Lines 181-182: one cycle per client, in the order of [clients]. *)
Fixpoint run_clients (email_lists : gmap string email_list) (clients : list (string * Client))
    : M unit :=
  match clients with
  | [] => ret tt
  | (account, client) :: rest =>
    apply_forwarding_rule client account (email_lists !! account) ;;;
    run_clients email_lists rest
  end.

(** [datetime.now(TIMEZONE)]: the hour and the minute it reads. *)
Variable now : list event -> Z * Z.

Inductive phase :=
| Running
| Stopped
| Crashed (e : exn).

(** The state of [main] at the test of its [while]: the value of [dtime], the
    number of loop bodies begun so far, and the history. *)
Record scheduler := {
  sched_phase : phase;
  dtime : Z * Z;
  ticks : nat;
  history : list event
}.

(** Line 178: [dtime.hour == 23 and dtime.minute >= 55]. *)
Definition cutoff (dtime : Z * Z) : bool :=
  Z.eqb (fst dtime) 23 && Z.leb 55 (snd dtime).

(** Lines 176: the state [main] enters its loop in. *)
Definition main_start (h : list event) : scheduler :=
  {| sched_phase := Running; dtime := now h; ticks := 0;
     history := h ++ [EvNow (fst (now h)) (snd (now h))] |}.

(** One test of the [while] and, when it passes, one loop body (a tick). *)
Definition step (email_lists : gmap string email_list) (clients : list (string * Client))
    (s : scheduler) : option scheduler :=
  match sched_phase s with
  | Running =>
    if cutoff (dtime s) then
      Some {| sched_phase := Stopped; dtime := dtime s; ticks := ticks s; history := history s |}
    else
      let sampled := now (history s) in
      let h := history s ++ [EvNow (fst sampled) (snd sampled)] in
      match run_clients email_lists clients h with
      | (Ok _, evs) =>
        Some {| sched_phase := Running; dtime := sampled; ticks := S (ticks s);
                history := h ++ evs ++ [EvSleep 5] |}
      | (Err e, evs) =>
        Some {| sched_phase := Crashed e; dtime := sampled; ticks := S (ticks s);
                history := h ++ evs |}
      end
  | Stopped => None
  | Crashed _ => None
  end.

(** The step relation of the scheduler, and its reflexive transitive closure. *)
Definition sched_step (email_lists : gmap string email_list) (clients : list (string * Client))
    (s s' : scheduler) : Prop :=
  step email_lists clients s = Some s'.

Inductive sched_steps (email_lists : gmap string email_list) (clients : list (string * Client))
    : scheduler -> scheduler -> Prop :=
| steps_refl s : sched_steps email_lists clients s s
| steps_next s s' s'' :
    sched_step email_lists clients s s' ->
    sched_steps email_lists clients s' s'' ->
    sched_steps email_lists clients s s''.

(** [main] run for at most [fuel] tests of its [while]. *)
Fixpoint run (fuel : nat) (email_lists : gmap string email_list)
    (clients : list (string * Client)) (s : scheduler) : scheduler :=
  match fuel with
  | 0 => s
  | S fuel' =>
    match step email_lists clients s with
    | Some s' => run fuel' email_lists clients s'
    | None => s
    end
  end.

End Engine.

(** ** The rule loader: [src/email_list_parser.py] *)

Inductive log_record :=
| LogListInvalid (file : string)     (* "Email list invalid! Check the formatting of {file}. ..." *)
| LogEmailInvalid (email : string).  (* "Invalid email! Check the email {email}. ..." *)

(** The files the loader reads: [os.listdir(path)], and [open(path, "r")]
    followed by [readlines()], each giving its result or the exception it
    raises ([FileNotFoundError], [IsADirectoryError], [PermissionError],
    [UnicodeDecodeError], ...). *)
Record FileSystem := {
  listdir : string -> result lib_exn (list string);
  readlines : string -> result lib_exn (list string)
}.

(** Line 21: ["email_lists/" + file]. *)
Definition list_path (file : string) : string := "email_lists/" ++ file.

Section Loader.

Variable fs : FileSystem.

(** [email.utils.parseaddr]: the display name and the address it finds. *)
Variable parseaddr : string -> string * string.

(** Lines 9-11. *)
Definition validate_email (email : string) : bool :=
  let addr := parseaddr email in
  negb (String.eqb (fst addr) "" && String.eqb (snd addr) "").

(** [lines[i]]. *)
Definition index (lines : list string) (i : nat) : result exn string :=
  match lines !! i with
  | Some x => Ok x
  | None => Err IndexError
  end.

(** Line 24: [lines[0] == "ACCOUNT" and lines[2] == "TO" and lines[4] == "CC"],
    the later operands read only when the earlier ones hold. *)
Definition headers_ok (lines : list string) : result exn bool :=
  match index lines 0 with
  | Err e => Err e
  | Ok l0 =>
    if negb (String.eqb l0 "ACCOUNT") then Ok false
    else match index lines 2 with
         | Err e => Err e
         | Ok l2 =>
           if negb (String.eqb l2 "TO") then Ok false
           else match index lines 4 with
                | Err e => Err e
                | Ok l4 => Ok (String.eqb l4 "CC")
                end
         end
  end.

(** Lines 30-33: the loop over the addresses; its [continue] goes on with the
    next address. *)
Fixpoint validate_emails (emails : list string) : list log_record :=
  match emails with
  | [] => []
  | email :: rest =>
    if negb (validate_email email)
    then LogEmailInvalid email :: validate_emails rest
    else validate_emails rest
  end.

(** Lines 19-33: the loop over the files of the directory. An exception of
    opening or reading a file, like the [IndexError] of the header test,
    leaves the loop and the loader. *)
Fixpoint parse_files (files : list string) (email_lists : gmap string email_list)
    : result exn (gmap string email_list) * list log_record :=
  match files with
  | [] => (Ok email_lists, [])
  | file :: rest =>
    match readlines fs (list_path file) with
    | Err le => (Err (Raised le), [])
    | Ok content =>
      let lines := map strip content in
      match headers_ok lines with
      | Err e => (Err e, [])
      | Ok false =>
        let (r, logs) := parse_files rest email_lists in
        (r, LogListInvalid file :: logs)
      | Ok true =>
        match index lines 1, index lines 3 with
        | Ok account, Ok to_address =>
          let email_lists :=
            <[account := {| to := to_address; cc := drop 5 lines |}]> email_lists in
          let logged := validate_emails ([account; to_address] ++ drop 5 lines) in
          let (r, logs) := parse_files rest email_lists in
          (r, logged ++ logs)
        | Err e, _ => (Err e, [])
        | _, Err e => (Err e, [])
        end
      end
    end
  end.

(** Lines 14-35. *)
Definition parse : result exn (gmap string email_list) * list log_record :=
  match listdir fs "email_lists" with
  | Err le => (Err (Raised le), [])
  | Ok files => parse_files files ∅
  end.

End Loader.

(** ** Measures and predicates on the body tree *)

(** The number of "/" in a declared type. *)
Fixpoint count_slash (s : string) : nat :=
  match s with
  | EmptyString => 0
  | String c s' => (if Ascii.eqb c "/" then 1 else 0) + count_slash s'
  end.

(** The part declares a [mimeType] of the form type/subtype. *)
Definition declares_type_subtype (message : MessagePart) : bool :=
  match mimeType message with
  | None => false
  | Some s => Nat.eqb (count_slash s) 1
  end.

(** [check] holds of the part and of every part below it. *)
Fixpoint every_part (check : MessagePart -> bool) (message : MessagePart) : bool :=
  check message &&
  match message with
  | mkMessagePart _ _ _ _ (Some subparts) => forallb (every_part check) subparts
  | mkMessagePart _ _ _ _ None => true
  end.

(** The height of the tree: the deepest chain of calls its reconstruction makes. *)
Fixpoint depth (message : MessagePart) : nat :=
  match message with
  | mkMessagePart _ _ _ _ (Some subparts) => S (foldr Nat.max 0 (map depth subparts))
  | mkMessagePart _ _ _ _ None => 1
  end.

(** [child] is one of the subparts of [parent]: the only arguments line 81
    calls the function on. *)
Definition subpart (child parent : MessagePart) : Prop :=
  exists subparts, parts parent = Some subparts /\ In child subparts.


(** The exceptions of line 53. *)
Definition is_split_error (e : exn) : bool :=
  match e with
  | AttributeError_NoneType "split" => true
  | ValueError_unpack _ => true
  | _ => false
  end.

(** A container: the declared type is not "text" and there is no file name. *)
Definition is_container (message : MessagePart) : bool :=
  match split_mimeType message with
  | Ok (mime_type, _) => negb (String.eqb mime_type "text") && negb (truthy (filename message))
  | Err _ => false
  end.

(** Induction on the body tree: the subparts satisfy the property. *)
Fixpoint MessagePart_tree_ind (P : MessagePart -> Prop)
    (leaf : forall mt fn hs b, P (mkMessagePart mt fn hs b None))
    (node : forall mt fn hs b subparts,
        Forall P subparts -> P (mkMessagePart mt fn hs b (Some subparts)))
    (message : MessagePart) {struct message} : P message :=
  match message with
  | mkMessagePart mt fn hs b None => leaf mt fn hs b
  | mkMessagePart mt fn hs b (Some subparts) =>
    node mt fn hs b subparts
      ((fix all (l : list MessagePart) : Forall P l :=
          match l with
          | [] => @List.Forall_nil _ P
          | q :: l' => @List.Forall_cons _ P q l' (MessagePart_tree_ind P leaf node q) (all l')
          end) subparts)
  end.

(** ** Sample data on which the definitions are run *)

(** A client whose every remote call is refused. *)
Definition unreachable (address : string) : Client :=
  {| emailAddress := address;
     messages_list := fun _ => Err (HttpError 503);
     messages_batch_get := fun _ _ => Err (HttpError 503);
     attachments_get := fun _ _ _ => Err (HttpError 503);
     messages_send := fun _ _ => Err (HttpError 503);
     messages_batch_modify := fun _ _ => Err (HttpError 503) |}.

Definition offline : Client := unreachable "relay@example.com".


Definition inline_body (d : string) : option MessagePartBody :=
  Some {| data := Some d; attachmentId := None |}.

(** A text part holding "hello". *)
Definition text_hello : MessagePart :=
  mkMessagePart (Some "text/plain") (Some "") None (inline_body "aGVsbG8=") None.


(** An attachment whose bytes are inline. *)
Definition attachment_inline : MessagePart :=
  mkMessagePart (Some "application/octet-stream") (Some "f.bin") None (inline_body "AAEC") None.

(** A container with no subpart at all. *)
Definition container_empty : MessagePart :=
  mkMessagePart (Some "multipart/mixed") (Some "") None None (Some []).

(** A container of a text part and an attachment. *)
Definition container_two : MessagePart :=
  mkMessagePart (Some "multipart/mixed") (Some "") None None
    (Some [text_hello; attachment_inline]).

(** A part without a declared type, and one with a slash too many. *)
Definition part_untyped : MessagePart :=
  mkMessagePart None (Some "") None (inline_body "aGVsbG8=") None.

Definition part_two_slashes : MessagePart :=
  mkMessagePart (Some "text/plain/x") (Some "") None (inline_body "aGVsbG8=") None.

(** A text part whose payload is one character short of a quad. *)
Definition text_bad_base64 : MessagePart :=
  mkMessagePart (Some "text/plain") (Some "") None (inline_body "A") None.

(** A stand-in for [message.as_string()]: the header lines only. *)
Definition as_string_headers (message : MIMEMultipart) : result lib_exn string :=
  Ok (join ";" (map (fun kv : string * string => (fst kv ++ ": " ++ snd kv)%string)
                (mm_headers message))).

(** A fetched message with the given id, subject and body tree. *)
Definition fetched (i subject : string) (tree : MessagePart) : Message :=
  {| message_id := i;
     threadId := ("thread-" ++ i)%string;
     payload := mkMessagePart (mimeType tree) (filename tree)
                  (Some [("From", "someone@example.org"); ("Subject", subject)])
                  (body tree) (parts tree) |}.

(** A client that lists and returns the given messages and accepts every
    send and every batch. *)
Definition mailbox (address : string) (unread : list (result lib_exn Message)) : Client :=
  {| emailAddress := address;
     messages_list := fun _ =>
       Ok {| messages := Some (omap (fun r => match r with
                                              | Ok m => Some (message_id m, threadId m)
                                              | Err _ => None
                                              end) unread) |};
     messages_batch_get := fun _ _ => Ok unread;
     attachments_get := fun _ _ _ => Err (HttpError 404);
     messages_send := fun _ _ => Ok tt;
     messages_batch_modify := fun _ _ => Ok tt |}.

Definition sample_rule : email_list :=
  {| to := "team@example.com"; cc := ["a@example.com"; "b@example.com"] |}.

(** Three unread messages, the second with a text payload that is not valid
    base64. *)
Definition three_unread : list (result lib_exn Message) :=
  [Ok (fetched "m1" "first" text_hello);
   Ok (fetched "m2" "second" text_bad_base64);
   Ok (fetched "m3" "third" text_hello)].

(** Two messages fetched and one that the batch could not fetch. *)
Definition sample_mailbox : Client :=
  mailbox "relay@example.com"
    [Ok (fetched "m1" "first" text_hello);
     Err (HttpError 404);
     Ok (fetched "m3" "third" container_two)].

Definition sample_lists : gmap string email_list :=
  {[ "down@example.com" := sample_rule; "relay@example.com" := sample_rule ]}.

Definition sample_clients : list (string * Client) :=
  [("relay@example.com", sample_mailbox)].

(** One cycle on the sample mailbox, from an empty history. *)
Definition sample_cycle : result exn unit * list event :=
  apply_forwarding_rule as_string_headers sample_mailbox "relay@example.com"
    (Some sample_rule) [].

(** A clock stopped at the given time. *)
Definition clock_at (hour minute : Z) : list event -> Z * Z := fun _ => (hour, minute).

(** A stand-in for [parseaddr] on bare addresses: no display name, the
    address itself. *)
Definition parseaddr_bare (email : string) : string * string := ("", email).

Definition nl : string := String "010" "".

(** A rule file whose TO line is empty. *)
Definition file_empty_to : string * list string :=
  ("relay.txt",
   ["ACCOUNT" ++ nl; "relay@example.com" ++ nl; "TO" ++ nl; nl; "CC" ++ nl]%string).

(** A rule file that ends after its first line. *)
Definition file_short : string * list string :=
  ("short.txt", ["ACCOUNT" ++ nl]%string).

(** The directory [email_lists] holding the given files, each with the
    lines [readlines()] returns, listed in the order given. *)
Definition directory (files : list (string * list string)) : FileSystem :=
  {| listdir := fun path =>
       if String.eqb path "email_lists" then Ok (map fst files)
       else Err (LibError "FileNotFoundError");
     readlines := fun path =>
       match find (fun f : string * list string => String.eqb (list_path (fst f)) path)
               files with
       | Some f => Ok (snd f)
       | None => Err (LibError "FileNotFoundError")
       end |}.

(** ** Predicates on events *)

Definition is_modify (ev : event) : bool :=
  match ev with
  | EvBatchModify _ _ => true
  | _ => false
  end.

Definition is_send (ev : event) : bool :=
  match ev with
  | EvSend _ _ _ => true
  | _ => false
  end.

(** [reply] is the body of the send call that forwards the message [i] for
    [account]: the encoding of the serialized reply built for a fetched
    message whose id is [i]. *)
Definition replies_to (as_string : MIMEMultipart -> result lib_exn string)
    (account : string) (reply : reply_message) (i : string) : Prop :=
  exists rule unread_email subject _part serialized,
    message_id unread_email = i
    /\ as_string (build_message account rule unread_email subject _part) = Ok serialized
    /\ reply = build_reply serialized unread_email.

(** ** Bounded checks *)

(** [check] holds of every number below [n]. *)
Fixpoint forall_below (n : nat) (check : N -> bool) : bool :=
  match n with
  | 0 => true
  | S n' => check (N.of_nat n') && forall_below n' check
  end.

(** What the encoder makes of two neighbouring bytes, and what the decoder
    makes of it: the sextets are below 64 and the bytes are put together
    again. *)
Definition sextets_rejoin (x y : N) : bool :=
  let first := N.shiftr x 2 in
  let second := N.lor (N.shiftl (N.land x 3) 4) (N.shiftr y 4) in
  let third := N.lor (N.shiftl (N.land x 15) 2) (N.shiftr y 6) in
  let fourth := N.land x 63 in
  let second_alone := N.shiftl (N.land x 3) 4 in
  let third_alone := N.shiftl (N.land x 15) 2 in
  N.ltb first 64 && N.ltb second 64 && N.ltb third 64 && N.ltb fourth 64
  && N.ltb second_alone 64 && N.ltb third_alone 64
  && N.eqb (N.lor (N.shiftl first 2) (N.shiftr second 4)) x
  && N.eqb (N.lor (N.shiftl first 2) (N.shiftr second_alone 4)) x
  && N.eqb (N.land second 15) (N.shiftr y 4)
  && N.eqb (N.shiftr third 2) (N.land x 15)
  && N.eqb (N.shiftr third_alone 2) (N.land x 15)
  && N.eqb (N.land third 3) (N.shiftr y 6)
  && N.eqb (N.lor (N.shiftl (N.shiftr x 4) 4) (N.land x 15)) x
  && N.eqb (N.lor (N.shiftl (N.shiftr x 6) 6) (N.land x 63)) x.

(** The character the decoder reads for a sextet the encoder wrote. *)
Definition sextet_char (v : N) : N :=
  code (urlsafe_decode_translation (table_b2a_urlsafe v)).

(** ** Further predicates on the body tree *)

(** The part has no body to fetch: its body, if present, holds its data. *)
Definition inline (message : MessagePart) : bool :=
  match body message with
  | Some b => match data b with Some _ => true | None => false end
  | None => true
  end.

(** A text part and an attachment part holding the given content, and the
    container of the two. *)
Definition text_part (subtype content : string) : MessagePart :=
  mkMessagePart (Some ("text/" ++ subtype)%string) (Some "") None
    (inline_body (string_of_list_byte (urlsafe_b64encode (encode_utf8 content)))) None.

Definition attachment_part (name : string) (payload : bytes) : MessagePart :=
  mkMessagePart (Some "application/octet-stream") (Some name) None
    (inline_body (string_of_list_byte (urlsafe_b64encode payload))) None.

(** An attachment whose bytes have to be fetched. *)
Definition attachment_remote : MessagePart :=
  mkMessagePart (Some "application/pdf") (Some "report.pdf") None
    (Some {| data := None; attachmentId := Some "att-1" |}) None.

(** A client whose attachment fetch answers with the given body. *)
Definition attachment_server (answer : result lib_exn MessagePartBody) : Client :=
  {| emailAddress := "relay@example.com";
     messages_list := fun _ => Err (HttpError 503);
     messages_batch_get := fun _ _ => Err (HttpError 503);
     attachments_get := fun _ _ _ => answer;
     messages_send := fun _ _ => Err (HttpError 503);
     messages_batch_modify := fun _ _ => Err (HttpError 503) |}.

(** ** Further measures on a cycle *)

(** The ids of the messages a batch returned, in the order of the batch. *)
Definition fetched_ids (unread_emails : list (result lib_exn Message)) : list string :=
  omap (fun r => match r with
                 | Ok unread_email => Some (message_id unread_email)
                 | Err _ => None
                 end) unread_emails.

(** The number of send calls among the events. *)
Definition sends (evs : list event) : nat := length (List.filter is_send evs).

(** A client whose listing is empty. *)
Definition mailbox_empty : Client := mailbox "relay@example.com" [].

(** A client whose send calls are refused; everything else as [mailbox]. *)
Definition mailbox_refusing (unread : list (result lib_exn Message)) : Client :=
  {| emailAddress := "relay@example.com";
     messages_list := messages_list (mailbox "relay@example.com" unread);
     messages_batch_get := messages_batch_get (mailbox "relay@example.com" unread);
     attachments_get := attachments_get (mailbox "relay@example.com" unread);
     messages_send := fun _ _ => Err (HttpError 403);
     messages_batch_modify := messages_batch_modify (mailbox "relay@example.com" unread) |}.

(** A serializer that raises a [RuntimeError] on every message. *)
Definition as_string_raising (message : MIMEMultipart) : result lib_exn string :=
  Err (LibRuntimeError "cannot serialize").

(** ** Further measures on the history of the scheduler *)

(** The events of the scheduler itself: reading the clock and sleeping. *)
Definition is_clock (ev : event) : bool :=
  match ev with
  | EvNow _ _ => true
  | EvSleep _ => true
  | _ => false
  end.

(** The time read last. *)
Fixpoint last_sample (h : list event) : option (Z * Z) :=
  match h with
  | [] => None
  | ev :: rest =>
    match last_sample rest with
    | Some sampled => Some sampled
    | None => match ev with
              | EvNow hour minute => Some (hour, minute)
              | _ => None
              end
    end
  end.

(** How many times the clock was read, and how many times the program slept
    for five seconds. *)
Definition count_now (h : list event) : nat :=
  length (List.filter (fun ev => match ev with EvNow _ _ => true | _ => false end) h).

Definition count_sleep (h : list event) : nat :=
  length (List.filter (fun ev => match ev with EvSleep 5 => true | _ => false end) h).

(** What holds of every state [main] reaches from the history [h0]. *)
Definition scheduler_invariant (h0 : list event) (s : scheduler) : Prop :=
  last_sample (history s) = Some (dtime s)
  /\ (sched_phase s = Stopped -> cutoff (dtime s) = true)
  /\ count_now (history s) = count_now h0 + 1 + ticks s
  /\ match sched_phase s with
     | Crashed _ => S (count_sleep (history s)) = count_sleep h0 + ticks s
     | _ => count_sleep (history s) = count_sleep h0 + ticks s
     end.

(** A clock that reads 23:54 the first time and 23:59 afterwards. *)
Definition clock_late (h : list event) : Z * Z :=
  if existsb (fun ev => match ev with EvNow _ _ => true | _ => false end) h
  then (23, 59)%Z else (23, 54)%Z.

(** ** What a rule file contributes *)

(** The account and the rule of a file whose section headers are in place
    (lines 24 and 28); nothing for any other file. *)
Definition entry_of (content : list string) : option (string * email_list) :=
  let lines := map strip content in
  match headers_ok lines, index lines 1, index lines 3 with
  | Ok true, Ok account, Ok to_address =>
    Some (account, {| to := to_address; cc := drop 5 lines |})
  | _, _, _ => None
  end.

(** A second rule file for the account of [file_empty_to], and a file whose
    first line is not a section header. *)
Definition file_second : string * list string :=
  ("second.txt",
   ["ACCOUNT" ++ nl; " relay@example.com " ++ nl; "TO" ++ nl; "team@example.com" ++ nl;
    "CC" ++ nl; "a@example.com" ++ nl; "b@example.com"]%string).

Definition file_bad_header : string * list string :=
  ("notes.txt", ["account" ++ nl; "x@example.com" ++ nl]%string).

(** ** Startup: [main] (src/main.py, lines 155-174) *)

(** The keys of the dict [email_lists] in the order [keys()] yields them: a
    key stands where line 28 inserted it first. *)
Fixpoint parse_keys (fs : FileSystem) (files : list string) (keys : list string)
    : list string :=
  match files with
  | [] => keys
  | file :: rest =>
    match readlines fs (list_path file) with
    | Ok content =>
      match entry_of content with
      | Some (account, _) =>
        parse_keys fs rest (if decide (account ∈ keys) then keys else keys ++ [account])
      | None => parse_keys fs rest keys
      end
    | Err _ => keys
    end
  end.

(** [email_lists.keys()] of line 162, for the dict [parse] returned. *)
Definition email_lists_keys (fs : FileSystem) : list string :=
  match listdir fs "email_lists" with
  | Ok files => parse_keys fs files []
  | Err _ => []
  end.

(** What happens while the accounts are signed in. *)
Inductive startup_event :=
| StLogin (credential_file account : string)     (* login(credential_file, account) *)
| StBuild (account : string)                     (* build('gmail', 'v1', credentials=creds) *)
| StGetProfile (account : string)                (* users().getProfile(userId='me') *)
| StPrintAuthenticated (account : string)        (* "Successfully authenticated ..." *)
| StPrintFailed (account : string).              (* "Failed to authorize ..." *)

(** What [main] calls to sign an account in, each call answered from what
    happened before it: [login] (lines 21-43: the OAuth library and the
    token files), [build] of the API client library, and the profile of
    the signed-in user, of which [main] reads the [emailAddress]. *)
Record Startup (Credentials : Type) := {
  login : list startup_event -> string -> string -> result lib_exn Credentials;
  build : list startup_event -> Credentials -> result lib_exn Client;
  getProfile : list startup_event -> Client -> result lib_exn (option string);
  ValueError_subclass : string -> bool   (* issubclass(cls, ValueError), by class name *)
}.
Arguments login {Credentials} _ _ _ _.
Arguments build {Credentials} _ _ _.
Arguments getProfile {Credentials} _ _ _.
Arguments ValueError_subclass {Credentials} _ _.

(** [isinstance(e, ValueError)] for an exception raised inside a library. *)
Definition is_ValueError {Credentials} (env : Startup Credentials) (le : lib_exn) : bool :=
  match le with
  | LibError cls => ValueError_subclass env cls
  | _ => false
  end.

(** Lines 173-174: [except ValueError] prints and goes on with the clients as
    they are; any other exception leaves [main]. *)
Definition except_ValueError {Credentials} (env : Startup Credentials) (account : string)
    (clients : list (string * Client)) (le : lib_exn) (evs : list startup_event)
    : result lib_exn (list (string * Client)) * list startup_event :=
  if is_ValueError env le
  then (Ok clients, evs ++ [StPrintFailed account])
  else (Err le, evs).

(** Lines 163-174: the body of the loop for one account. *)
Definition authenticate_one {Credentials} (env : Startup Credentials) (account : string)
    (clients : list (string * Client)) (h : list startup_event)
    : result lib_exn (list (string * Client)) * list startup_event :=
  let ev1 := [StLogin "app_credentials.json" account] in
  match login env h "app_credentials.json" account with
  | Err le => except_ValueError env account clients le ev1
  | Ok creds =>
    let ev2 := ev1 ++ [StBuild account] in
    match build env (h ++ ev1) creds with
    | Err le => except_ValueError env account clients le ev2
    | Ok client =>
      let appended := clients ++ [(account, client)] in
      let ev3 := ev2 ++ [StGetProfile account] in
      match getProfile env (h ++ ev2) client with
      | Err le => except_ValueError env account appended le ev3
      | Ok profile =>
        if decide (profile = Some account)
        then (Ok appended, ev3 ++ [StPrintAuthenticated account])
        else (Ok clients, ev3 ++ [StPrintFailed account])   (* del clients[-1]; raise ValueError *)
      end
    end
  end.

(** Lines 162-174: the loop over the accounts. *)
Fixpoint authenticate {Credentials} (env : Startup Credentials) (accounts : list string)
    (clients : list (string * Client)) (h : list startup_event)
    : result lib_exn (list (string * Client)) * list startup_event :=
  match accounts with
  | [] => (Ok clients, [])
  | account :: rest =>
    match authenticate_one env account clients h with
    | (Ok clients', evs) =>
      let (r, evs') := authenticate env rest clients' (h ++ evs) in (r, evs ++ evs')
    | (Err le, evs) => (Err le, evs)
    end
  end.

(** Lines 155-174: the rules are loaded and the accounts signed in. *)
Definition startup {Credentials} (env : Startup Credentials) (fs : FileSystem)
    (parseaddr : string -> string * string)
    : result exn (gmap string email_list * list (string * Client)) * list startup_event :=
  match fst (parse fs parseaddr) with
  | Err e => (Err e, [])
  | Ok email_lists =>
    match authenticate env (email_lists_keys fs) [] [] with
    | (Ok clients, evs) => (Ok (email_lists, clients), evs)
    | (Err le, evs) => (Err (Raised le), evs)
    end
  end.

(** Lines 154-184: [main], followed for at most [fuel] tests of its [while];
    nothing when it stops on an exception before the loop. *)
Definition main {Credentials} (env : Startup Credentials)
    (as_string : MIMEMultipart -> result lib_exn string) (now : list event -> Z * Z)
    (fs : FileSystem) (parseaddr : string -> string * string)
    (fuel : nat) : option scheduler :=
  match fst (startup env fs parseaddr) with
  | Ok (email_lists, clients) =>
    Some (run as_string now fuel email_lists clients (main_start now []))
  | Err _ => None
  end.

(** A sign-in service: every login and build succeeds, the credentials of an
    account being its name, and the profile is the address of the client. *)
Definition sign_in (clients : string -> Client) : Startup string :=
  {| login := fun _ _ account => Ok account;
     build := fun _ creds => Ok (clients creds);
     getProfile := fun _ client => Ok (Some (emailAddress client));
     ValueError_subclass := fun cls => String.eqb cls "ValueError" |}.

(** Whoever signs in, the client is signed in as relay@example.com. *)
Definition always_relay (creds : string) : Client := sample_mailbox.

(** The directory when one of its entries is a folder: opening it raises. *)
Definition directory_with_folder : FileSystem :=
  {| listdir := fun path =>
       if String.eqb path "email_lists" then Ok ["relay.txt"; "archive"]
       else Err (LibError "FileNotFoundError");
     readlines := fun path =>
       if String.eqb path "email_lists/relay.txt" then Ok (snd file_empty_to)
       else if String.eqb path "email_lists/archive" then Err (LibError "IsADirectoryError")
       else Err (LibError "FileNotFoundError") |}.

(** No directory [email_lists] at all. *)
Definition directory_missing : FileSystem :=
  {| listdir := fun _ => Err (LibError "FileNotFoundError");
     readlines := fun _ => Err (LibError "FileNotFoundError") |}.

(** U+00A0, the no-break space, in UTF-8. *)
Definition nbsp : string := String "194" (String "160" "").

(** A rule file whose lines end with no-break spaces and whose account is
    the one of [file_empty_to]. *)
Definition file_nbsp : string * list string :=
  ("spaced.txt",
   ["ACCOUNT" ++ nbsp ++ nl; nbsp ++ "relay@example.com" ++ nbsp ++ nl; "TO" ++ nl;
    "board@example.com" ++ nl; "CC" ++ nbsp ++ nl]%string).

(** A sign-in service whose profile answer cannot be read: the call raises
    a subclass of [ValueError]. *)
Definition sign_in_garbled : Startup string :=
  {| login := fun _ _ account => Ok account;
     build := fun _ _ => Ok offline;
     getProfile := fun _ _ => Err (LibError "JSONDecodeError");
     ValueError_subclass := fun cls =>
       String.eqb cls "ValueError" || String.eqb cls "JSONDecodeError" |}.

(** A sign-in service that is down. *)
Definition sign_in_unavailable : Startup string :=
  {| login := fun _ _ _ => Err (HttpError 503);
     build := fun _ _ => Ok offline;
     getProfile := fun _ _ => Ok None;
     ValueError_subclass := fun cls => String.eqb cls "ValueError" |}.

(** * Properties *)

(** ** The library models on known values *)

Lemma library_examples :
  split "/" "text/plain" = ["text"; "plain"]
  /\ split "/" "" = [""] /\ split "/" "a/b/c" = ["a"; "b"; "c"] /\ split "/" "/" = [""; ""]
  /\ urlsafe_b64decode (encode_utf8 "aGVsbG8=") = Ok (encode_utf8 "hello")
  /\ urlsafe_b64decode (encode_utf8 "A") = Err binascii_Error
  /\ urlsafe_b64decode (encode_utf8 "aGVsbG8") = Err binascii_Error
  /\ urlsafe_b64decode (encode_utf8 "_w==") = Ok [xff]
  /\ urlsafe_b64decode (encode_utf8 "AA=x=") = Ok [x00; x0c]
  /\ urlsafe_b64decode (encode_utf8 "A=A=A=A") = Ok [x00; x00]
  /\ urlsafe_b64decode (encode_utf8 "AA==AAAA") = Ok [x00]
  /\ urlsafe_b64encode (encode_utf8 "hello") = encode_utf8 "aGVsbG8="
  /\ urlsafe_b64encode [xff; xfe] = encode_utf8 "__4="
  /\ decode_utf8 [xff] = Err UnicodeDecodeError
  /\ decode_utf8 (encode_utf8 "hello") = Ok "hello"
  /\ strip "  a b " = "a b"
  /\ join "," ["a"; "b"; "c"] = "a,b,c" /\ join "," [] = "".
Proof. repeat split; vm_compute; reflexivity. Qed.

(** ** The monad *)


Lemma bind_Err {A B} (m : M A) (k : A -> M B) h e evs :
  m h = (Err e, evs) -> bind m k h = (Err e, evs).
Proof. intros Hm. unfold bind. rewrite Hm. reflexivity. Qed.

Lemma bind_inv_Err {A B} (m : M A) (k : A -> M B) h e evs :
  bind m k h = (Err e, evs) ->
  m h = (Err e, evs)
  \/ exists a evs1 evs2,
       m h = (Ok a, evs1) /\ k a (h ++ evs1) = (Err e, evs2) /\ evs = evs1 ++ evs2.
Proof.
  unfold bind. destruct (m h) as [[a | e'] evs1].
  - destruct (k a (h ++ evs1)) as [r evs2] eqn:Hk. intros [= -> <-].
    right. exists a, evs1, evs2. auto.
  - intros [= -> ->]. left. reflexivity.
Qed.

Lemma bind_inv_Ok {A B} (m : M A) (k : A -> M B) h b evs :
  bind m k h = (Ok b, evs) ->
  exists a evs1 evs2,
    m h = (Ok a, evs1) /\ k a (h ++ evs1) = (Ok b, evs2) /\ evs = evs1 ++ evs2.
Proof.
  unfold bind. destruct (m h) as [[a | e'] evs1]; [| discriminate].
  destruct (k a (h ++ evs1)) as [r evs2] eqn:Hk. intros [= -> <-].
  exists a, evs1, evs2. auto.
Qed.

Lemma bind_ret {A B} (a : A) (k : A -> M B) h : bind (ret a) k h = k a h.
Proof. unfold bind, ret. rewrite app_nil_r. destruct (k a h); reflexivity. Qed.

Lemma bind_lift_Ok {A B} (r : result exn A) (a : A) (k : A -> M B) h :
  r = Ok a -> bind (lift r) k h = k a h.
Proof. intros ->. apply (bind_ret a k h). Qed.

(** ** [parse_email_body]: unfolding and induction *)

Lemma parse_email_body_unfold c msg_id message :
  parse_email_body c msg_id message
  = parse_email_body_step (parse_email_body c msg_id) c msg_id message.
Proof. destruct message; reflexivity. Qed.


(** ** Line 53: when the declared type splits in two *)

Lemma split_slash_length s : length (split "/" s) = S (count_slash s).
Proof.
  induction s as [| c s IH]; simpl; [reflexivity |].
  destruct (Ascii.eqb c "/"); simpl.
  - rewrite IH. reflexivity.
  - destruct (split "/" s) as [| piece pieces]; simpl in *; [discriminate | exact IH].
Qed.

Lemma unpack2_Ok l : length l = 2 -> exists a b, unpack2 l = Ok (a, b).
Proof. destruct l as [| a [| b [| x l]]]; simpl; try discriminate. eauto. Qed.

Lemma unpack2_Err l : length l <> 2 -> unpack2 l = Err (ValueError_unpack (length l)).
Proof. destruct l as [| a [| b [| x l]]]; simpl; try reflexivity. congruence. Qed.

Lemma split_mimeType_declared message :
  declares_type_subtype message = true ->
  exists mime_type mime_subtype, split_mimeType message = Ok (mime_type, mime_subtype).
Proof.
  unfold declares_type_subtype, split_mimeType.
  destruct (mimeType message) as [s |]; [| discriminate].
  intros H%Nat.eqb_eq. apply unpack2_Ok. rewrite split_slash_length, H. reflexivity.
Qed.

Lemma split_mimeType_undeclared message :
  declares_type_subtype message = false ->
  exists e, split_mimeType message = Err e /\ is_split_error e = true.
Proof.
  unfold declares_type_subtype, split_mimeType.
  destruct (mimeType message) as [s |].
  - intros H%Nat.eqb_neq. eexists. split.
    + apply unpack2_Err. rewrite split_slash_length. lia.
    + reflexivity.
  - intros _. eexists. split; reflexivity.
Qed.

Lemma split_mimeType_Err_split message e :
  split_mimeType message = Err e -> is_split_error e = true.
Proof.
  unfold split_mimeType. destruct (mimeType message) as [s |].
  - destruct (split "/" s) as [| a [| b [| x l]]]; simpl; intros [= <-]; reflexivity.
  - intros [= <-]. reflexivity.
Qed.

Lemma parse_email_body_split_Err c msg_id message h e :
  split_mimeType message = Err e ->
  parse_email_body c msg_id message h = (Err e, []).
Proof.
  intros Hs. rewrite parse_email_body_unfold. unfold parse_email_body_step.
  apply bind_Err. unfold lift. rewrite Hs. reflexivity.
Qed.

(** ** The subparts of a container *)

Lemma attach_all_ext (self1 self2 : MessagePart -> M MIMEBase) subparts :
  Forall (fun q => forall h, self1 q h = self2 q h) subparts ->
  forall h, attach_all self1 subparts h = attach_all self2 subparts h.
Proof.
  induction 1 as [| q l Hq _ IH]; intros h; simpl; [reflexivity |].
  unfold bind. rewrite Hq. destruct (self2 q h) as [[child | e] evs]; [| reflexivity].
  rewrite IH. reflexivity.
Qed.

Lemma attach_all_raises (Q : exn -> Prop) (self : MessagePart -> M MIMEBase) subparts :
  Forall (fun q => forall h e evs, self q h = (Err e, evs) -> Q e) subparts ->
  forall h e evs, attach_all self subparts h = (Err e, evs) -> Q e.
Proof.
  induction 1 as [| q l Hq _ IH]; intros h e evs; simpl.
  - discriminate.
  - intros [H | (child & evs1 & evs2 & _ & H & _)]%bind_inv_Err; [eauto |].
    apply bind_inv_Err in H as [H | (children & evs3 & evs4 & _ & H & _)]; [eauto |].
    discriminate.
Qed.

(** A subpart that raises makes the enclosing loop raise the same exception,
    once the subparts before it are reconstructed. *)
Lemma attach_all_stops (self : MessagePart -> M MIMEBase) before q after h children evs e evs' :
  attach_all self before h = (Ok children, evs) ->
  self q (h ++ evs) = (Err e, evs') ->
  attach_all self (before ++ q :: after) h = (Err e, evs ++ evs').
Proof.
  revert h children evs. induction before as [| p l IH]; intros h children evs; simpl.
  - intros [= <- <-]. rewrite app_nil_r. intros Hq.
    erewrite bind_Err by exact Hq. reflexivity.
  - intros (child & evs1 & evs2 & Hp & H & ->)%bind_inv_Ok.
    apply bind_inv_Ok in H as (rest & evs3 & evs4 & Hl & [= <- <-] & ->).
    rewrite app_nil_r, app_assoc. intros Hq.
    unfold bind. rewrite Hp, (IH _ _ _ Hl Hq), app_assoc. reflexivity.
Qed.

(** ** The exceptions reconstruction can raise *)

Lemma encode_ascii_Err s e : encode_ascii s = Err e -> e = UnicodeEncodeError.
Proof. unfold encode_ascii. destruct (forallb _ _); congruence. Qed.

Lemma decode_utf8_Err bs e : decode_utf8 bs = Err e -> e = UnicodeDecodeError.
Proof. unfold decode_utf8. destruct (utf8_valid _); congruence. Qed.

Lemma a2b_base64_loop_Err data : forall quad_pos leftchar pads bin_data e,
  a2b_base64_loop data quad_pos leftchar pads bin_data = Err e -> e = binascii_Error.
Proof.
  induction data as [| this_ch rest IH]; intros quad_pos leftchar pads bin_data e; simpl.
  - destruct (Nat.eqb quad_pos 0); congruence.
  - repeat case_match; try congruence; apply IH.
Qed.

Lemma urlsafe_b64decode_Err s e : urlsafe_b64decode s = Err e -> e = binascii_Error.
Proof. apply a2b_base64_loop_Err. Qed.

Ltac library_error :=
  repeat match goal with
  | H : encode_ascii _ = Err _ |- _ => apply encode_ascii_Err in H; subst
  | H : decode_utf8 _ = Err _ |- _ => apply decode_utf8_Err in H; subst
  | H : urlsafe_b64decode _ = Err _ |- _ => apply urlsafe_b64decode_Err in H; subst
  end.

Lemma parse_email_body_raises (Q : exn -> Prop) (check : MessagePart -> bool) c msg_id :
  (forall key, Q (KeyError key)) ->
  Q UnicodeEncodeError -> Q binascii_Error -> Q UnicodeDecodeError ->
  Q TypeError_not_iterable ->
  (forall le, Q (Raised le)) ->
  (forall q e, check q = true -> split_mimeType q = Err e -> Q e) ->
  forall message, every_part check message = true ->
  forall h e evs, parse_email_body c msg_id message h = (Err e, evs) -> Q e.
Proof.
  intros HK HE HB HD HT HR HS message.
  induction message as [mt fn hs b | mt fn hs b subparts IH] using MessagePart_tree_ind;
    intros Hall h e evs; rewrite parse_email_body_unfold; unfold parse_email_body_step;
    apply andb_prop in Hall as [Hc Hsub];
    (intros [H | ([mime_type mime_subtype] & evs1 & evs2 & _ & H & _)]%bind_inv_Err;
      [ unfold lift in H; injection H as H _; eauto |]).
  - unfold bind, lift, getitem, ret, raise, call in H. simpl in H.
    repeat case_match; simplify_eq; library_error; auto.
  - destruct (String.eqb mime_type "text");
      [| destruct (truthy _)].
    + unfold bind, lift, getitem, ret, raise, call in H. simpl in H.
      repeat case_match; simplify_eq; library_error; auto.
    + unfold bind, lift, getitem, ret, raise, call in H. simpl in H.
      repeat case_match; simplify_eq; library_error; auto.
    + simpl in H.
      apply bind_inv_Err in H as [H | (children & evs3 & evs4 & _ & H & _)]; [| discriminate].
      revert H. apply attach_all_raises.
      apply Forall_forall. intros q Hq. rewrite Forall_forall in IH.
      apply IH; [exact Hq |].
      rewrite forallb_forall in Hsub. apply Hsub. apply list_elem_of_In. exact Hq.
Qed.

Lemma every_part_true message : every_part (fun _ => true) message = true.
Proof.
  induction message as [mt fn hs b | mt fn hs b subparts IH] using MessagePart_tree_ind;
    simpl; [reflexivity |].
  apply forallb_forall. intros q Hq%list_elem_of_In. rewrite Forall_forall in IH. auto.
Qed.

Lemma parse_email_body_no_RecursionError c msg_id message h evs :
  parse_email_body c msg_id message h <> (Err RecursionError, evs).
Proof.
  intros H.
  assert (RecursionError <> RecursionError) as Hne; [| congruence].
  revert H.
  apply (parse_email_body_raises (fun e => e <> RecursionError) (fun _ => true));
    try discriminate.
  - intros q e _ He%split_mimeType_Err_split ->. discriminate.
  - apply every_part_true.
Qed.

(** ** The three branches *)

Lemma parse_email_body_text c msg_id message h mime_subtype :
  split_mimeType message = Ok ("text", mime_subtype) ->
  parse_email_body c msg_id message h
  = (b <- getitem "body" (body message) ;;
     d <- getitem "data" (data b) ;;
     encoded <- lift (encode_ascii d) ;;
     decoded <- lift (urlsafe_b64decode encoded) ;;
     content <- lift (decode_utf8 decoded) ;;
     ret (MIMEText content mime_subtype)) h.
Proof.
  intros Hs. rewrite parse_email_body_unfold. unfold parse_email_body_step.
  rewrite (bind_lift_Ok _ _ _ _ Hs). reflexivity.
Qed.

Lemma parse_email_body_attachment c msg_id message h mime_type mime_subtype :
  split_mimeType message = Ok (mime_type, mime_subtype) ->
  String.eqb mime_type "text" = false ->
  truthy (filename message) = true ->
  parse_email_body c msg_id message h
  = (b <- getitem "body" (body message) ;;
     d <- match data b with
          | Some d => ret d
          | None =>
            attachment_id <- getitem "attachmentId" (attachmentId b) ;;
            attachment <- call (fun h => attachments_get c h msg_id attachment_id)
                               (EvAttachmentGet (emailAddress c) msg_id attachment_id) ;;
            getitem "data" (data attachment)
          end ;;
     attachment_data <- lift (urlsafe_b64decode (encode_utf8 d)) ;;
     ret (MIMEAttachment mime_type mime_subtype attachment_data
            (default "" (filename message)))) h.
Proof.
  intros Hs Ht Hf. rewrite parse_email_body_unfold. unfold parse_email_body_step.
  rewrite (bind_lift_Ok _ _ _ _ Hs). simpl. rewrite Ht, Hf. reflexivity.
Qed.

Lemma parse_email_body_container c msg_id message h mime_type mime_subtype :
  split_mimeType message = Ok (mime_type, mime_subtype) ->
  String.eqb mime_type "text" = false ->
  truthy (filename message) = false ->
  parse_email_body c msg_id message h
  = match parts message with
    | None => raise TypeError_not_iterable
    | Some subparts =>
      children <- attach_all (parse_email_body c msg_id) subparts ;;
      ret (MIMEContainer mime_type mime_subtype children)
    end h.
Proof.
  intros Hs Ht Hf. rewrite parse_email_body_unfold. unfold parse_email_body_step.
  rewrite (bind_lift_Ok _ _ _ _ Hs). simpl. rewrite Ht, Hf. reflexivity.
Qed.

(** ** C10: the declared type is destructured before anything else *)

(** C10. A part whose [mimeType] is absent or does not hold exactly one "/"
    makes reconstruction raise at line 53, before a branch is taken and
    before any call is made; the same holds when that part is met at any
    position below a container, as soon as the subparts before it are
    reconstructed; and when every part of the tree declares a type/subtype,
    reconstruction never raises the exceptions of line 53. *)
Theorem parse_email_body_mimeType_partial c msg_id message h :
  (declares_type_subtype message = false ->
     exists e, is_split_error e = true
               /\ parse_email_body c msg_id message h = (Err e, []))
  /\ (forall parent before after children evs,
        declares_type_subtype message = false ->
        is_container parent = true ->
        parts parent = Some (before ++ message :: after) ->
        attach_all (parse_email_body c msg_id) before h = (Ok children, evs) ->
        exists e, is_split_error e = true
                  /\ parse_email_body c msg_id parent h = (Err e, evs))
  /\ (every_part declares_type_subtype message = true ->
      forall e evs, parse_email_body c msg_id message h = (Err e, evs) ->
                    is_split_error e = false).
Proof.
  split; [| split].
  - intros (e & Hs & He)%split_mimeType_undeclared. exists e. split; [exact He |].
    apply parse_email_body_split_Err. exact Hs.
  - intros parent before after children evs (e & Hs & He)%split_mimeType_undeclared
      Hc Hp Hb.
    exists e. split; [exact He |].
    unfold is_container in Hc.
    destruct (split_mimeType parent) as [[mime_type mime_subtype] | e'] eqn:Hsp;
      [| discriminate].
    apply andb_prop in Hc as [Ht%negb_true_iff Hf%negb_true_iff].
    rewrite (parse_email_body_container _ _ _ _ _ _ Hsp Ht Hf), Hp.
    erewrite bind_Err; [reflexivity |].
    rewrite <- (app_nil_r evs).
    eapply attach_all_stops; [exact Hb |].
    apply parse_email_body_split_Err. exact Hs.
  - intros Hall e evs.
    apply (parse_email_body_raises (fun e => is_split_error e = false)
             declares_type_subtype); try reflexivity; [| exact Hall].
    intros q e' Hq He'. apply split_mimeType_declared in Hq as (a & b & Hq). congruence.
Qed.

Lemma parse_email_body_mimeType_partial_witness :
  (exists e, is_split_error e = true
             /\ parse_email_body offline "m1" part_untyped [] = (Err e, []))
  /\ (exists e, is_split_error e = true
                /\ parse_email_body offline "m1"
                     (mkMessagePart (Some "multipart/mixed") None None None
                        (Some [text_hello; part_two_slashes])) []
                   = (Err e, []))
  /\ is_split_error binascii_Error = false.
Proof.
  split; [| split].
  - apply (proj1 (parse_email_body_mimeType_partial offline "m1" part_untyped [])).
    reflexivity.
  - apply (proj1 (proj2 (parse_email_body_mimeType_partial offline "m1" part_two_slashes []))
             _ [text_hello] [] [MIMEText "hello" "plain"] []); reflexivity.
  - apply (proj2 (proj2 (parse_email_body_mimeType_partial offline "m1" text_bad_base64 []))
             eq_refl binascii_Error []).
    reflexivity.
Defined.

(** ** C4: text first, file name second, container last *)



(** ** C2: a container without subparts *)

(** C2, as the code has it. A container whose list of subparts is present and
    empty is reconstructed, without any call, into a container with nothing
    attached; reconstruction of a container fails only when the list is
    absent, and then with the [TypeError] of iterating over [None]. *)
Theorem parse_email_body_container_without_children c msg_id message h :
  is_container message = true ->
  (parts message = Some [] ->
     exists mime_type mime_subtype,
       split_mimeType message = Ok (mime_type, mime_subtype)
       /\ parse_email_body c msg_id message h
          = (Ok (MIMEContainer mime_type mime_subtype []), []))
  /\ (parts message = None ->
      parse_email_body c msg_id message h = (Err TypeError_not_iterable, [])).
Proof.
  unfold is_container.
  destruct (split_mimeType message) as [[mime_type mime_subtype] | e] eqn:Hs;
    [| discriminate].
  intros [Ht%negb_true_iff Hf%negb_true_iff]%andb_prop.
  rewrite (parse_email_body_container _ _ _ _ _ _ Hs Ht Hf).
  split; intros ->; [| reflexivity].
  exists mime_type, mime_subtype. split; reflexivity.
Qed.

Lemma parse_email_body_container_without_children_witness :
  is_container container_empty = true
  /\ (exists mime_type mime_subtype,
        split_mimeType container_empty = Ok (mime_type, mime_subtype)
        /\ parse_email_body offline "m1" container_empty []
           = (Ok (MIMEContainer mime_type mime_subtype []), []))
  /\ parse_email_body offline "m1"
       (mkMessagePart (Some "multipart/mixed") None None None None) []
     = (Err TypeError_not_iterable, []).
Proof.
  split; [reflexivity |]. split.
  - apply (proj1 (parse_email_body_container_without_children offline "m1"
                    container_empty [] eq_refl)).
    reflexivity.
  - apply (proj2 (parse_email_body_container_without_children offline "m1"
                    (mkMessagePart (Some "multipart/mixed") None None None None) []
                    eq_refl)).
    reflexivity.
Defined.

(** The claim of the specification fails on the empty container: its
    reconstruction does not fail at all. *)
Lemma container_empty_reconstructs :
  is_container container_empty = true
  /\ parts container_empty = Some []
  /\ parse_email_body offline "m1" container_empty []
     = (Ok (MIMEContainer "multipart" "mixed" []), [])
  /\ ~ (exists e evs, parse_email_body offline "m1" container_empty [] = (Err e, evs)).
Proof.
  repeat split. intros (e & evs & H). discriminate H.
Qed.

(** ** C9: reconstruction terminates *)

Lemma depth_subpart child parent : subpart child parent -> depth child < depth parent.
Proof.
  intros (subparts & Hp & Hin). destruct parent as [mt fn hs b ps]. simpl in Hp. subst ps.
  simpl. apply Nat.lt_succ_r.
  induction subparts as [| q l IH]; simpl in *; [contradiction |].
  destruct Hin as [-> | Hin]; [lia |]. specialize (IH Hin). lia.
Qed.

Lemma subpart_wf : well_founded subpart.
Proof.
  apply (Wf_nat.well_founded_lt_compat _ depth). apply depth_subpart.
Qed.

Lemma parse_email_body_step_ext (self1 self2 : MessagePart -> M MIMEBase) c msg_id message :
  (forall child, subpart child message -> forall h, self1 child h = self2 child h) ->
  forall h, parse_email_body_step self1 c msg_id message h
            = parse_email_body_step self2 c msg_id message h.
Proof.
  intros Hself h. unfold parse_email_body_step.
  destruct (split_mimeType message) as [[mime_type mime_subtype] | e].
  - rewrite !(bind_lift_Ok _ _ _ _ eq_refl). simpl.
    destruct (String.eqb mime_type "text"); [reflexivity |].
    destruct (truthy (filename message)); [reflexivity |].
    destruct (parts message) as [subparts |] eqn:Hp; [| reflexivity].
    unfold bind. rewrite (attach_all_ext self1 self2); [reflexivity |].
    apply Forall_forall. intros q Hq%list_elem_of_In. apply Hself.
    exists subparts. auto.
  - reflexivity.
Qed.

Lemma parse_email_body_bounded_enough limit : forall c msg_id message h,
  depth message <= limit ->
  parse_email_body_bounded limit c msg_id message h = parse_email_body c msg_id message h.
Proof.
  induction limit as [| limit IH]; intros c msg_id message h Hd.
  - destruct message as [mt fn hs b [l |]]; simpl in Hd; lia.
  - rewrite parse_email_body_unfold. simpl.
    apply parse_email_body_step_ext. intros child Hc h'.
    apply IH. apply depth_subpart in Hc. lia.
Qed.

(** C9. Every recursive call of the reconstruction is on a subpart, a
    subpart is strictly lower than its parent, and the subpart relation is
    well founded; so the function run under a limit on the depth of calls
    returns, for every tree no higher than the limit, exactly what the
    function defined by recursion on the tree returns, and never stops on
    [RecursionError]. *)
Theorem parse_email_body_terminates limit c msg_id message h :
  depth message <= limit ->
  parse_email_body_bounded limit c msg_id message h = parse_email_body c msg_id message h
  /\ fst (parse_email_body_bounded limit c msg_id message h) <> Err RecursionError
  /\ Acc subpart message
  /\ (forall child, subpart child message -> depth child < depth message).
Proof.
  intros Hd. rewrite (parse_email_body_bounded_enough _ _ _ _ _ Hd).
  split; [reflexivity |]. split; [| split].
  - destruct (parse_email_body c msg_id message h) as [r evs] eqn:H. simpl.
    intros ->. exact (parse_email_body_no_RecursionError _ _ _ _ _ H).
  - apply subpart_wf.
  - intros child. apply depth_subpart.
Qed.

Lemma parse_email_body_terminates_witness :
  depth container_two <= 2
  /\ parse_email_body_bounded 2 offline "m1" container_two []
     = (Ok (MIMEContainer "multipart" "mixed"
              [MIMEText "hello" "plain";
               MIMEAttachment "application" "octet-stream" [x00; x01; x02] "f.bin"]), [])
  /\ parse_email_body_bounded 1 offline "m1" container_two [] = (Err RecursionError, []).
Proof.
  split; [simpl; lia |]. split; [| reflexivity].
  rewrite (proj1 (parse_email_body_terminates 2 offline "m1" container_two []
                    ltac:(simpl; lia))).
  reflexivity.
Defined.

(** ** The events of one cycle *)

Lemma attach_all_events (P : event -> Prop) (self : MessagePart -> M MIMEBase) subparts :
  Forall (fun q => forall h r evs, self q h = (r, evs) -> Forall P evs) subparts ->
  forall h r evs, attach_all self subparts h = (r, evs) -> Forall P evs.
Proof.
  induction 1 as [| q l Hq _ IH]; intros h r evs; simpl.
  - intros [= <- <-]. constructor.
  - unfold bind. destruct (self q h) as [[child | e] evs1] eqn:H1.
    + destruct (attach_all self l (h ++ evs1)) as [[children | e] evs2] eqn:H2;
        simpl; intros [= <- <-]; rewrite ?app_nil_r;
        apply Forall_app; eauto.
    + intros [= <- <-]. eauto.
Qed.

(** Reconstruction makes no call but attachment fetches for its message. *)
Lemma parse_email_body_events c msg_id message : forall h r evs,
  parse_email_body c msg_id message h = (r, evs) ->
  Forall (fun ev => exists att_id, ev = EvAttachmentGet (emailAddress c) msg_id att_id) evs.
Proof.
  induction message as [mt fn hs b | mt fn hs b subparts IH] using MessagePart_tree_ind;
    intros h r evs; rewrite parse_email_body_unfold; unfold parse_email_body_step.
  - unfold bind, lift, getitem, ret, raise, call. simpl. intros H.
    repeat case_match; simplify_eq; simpl; repeat constructor; eauto.
  - unfold bind at 1. unfold lift.
    destruct (split_mimeType _) as [[mime_type mime_subtype] | e]; [| intros [= <- <-]; constructor].
    rewrite app_nil_r. simpl.
    destruct (String.eqb mime_type "text"); [| destruct (truthy fn)].
    + unfold bind, lift, getitem, ret, raise, call. simpl. intros H.
      repeat case_match; simplify_eq; simpl; repeat constructor; eauto.
    + unfold bind, lift, getitem, ret, raise, call. simpl. intros H.
      repeat case_match; simplify_eq; simpl; repeat constructor; eauto.
    + unfold bind, ret.
      destruct (attach_all _ subparts h) as [[children | e] evs1] eqn:Ha;
        intros [= <- <-]; rewrite ?app_nil_r;
        revert Ha; apply attach_all_events; exact IH.
Qed.

Section Cycle.

Variable as_string : MIMEMultipart -> result lib_exn string.

(** *** What each piece of the cycle does, call by call *)

Lemma forward_one_run c account rule unread_email h :
  forward_one as_string c account rule unread_email h
  = match headers (payload unread_email) with
    | None => (Err TypeError_not_iterable, [])
    | Some hs =>
      match parse_email_body c (message_id unread_email) (payload unread_email) h with
      | (Err e, evs) => (Err e, evs)
      | (Ok _part, evs) =>
        match rule with
        | None => (Err (AttributeError_NoneType "get"), evs)
        | Some r =>
          let subject := get_subject hs "" in
          let message := build_message account r unread_email subject _part in
          match as_string message with
          | Err e => (Err (Raised e), evs)
          | Ok serialized =>
            let reply := build_reply serialized unread_email in
            match messages_send c (h ++ evs) reply with
            | Err e => (Err (Raised e), evs ++ [EvSend (emailAddress c) reply false])
            | Ok _ =>
              (Ok (message_id unread_email),
               evs ++ [EvSend (emailAddress c) reply true;
                       EvPrint (PrintReplied account (message_get "to" message) subject)])
            end
          end
        end
      end
    end.
Proof.
  unfold forward_one, iterate.
  destruct (headers (payload unread_email)) as [hs |]; [| reflexivity].
  rewrite bind_ret. unfold bind at 1.
  destruct (parse_email_body _ _ _ h) as [[_part | e] evs]; [| reflexivity].
  destruct rule as [r |]; [| simpl; rewrite app_nil_r; reflexivity].
  rewrite bind_ret. simpl.
  destruct (as_string _) as [serialized | e]; [| simpl; rewrite app_nil_r; reflexivity].
  rewrite (bind_lift_Ok _ _ _ _ eq_refl).
  unfold bind, send, emit, ret.
  destruct (messages_send _ _ _) as [u | e]; simpl; reflexivity.
Qed.

Lemma forward_loop_fetch_error c account rule exception rest processed_ids h :
  forward_loop as_string c account rule (Err exception :: rest) processed_ids h
  = (let (r, evs) := forward_loop as_string c account rule rest processed_ids
                       (h ++ [EvPrint (PrintError exception)]) in
     (r, EvPrint (PrintError exception) :: evs)).
Proof. reflexivity. Qed.

Lemma forward_loop_message c account rule unread_email rest processed_ids h :
  forward_loop as_string c account rule (Ok unread_email :: rest) processed_ids h
  = match forward_one as_string c account rule unread_email h with
    | (Ok sent, evs) =>
      let (r, evs') := forward_loop as_string c account rule rest
                         (processed_ids ++ [sent]) (h ++ evs) in
      (r, evs ++ evs')
    | (Err e, evs) =>
      if is_RuntimeError e
      then let (r, evs') := forward_loop as_string c account rule rest
                              processed_ids (h ++ evs) in
           (r, evs ++ evs')
      else (Err e, evs)
    end.
Proof.
  simpl. unfold bind at 1. unfold try_except. unfold bind at 1.
  destruct (forward_one _ _ _ _ _ h) as [[sent | e] evs]; simpl.
  - rewrite !app_nil_r. reflexivity.
  - destruct (is_RuntimeError e); simpl; [| reflexivity].
    rewrite !app_nil_r. reflexivity.
Qed.

Lemma apply_forwarding_rule_try_run c account rule h :
  let user := emailAddress c in
  apply_forwarding_rule_try as_string c account rule h
  = match messages_list c h with
    | Err e => (Err (Raised e), [EvList user])
    | Ok listed =>
      let ids := map fst (default [] (messages listed)) in
      let started := [EvList user; EvBatchGet user ids] in
      match messages_batch_get c (h ++ [EvList user]) ids with
      | Err e => (Err (Raised e), started)
      | Ok unread_emails =>
        match forward_loop as_string c account rule unread_emails [] (h ++ started) with
        | (Err e, evs) => (Err e, started ++ evs)
        | (Ok processed_ids, evs) =>
          (match messages_batch_modify c (h ++ started ++ evs) processed_ids with
           | Ok _ => Ok tt
           | Err e => Err (Raised e)
           end,
           started ++ evs ++ [EvBatchModify user processed_ids])
        end
      end
    end.
Proof.
  unfold apply_forwarding_rule_try, bind, call. simpl.
  destruct (messages_list c h) as [listed | e]; [| reflexivity].
  destruct (messages_batch_get c _ _) as [unread_emails | e]; [| reflexivity].
  rewrite <- !app_assoc. simpl.
  destruct (forward_loop _ _ _ _ _ _ _) as [[processed_ids | e] evs]; [| reflexivity].
  rewrite <- !app_assoc. simpl.
  destruct (messages_batch_modify c _ _) as [[] | e]; reflexivity.
Qed.

Lemma apply_forwarding_rule_run c account rule h :
  apply_forwarding_rule as_string c account rule h
  = match apply_forwarding_rule_try as_string c account rule h with
    | (Ok u, evs) => (Ok u, evs)
    | (Err e, evs) =>
      if is_HttpError e then (Ok tt, evs ++ [EvPrint (PrintOccurred e)]) else (Err e, evs)
    end.
Proof. reflexivity. Qed.

(** *** What one forwarded message adds to the history *)

Lemma forward_one_sent c account rule unread_email h r evs :
  forward_one as_string c account rule unread_email h = (r, evs) ->
  Forall (fun ev => is_modify ev = false) evs
  /\ forall sent, r = Ok sent ->
       sent = message_id unread_email
       /\ exists reply, In (EvSend (emailAddress c) reply true) evs
                        /\ replies_to as_string account reply sent.
Proof.
  rewrite forward_one_run.
  destruct (headers (payload unread_email)) as [hs |];
    [| intros [= <- <-]; split; [constructor | discriminate]].
  destruct (parse_email_body _ _ _ h) as [[_part | e] evs_p] eqn:Hp;
    pose proof (parse_email_body_events _ _ _ _ _ _ Hp) as Hev;
    assert (Forall (fun ev => is_modify ev = false) evs_p) as Hnm
      by (eapply Forall_impl; [exact Hev |]; intros ev [a ->]; reflexivity);
    [| intros [= <- <-]; split; [exact Hnm | discriminate]].
  destruct rule as [rule |]; [| intros [= <- <-]; split; [exact Hnm | discriminate]].
  simpl. destruct (as_string _) as [serialized | e] eqn:Hser;
    [| intros [= <- <-]; split; [exact Hnm | discriminate]].
  destruct (messages_send _ _ _) as [u | e]; intros [= <- <-].
  - split.
    + apply Forall_app. split; [exact Hnm |]. repeat constructor.
    + intros sent [= <-]. split; [reflexivity |].
      eexists. split.
      * apply in_or_app. right. left. reflexivity.
      * eexists rule, unread_email, _, _part, serialized.
        split; [reflexivity |]. split; [exact Hser | reflexivity].
  - split; [| discriminate].
    apply Forall_app. split; [exact Hnm |]. repeat constructor.
Qed.

Lemma forward_loop_sent c account rule unread_emails : forall processed_ids h r evs,
  forward_loop as_string c account rule unread_emails processed_ids h = (r, evs) ->
  Forall (fun ev => is_modify ev = false) evs
  /\ forall processed, r = Ok processed ->
       exists appended,
         processed = processed_ids ++ appended
         /\ forall i, In i appended ->
              exists reply, In (EvSend (emailAddress c) reply true) evs
                            /\ replies_to as_string account reply i.
Proof.
  induction unread_emails as [| [unread_email | exception] rest IH];
    intros processed_ids h r evs.
  - intros [= <- <-]. split; [constructor |].
    intros processed [= <-]. exists []. rewrite app_nil_r. split; [reflexivity | contradiction].
  - rewrite forward_loop_message.
    destruct (forward_one _ _ _ _ _ h) as [[sent | e] evs1] eqn:H1;
      apply forward_one_sent in H1 as [Hnm Hsent].
    + destruct (forward_loop _ _ _ _ rest _ _) as [r2 evs2] eqn:H2.
      apply IH in H2 as [Hnm2 Hrest]. intros [= <- <-]. split.
      * apply Forall_app. auto.
      * intros processed Hr. destruct (Hrest _ Hr) as (appended & -> & Happ).
        destruct (Hsent _ eq_refl) as (_ & reply & Hin & Hrep).
        exists (sent :: appended). rewrite <- app_assoc. split; [reflexivity |].
        intros i [<- | Hi].
        -- exists reply. split; [apply in_or_app; auto | exact Hrep].
        -- destruct (Happ _ Hi) as (reply' & Hin' & Hrep').
           exists reply'. split; [apply in_or_app; auto | exact Hrep'].
    + destruct (is_RuntimeError e).
      * destruct (forward_loop _ _ _ _ rest _ _) as [r2 evs2] eqn:H2.
        apply IH in H2 as [Hnm2 Hrest]. intros [= <- <-]. split.
        -- apply Forall_app. auto.
        -- intros processed Hr. destruct (Hrest _ Hr) as (appended & -> & Happ).
           exists appended. split; [reflexivity |].
           intros i Hi. destruct (Happ _ Hi) as (reply' & Hin' & Hrep').
           exists reply'. split; [apply in_or_app; auto | exact Hrep'].
      * intros [= <- <-]. split; [exact Hnm | discriminate].
  - rewrite forward_loop_fetch_error.
    destruct (forward_loop _ _ _ _ rest _ _) as [r2 evs2] eqn:H2.
    apply IH in H2 as [Hnm2 Hrest]. intros [= <- <-]. split.
    + constructor; [reflexivity | exact Hnm2].
    + intros processed Hr. destruct (Hrest _ Hr) as (appended & -> & Happ).
      exists appended. split; [reflexivity |].
      intros i Hi. destruct (Happ _ Hi) as (reply' & Hin' & Hrep').
      exists reply'. split; [right; exact Hin' | exact Hrep'].
Qed.

Lemma modify_split_unique (first : list event) : forall last pre post ev ev',
  Forall (fun ev => is_modify ev = false) first ->
  Forall (fun ev => is_modify ev = false) last ->
  is_modify ev' = true ->
  first ++ ev :: last = pre ++ ev' :: post ->
  pre = first /\ ev' = ev /\ post = last.
Proof.
  induction first as [| a first IH]; intros last pre post ev ev' Hf Hl Hm;
    destruct pre as [| b pre]; simpl; intros [= ].
  - subst. auto.
  - subst. rewrite Forall_app in Hl. destruct Hl as [_ Hl].
    inversion Hl; subst. congruence.
  - subst. inversion Hf; subst. congruence.
  - subst. inversion Hf; subst.
    destruct (IH _ _ _ _ _ ltac:(assumption) Hl Hm ltac:(eassumption)) as (-> & -> & ->).
    auto.
Qed.

(** ** C5: acknowledgment only after the sends, and only of what was sent *)

(** C5. Whenever the events of one cycle contain a label-removal batch, no
    such batch comes before it, nothing is sent and no further batch is
    issued after it, and each id in it is the id of a message whose send call,
    made earlier in the same cycle, returned. *)
Theorem acknowledgment_after_sends c account rule h r evs pre user ids post :
  apply_forwarding_rule as_string c account rule h = (r, evs) ->
  evs = pre ++ EvBatchModify user ids :: post ->
  Forall (fun ev => is_modify ev = false) pre
  /\ Forall (fun ev => is_modify ev = false /\ is_send ev = false) post
  /\ forall i, In i ids ->
       exists reply, In (EvSend (emailAddress c) reply true) pre
                     /\ replies_to as_string account reply i.
Proof.
  rewrite apply_forwarding_rule_run.
  pose proof (apply_forwarding_rule_try_run c account rule h) as Hrun. simpl in Hrun.
  rewrite Hrun. clear Hrun.
  assert (forall l : list event, Forall (fun ev => is_modify ev = false) l ->
            l <> pre ++ EvBatchModify user ids :: post) as Hnone.
  { intros l Hl ->. rewrite Forall_app in Hl. destruct Hl as [_ Hl].
    inversion Hl; subst. discriminate. }
  destruct (messages_list c h) as [listed | e].
  2:{ simpl. destruct e; intros [= <- <-] Hsplit; exfalso;
      (eapply Hnone; [| exact Hsplit]); repeat constructor. }
  destruct (messages_batch_get c _ _) as [unread_emails | e].
  2:{ simpl. destruct e; intros [= <- <-] Hsplit; exfalso;
      (eapply Hnone; [| exact Hsplit]); repeat constructor. }
  destruct (forward_loop _ _ _ _ _ _ _) as [[processed_ids | e] evs_loop] eqn:Hloop;
    apply forward_loop_sent in Hloop as [Hnm Hsent].
  2:{ destruct (is_HttpError e); intros [= <- <-] Hsplit; exfalso;
      (eapply Hnone; [| exact Hsplit]); simpl; repeat constructor;
      rewrite ?Forall_app; repeat constructor; auto. }
  destruct (Hsent _ eq_refl) as (appended & Heq & Happ). simpl in Heq. subst appended.
  set (started := [EvList (emailAddress c);
                   EvBatchGet (emailAddress c) (map fst (default [] (messages listed)))]).
  assert (Forall (fun ev => is_modify ev = false) (started ++ evs_loop)) as Hfirst.
  { apply Forall_app. split; [repeat constructor | exact Hnm]. }
  assert (forall last, Forall (fun ev => is_modify ev = false /\ is_send ev = false) last ->
            (started ++ evs_loop) ++ EvBatchModify (emailAddress c) processed_ids :: last
            = pre ++ EvBatchModify user ids :: post ->
            Forall (fun ev => is_modify ev = false) pre
            /\ Forall (fun ev => is_modify ev = false /\ is_send ev = false) post
            /\ forall i, In i ids ->
                 exists reply, In (EvSend (emailAddress c) reply true) pre
                               /\ replies_to as_string account reply i) as Hgoal.
  { intros last Hlast Hsplit.
    apply modify_split_unique in Hsplit as (-> & [= -> ->] & ->);
      [| exact Hfirst | eapply Forall_impl; [exact Hlast |]; intros ev [H _]; exact H
       | reflexivity].
    split; [exact Hfirst |]. split; [exact Hlast |].
    intros i Hi. destruct (Happ _ Hi) as (reply & Hin & Hrep).
    exists reply. split; [apply in_or_app; right; exact Hin | exact Hrep]. }
  destruct (messages_batch_modify c _ _) as [u | e].
  - intros [= <- <-] Hsplit. apply (Hgoal []); [constructor |].
    rewrite <- Hsplit. rewrite <- !app_assoc. reflexivity.
  - simpl. destruct e; intros [= <- <-] Hsplit.
    + apply (Hgoal [EvPrint (PrintOccurred (Raised (HttpError status)))]);
        [repeat constructor |].
      rewrite <- Hsplit. rewrite <- !app_assoc. reflexivity.
    + apply (Hgoal []); [constructor |].
      rewrite <- Hsplit. rewrite <- !app_assoc. reflexivity.
    + apply (Hgoal []); [constructor |].
      rewrite <- Hsplit. rewrite <- !app_assoc. reflexivity.
Qed.

(** ** C8: the outbound message *)

Lemma get_subject_app before after subject :
  get_subject (before ++ after) subject = get_subject after (get_subject before subject).
Proof.
  revert subject. induction before as [| [name value] before IH]; intros subject; simpl;
    [reflexivity | apply IH].
Qed.

Lemma get_subject_absent hs subject :
  (forall value, ~ In ("Subject", value) hs) -> get_subject hs subject = subject.
Proof.
  revert subject. induction hs as [| [name value] hs IH]; intros subject Hno; simpl;
    [reflexivity |].
  destruct (String.eqb_spec name "Subject") as [-> | Hne].
  - exfalso. apply (Hno value). left. reflexivity.
  - apply IH. intros v Hv. apply (Hno v). right. exact Hv.
Qed.

(** C8. For a fetched message whose header list is present, whose body is
    reconstructed and whose reply is serialized, the reply carries the
    account as from, the rule's to address as to, the rule's cc addresses
    joined with commas as cc, the id of the original as In-Reply-To and as
    References, and as subject the value of the last Subject header of the
    original, the empty string when it has none; and the first call made
    after the reconstruction is the send of the URL-safe base64 encoding of
    the serialized reply together with the threadId of the original. *)
Theorem forward_one_outbound c account rule unread_email h hs _part evs serialized :
  headers (payload unread_email) = Some hs ->
  parse_email_body c (message_id unread_email) (payload unread_email) h = (Ok _part, evs) ->
  as_string (build_message account rule unread_email (get_subject hs "") _part)
  = Ok serialized ->
  let message := build_message account rule unread_email (get_subject hs "") _part in
  (message_get "from" message = Some account
   /\ message_get "to" message = Some (to rule)
   /\ message_get "cc" message = Some (join "," (cc rule))
   /\ message_get "In-Reply-To" message = Some (message_id unread_email)
   /\ message_get "References" message = Some (message_id unread_email)
   /\ message_get "subject" message = Some (get_subject hs "")
   /\ mm_attached message = [_part])
  /\ ((forall value, ~ In ("Subject", value) hs) -> get_subject hs "" = "")
  /\ (forall before value after,
        hs = before ++ ("Subject", value) :: after ->
        (forall v, ~ In ("Subject", v) after) ->
        get_subject hs "" = value)
  /\ exists returned r tail,
       forward_one as_string c account (Some rule) unread_email h
       = (r, evs ++ EvSend (emailAddress c)
                      {| raw := string_of_list_byte
                                  (urlsafe_b64encode (encode_utf8 serialized));
                         reply_threadId := threadId unread_email |}
                      returned :: tail)
       /\ Forall (fun ev => is_send ev = false) evs
       /\ Forall (fun ev => is_send ev = false) tail
       /\ (returned = true <-> r = Ok (message_id unread_email)).
Proof.
  intros Hhs Hp Hser message. split; [| split; [| split]].
  - repeat split; reflexivity.
  - apply get_subject_absent.
  - intros before value after -> Hafter.
    rewrite get_subject_app. simpl.
    apply get_subject_absent. exact Hafter.
  - rewrite forward_one_run, Hhs, Hp. cbv zeta. rewrite Hser.
    assert (Forall (fun ev => is_send ev = false) evs) as Hns.
    { eapply Forall_impl; [exact (parse_email_body_events _ _ _ _ _ _ Hp) |].
      intros ev [a ->]. reflexivity. }
    unfold build_reply.
    destruct (messages_send _ _ _) as [u | e].
    + exists true. eexists. eexists. split; [reflexivity |].
      split; [exact Hns |]. split; [repeat constructor |]. split; reflexivity.
    + exists false. eexists. exists []. split; [reflexivity |].
      split; [exact Hns |]. split; [constructor |]. split; discriminate.
Qed.

(** ** C1: what a reconstruction failure does to the cycle *)

(** The only reconstruction failures [except RuntimeError] catches are
    exceptions raised inside the attachment fetch. *)
Lemma parse_email_body_RuntimeError c msg_id message h e evs :
  parse_email_body c msg_id message h = (Err e, evs) ->
  is_RuntimeError e = true -> exists msg, e = Raised (LibRuntimeError msg).
Proof.
  intros H. revert H.
  apply (parse_email_body_raises
           (fun e => is_RuntimeError e = true -> exists msg, e = Raised (LibRuntimeError msg))
           (fun _ => true)); try discriminate.
  - intros [status | msg | cls]; try discriminate. eauto.
  - intros q e' _ He'%split_mimeType_Err_split Hr. destruct e'; discriminate.
  - apply every_part_true.
Qed.

(** A reconstruction failure that is not a [RuntimeError] leaves the loop:
    the messages after it are not processed and no list of processed ids is
    returned. *)
Lemma reconstruction_error_escapes c account rule unread_email rest processed_ids h hs e evs :
  headers (payload unread_email) = Some hs ->
  parse_email_body c (message_id unread_email) (payload unread_email) h = (Err e, evs) ->
  is_RuntimeError e = false ->
  forward_loop as_string c account rule (Ok unread_email :: rest) processed_ids h
  = (Err e, evs).
Proof.
  intros Hhs Hp He. rewrite forward_loop_message, forward_one_run, Hhs, Hp, He. reflexivity.
Qed.

(** ** C7: a fatal error in one account's cycle *)





(** The three calls whose failure is fatal to the cycle. *)
Lemma listing_failure c account rule h le :
  messages_list c h = Err le ->
  apply_forwarding_rule_try as_string c account rule h
  = (Err (Raised le), [EvList (emailAddress c)]).
Proof.
  intros H. pose proof (apply_forwarding_rule_try_run c account rule h) as Hrun.
  simpl in Hrun. rewrite Hrun, H. reflexivity.
Qed.

Lemma batch_fetch_failure c account rule h listed le :
  messages_list c h = Ok listed ->
  messages_batch_get c (h ++ [EvList (emailAddress c)])
    (map fst (default [] (messages listed))) = Err le ->
  apply_forwarding_rule_try as_string c account rule h
  = (Err (Raised le),
     [EvList (emailAddress c);
      EvBatchGet (emailAddress c) (map fst (default [] (messages listed)))]).
Proof.
  intros Hl Hb. pose proof (apply_forwarding_rule_try_run c account rule h) as Hrun.
  simpl in Hrun. rewrite Hrun, Hl, Hb. reflexivity.
Qed.

Lemma batch_modify_failure c account rule h listed unread_emails processed_ids evs le :
  let user := emailAddress c in
  let ids := map fst (default [] (messages listed)) in
  messages_list c h = Ok listed ->
  messages_batch_get c (h ++ [EvList user]) ids = Ok unread_emails ->
  forward_loop as_string c account rule unread_emails []
    (h ++ [EvList user; EvBatchGet user ids]) = (Ok processed_ids, evs) ->
  messages_batch_modify c (h ++ [EvList user; EvBatchGet user ids] ++ evs) processed_ids
  = Err le ->
  apply_forwarding_rule_try as_string c account rule h
  = (Err (Raised le),
     [EvList user; EvBatchGet user ids] ++ evs ++ [EvBatchModify user processed_ids]).
Proof.
  intros user ids Hl Hb Hloop Hm. subst user ids.
  pose proof (apply_forwarding_rule_try_run c account rule h) as Hrun.
  cbv zeta in Hrun. rewrite Hrun, Hl, Hb, Hloop, Hm. reflexivity.
Qed.


End Cycle.

(** *** The cycle on sample mailboxes *)

Lemma acknowledgment_after_sends_witness :
  snd sample_cycle
  = firstn 7 (snd sample_cycle)
    ++ EvBatchModify "relay@example.com" ["m1"; "m3"] :: skipn 8 (snd sample_cycle)
  /\ Forall (fun ev => is_modify ev = false) (firstn 7 (snd sample_cycle))
  /\ Forall (fun ev => is_modify ev = false /\ is_send ev = false)
       (skipn 8 (snd sample_cycle))
  /\ forall i, In i ["m1"; "m3"] ->
       exists reply,
         In (EvSend "relay@example.com" reply true) (firstn 7 (snd sample_cycle))
         /\ replies_to as_string_headers "relay@example.com" reply i.
Proof.
  assert (snd sample_cycle
          = firstn 7 (snd sample_cycle)
            ++ EvBatchModify "relay@example.com" ["m1"; "m3"]
               :: skipn 8 (snd sample_cycle)) as Hsplit
    by (vm_compute; reflexivity).
  split; [exact Hsplit |].
  apply (acknowledgment_after_sends as_string_headers sample_mailbox "relay@example.com"
           (Some sample_rule) [] (fst sample_cycle) (snd sample_cycle)
           (firstn 7 (snd sample_cycle)) "relay@example.com" ["m1"; "m3"]
           (skipn 8 (snd sample_cycle))).
  - apply surjective_pairing.
  - exact Hsplit.
Defined.

Lemma forward_one_outbound_witness :
  headers (payload (fetched "m1" "first" text_hello))
  = Some [("From", "someone@example.org"); ("Subject", "first")]
  /\ parse_email_body sample_mailbox "m1" (payload (fetched "m1" "first" text_hello)) []
     = (Ok (MIMEText "hello" "plain"), [])
  /\ exists serialized,
       as_string_headers
         (build_message "relay@example.com" sample_rule (fetched "m1" "first" text_hello)
            "first" (MIMEText "hello" "plain")) = Ok serialized
       /\ exists returned r tail,
            forward_one as_string_headers sample_mailbox "relay@example.com"
              (Some sample_rule) (fetched "m1" "first" text_hello) []
            = (r, [] ++ EvSend "relay@example.com"
                          {| raw := string_of_list_byte
                                      (urlsafe_b64encode (encode_utf8 serialized));
                             reply_threadId := "thread-m1" |}
                          returned :: tail)
            /\ Forall (fun ev => is_send ev = false) []
            /\ Forall (fun ev => is_send ev = false) tail
            /\ (returned = true <-> r = Ok "m1").
Proof.
  split; [reflexivity |]. split; [reflexivity |].
  eexists. split; [reflexivity |].
  apply (forward_one_outbound as_string_headers sample_mailbox "relay@example.com"
           sample_rule (fetched "m1" "first" text_hello) []
           [("From", "someone@example.org"); ("Subject", "first")]
           (MIMEText "hello" "plain") [] _ eq_refl eq_refl eq_refl).
Defined.



(** C1, on the code. With three unread messages of which the second holds a
    text payload that is not valid base64, the first message is sent, the
    [binascii.Error] of the second is caught neither by [except RuntimeError]
    nor by [except HttpError] and leaves [apply_forwarding_rule]: the third
    message is never processed, no label is removed (not even that of the
    message already sent), and [main] stops on the exception. *)
Theorem decode_error_aborts_cycle :
  parse_email_body (mailbox "relay@example.com" three_unread) "m2"
    (payload (fetched "m2" "second" text_bad_base64)) []
  = (Err binascii_Error, [])
  /\ is_RuntimeError binascii_Error = false
  /\ is_HttpError binascii_Error = false
  /\ (exists serialized,
        as_string_headers
          (build_message "relay@example.com" sample_rule (fetched "m1" "first" text_hello)
             "first" (MIMEText "hello" "plain")) = Ok serialized
        /\ apply_forwarding_rule as_string_headers (mailbox "relay@example.com" three_unread)
             "relay@example.com" (Some sample_rule) []
           = (Err binascii_Error,
              [EvList "relay@example.com";
               EvBatchGet "relay@example.com" ["m1"; "m2"; "m3"];
               EvSend "relay@example.com"
                 (build_reply serialized (fetched "m1" "first" text_hello)) true;
               EvPrint (PrintReplied "relay@example.com" (Some "team@example.com")
                          "first")]))
  /\ (sched_phase <$> step as_string_headers (clock_at 12 0) sample_lists
                        [("relay@example.com", mailbox "relay@example.com" three_unread)]
                        (main_start (clock_at 12 0) []))
     = Some (Crashed binascii_Error).
Proof.
  split; [reflexivity |]. split; [reflexivity |]. split; [reflexivity |].
  split.
  - eexists. split; [reflexivity |]. vm_compute. reflexivity.
  - vm_compute. reflexivity.
Qed.

(** ** C6: the scheduler at the edge of the cutoff window *)

Section Scheduler.

Variable as_string : MIMEMultipart -> result lib_exn string.
Variable now : list event -> Z * Z.
Variable email_lists : gmap string email_list.
Variable clients : list (string * Client).

Lemma cutoff_spec dtime : cutoff dtime = true <-> fst dtime = 23%Z /\ (55 <= snd dtime)%Z.
Proof.
  unfold cutoff. rewrite andb_true_iff, Z.eqb_eq, Z.leb_le. reflexivity.
Qed.

Lemma step_ticks s s' :
  step as_string now email_lists clients s = Some s' -> ticks s <= ticks s'.
Proof.
  unfold step. destruct (sched_phase s); [| discriminate | discriminate].
  destruct (cutoff (dtime s)); [intros [= <-]; simpl; lia |].
  destruct (run_clients _ _ _ _) as [[u | e] evs]; intros [= <-]; simpl; lia.
Qed.

Lemma run_ticks fuel : forall s, ticks s <= ticks (run as_string now fuel email_lists clients s).
Proof.
  induction fuel as [| fuel IH]; intros s; simpl; [lia |].
  destruct (step _ _ _ _ s) as [s' |] eqn:Hs; [| lia].
  apply step_ticks in Hs. specialize (IH s'). lia.
Qed.

Lemma run_terminal fuel s :
  step as_string now email_lists clients s = None ->
  run as_string now fuel email_lists clients s = s.
Proof. intros Hs. destruct fuel; simpl; [| rewrite Hs]; reflexivity. Qed.

Lemma steps_terminal s s' :
  step as_string now email_lists clients s = None ->
  sched_steps as_string now email_lists clients s s' -> s' = s.
Proof.
  intros Hs Hsteps. destruct Hsteps as [| s s' s'' Hstep _]; [reflexivity |].
  unfold sched_step in Hstep. congruence.
Qed.

(** C6. From the test of the [while] with [dtime] at 23:54, the loop body
    runs: the sampled time is read again, every client's cycle is run from
    there, and however long [main] is then followed the number of ticks has
    grown. With [dtime] at hour 23 and minute 55 or later, the only step
    leads to [Stopped] with the same number of ticks and the same history,
    and nothing follows. No step leaves [Stopped]. *)
Theorem scheduler_boundary s :
  sched_phase s = Running ->
  (dtime s = (23, 54)%Z ->
     (exists s' r evs,
        sched_step as_string now email_lists clients s s'
        /\ ticks s' = S (ticks s)
        /\ dtime s' = now (history s)
        /\ run_clients as_string email_lists clients
             (history s ++ [EvNow (fst (now (history s))) (snd (now (history s)))])
           = (r, evs)
        /\ history s'
           = history s ++ EvNow (fst (now (history s))) (snd (now (history s)))
                          :: evs ++ match r with Ok _ => [EvSleep 5] | Err _ => [] end)
     /\ forall fuel, ticks s < ticks (run as_string now (S fuel) email_lists clients s))
  /\ (fst (dtime s) = 23%Z -> (55 <= snd (dtime s))%Z ->
      let stopped := {| sched_phase := Stopped; dtime := dtime s; ticks := ticks s;
                        history := history s |} in
      sched_step as_string now email_lists clients s stopped
      /\ (forall fuel, run as_string now (S fuel) email_lists clients s = stopped)
      /\ (forall s', sched_steps as_string now email_lists clients stopped s' ->
                     s' = stopped))
  /\ (forall t, sched_phase t = Stopped ->
      forall t', ~ sched_step as_string now email_lists clients t t').
Proof.
  intros Hrun. split; [| split].
  - intros Hd.
    assert (exists s' r evs,
        step as_string now email_lists clients s = Some s'
        /\ ticks s' = S (ticks s)
        /\ dtime s' = now (history s)
        /\ run_clients as_string email_lists clients
             (history s ++ [EvNow (fst (now (history s))) (snd (now (history s)))])
           = (r, evs)
        /\ history s'
           = history s ++ EvNow (fst (now (history s))) (snd (now (history s)))
                          :: evs ++ match r with Ok _ => [EvSleep 5] | Err _ => [] end) as Hstep.
    { unfold step. rewrite Hrun, Hd. simpl.
      destruct (run_clients _ _ _ _) as [[u | e] evs] eqn:Hc.
      - eexists _, (Ok u), evs. repeat split. simpl. rewrite <- app_assoc. reflexivity.
      - eexists _, (Err e), evs. repeat split. simpl.
        rewrite app_nil_r, <- app_assoc. reflexivity. }
    split; [exact Hstep |].
    intros fuel. destruct Hstep as (s' & r & evs & Hs & Ht & _). simpl. rewrite Hs.
    pose proof (run_ticks fuel s'). lia.
  - intros Hh Hm stopped.
    assert (step as_string now email_lists clients s = Some stopped) as Hs.
    { unfold step. rewrite Hrun, (proj2 (cutoff_spec (dtime s)) (conj Hh Hm)). reflexivity. }
    split; [exact Hs |]. split.
    + intros fuel. simpl. rewrite Hs. apply run_terminal. reflexivity.
    + intros s'. apply steps_terminal. reflexivity.
  - intros t Ht t'. unfold sched_step, step. rewrite Ht. discriminate.
Qed.

End Scheduler.

Lemma scheduler_boundary_witness :
  sched_phase (main_start (clock_at 23 54) []) = Running
  /\ (forall fuel,
       0 < ticks (run as_string_headers (clock_at 23 54) (S fuel) sample_lists sample_clients
                    (main_start (clock_at 23 54) [])))
  /\ (forall fuel,
       run as_string_headers (clock_at 23 55) (S fuel) sample_lists sample_clients
         (main_start (clock_at 23 55) [])
       = {| sched_phase := Stopped; dtime := (23, 55)%Z; ticks := 0;
            history := [EvNow 23 55] |}).
Proof.
  split; [reflexivity |]. split.
  - apply (proj2 (proj1 (scheduler_boundary as_string_headers (clock_at 23 54) sample_lists
                           sample_clients (main_start (clock_at 23 54) []) eq_refl)
                    eq_refl)).
  - apply (proj1 (proj2 (proj1 (proj2 (scheduler_boundary as_string_headers (clock_at 23 55)
                                         sample_lists sample_clients
                                         (main_start (clock_at 23 55) []) eq_refl))
                           eq_refl ltac:(simpl; lia)))).
Defined.

(** ** C3: the rule loader keeps what it reports as invalid *)

Lemma parse_files_ignores_validation fs parseaddr1 parseaddr2 files : forall email_lists,
  fst (parse_files fs parseaddr1 files email_lists)
  = fst (parse_files fs parseaddr2 files email_lists).
Proof.
  induction files as [| file rest IH]; intros email_lists; simpl; [reflexivity |].
  destruct (readlines fs (list_path file)) as [content | le]; [| reflexivity].
  destruct (headers_ok (map strip content)) as [[|] | e]; [| | reflexivity].
  - destruct (index (map strip content) 1) as [account | e]; [| reflexivity].
    destruct (index (map strip content) 3) as [to_address | e]; [| reflexivity].
    specialize (IH (<[account := {| to := to_address;
                                    cc := drop 5 (map strip content) |}]> email_lists)).
    destruct (parse_files fs parseaddr1 rest _), (parse_files fs parseaddr2 rest _). exact IH.
  - specialize (IH email_lists).
    destruct (parse_files fs parseaddr1 rest _), (parse_files fs parseaddr2 rest _). exact IH.
Qed.

(** C3, on the code. Whatever [parseaddr] answers, a file with well-formed
    section headers puts its account in the returned mapping; on a file whose
    TO address is empty the loader logs "Invalid email! ... Skipping this
    email list." and still returns the rule, with the empty address. *)
Theorem parse_keeps_invalid_rule :
  (forall parseaddr,
     fst (parse (directory [file_empty_to]) parseaddr)
     = Ok {[ "relay@example.com" := {| to := ""; cc := [] |} ]})
  /\ validate_email parseaddr_bare "" = false
  /\ snd (parse (directory [file_empty_to]) parseaddr_bare) = [LogEmailInvalid ""].
Proof.
  split; [| split]; [| reflexivity | reflexivity].
  intros parseaddr. unfold parse. simpl listdir. cbv iota.
  rewrite (parse_files_ignores_validation _ parseaddr parseaddr_bare). reflexivity.
Qed.

(** A file that ends before the lines the header test reads raises
    [IndexError]: the loader stops instead of going on with the next file. *)
Lemma parse_short_file_raises parseaddr :
  parse (directory [file_short; file_empty_to]) parseaddr = (Err IndexError, []).
Proof. reflexivity. Qed.

(** * Further properties *)

(** ** Base64: what is encoded decodes to itself *)

Lemma forall_below_spec n check :
  forall_below n check = true -> forall k, (k < N.of_nat n)%N -> check k = true.
Proof.
  induction n as [| n IH]; simpl; intros H k Hk; [lia |].
  apply andb_prop in H as [Hn Hrest].
  destruct (N.eq_dec k (N.of_nat n)) as [-> | Hne]; [exact Hn |].
  apply IH; [exact Hrest | lia].
Qed.

Lemma sextet_char_decodes v :
  (v < 64)%N ->
  N.eqb (sextet_char v) BASE64_PAD = false /\ table_a2b_base64 (sextet_char v) = Some v.
Proof.
  intros Hv.
  assert (forall_below 64
            (fun v => negb (N.eqb (sextet_char v) BASE64_PAD)
                      && match table_a2b_base64 (sextet_char v) with
                         | Some w => N.eqb w v
                         | None => false
                         end) = true) as Hall by (vm_compute; reflexivity).
  apply (forall_below_spec 64 _ Hall) in Hv.
  apply andb_prop in Hv as [Hpad Htab]. split.
  - apply negb_true_iff. exact Hpad.
  - destruct (table_a2b_base64 (sextet_char v)) as [w |]; [| discriminate].
    apply N.eqb_eq in Htab. congruence.
Qed.

Lemma sextet_char_ascii v : (v < 64)%N -> (sextet_char v < 128)%N.
Proof.
  intros Hv.
  assert (forall_below 64 (fun v => N.ltb (sextet_char v) 128) = true) as Hall
    by (vm_compute; reflexivity).
  apply N.ltb_lt. exact (forall_below_spec 64 _ Hall v Hv).
Qed.

Lemma sextets_rejoin_bytes x y : sextets_rejoin (code x) (code y) = true.
Proof.
  assert (forall_below 256 (fun x => forall_below 256 (fun y => sextets_rejoin x y)) = true)
    as Hall by (vm_compute; reflexivity).
  pose proof (Byte.to_N_bounded x) as Hx. pose proof (Byte.to_N_bounded y) as Hy.
  unfold code.
  apply (forall_below_spec 256 _ (forall_below_spec 256 _ Hall (Byte.to_N x) ltac:(lia))).
  lia.
Qed.

Lemma byte_of_code_code b : byte_of_code (code b) = b.
Proof.
  unfold byte_of_code, code. pose proof (Byte.to_N_bounded b).
  rewrite N.mod_small by lia. rewrite Byte.of_to_N. reflexivity.
Qed.

Lemma code_byte_of_code n : (n < 256)%N -> code (byte_of_code n) = n.
Proof.
  intros Hn. unfold byte_of_code, code. rewrite N.mod_small by lia.
  destruct (Byte.of_N n) as [b |] eqn:Hb.
  - apply Byte.to_of_N. exact Hb.
  - apply Byte.of_N_None_iff in Hb. lia.
Qed.

Lemma list_ind3 {A} (P : list A -> Prop) :
  P [] -> (forall a, P [a]) -> (forall a b, P [a; b]) ->
  (forall a b c l, P l -> P (a :: b :: c :: l)) ->
  forall l, P l.
Proof.
  intros H0 H1 H2 H3. fix IH 1.
  intros [| a [| b [| c l]]]; [exact H0 | apply H1 | apply H2 | apply H3; apply IH].
Qed.

Lemma a2b_base64_loop_sextet v rest quad_pos leftchar pads bin_data :
  (v < 64)%N ->
  a2b_base64_loop (sextet_char v :: rest) quad_pos leftchar pads bin_data
  = match quad_pos with
    | 0 => a2b_base64_loop rest 1 v 0 bin_data
    | 1 =>
      a2b_base64_loop rest 2 (N.land v 15) 0
        (bin_data ++ [byte_of_code (N.lor (N.shiftl leftchar 2) (N.shiftr v 4))])
    | 2 =>
      a2b_base64_loop rest 3 (N.land v 3) 0
        (bin_data ++ [byte_of_code (N.lor (N.shiftl leftchar 4) (N.shiftr v 2))])
    | _ =>
      a2b_base64_loop rest 0 0%N 0
        (bin_data ++ [byte_of_code (N.lor (N.shiftl leftchar 6) v)])
    end.
Proof.
  intros Hv. destruct (sextet_char_decodes v Hv) as [Hpad Htab].
  cbn [a2b_base64_loop]. rewrite Hpad, Htab. reflexivity.
Qed.

Ltac rejoin_facts x y :=
  let H := fresh "Hrejoin" in
  pose proof (sextets_rejoin_bytes x y) as H;
  unfold sextets_rejoin in H; cbv zeta in H;
  rewrite !andb_true_iff, !N.ltb_lt, !N.eqb_eq in H;
  repeat match goal with H' : _ /\ _ |- _ => destruct H' end.

(** The decoder, fed what the encoder wrote, appends the bytes encoded. *)
Lemma a2b_base64_loop_b2a_urlsafe bs : forall bin_data,
  a2b_base64_loop (map code (map urlsafe_decode_translation (b2a_urlsafe (map code bs))))
    0 0%N 0 bin_data
  = Ok (bin_data ++ bs).
Proof.
  induction bs as [| a | a b | a b c l IH] using list_ind3; intros bin_data.
  - simpl. rewrite app_nil_r. reflexivity.
  - rejoin_facts a a.
    change (map code (map urlsafe_decode_translation (b2a_urlsafe (map code [a]))))
      with [sextet_char (N.shiftr (code a) 2);
            sextet_char (N.shiftl (N.land (code a) 3) 4);
            BASE64_PAD; BASE64_PAD].
    rewrite !a2b_base64_loop_sextet by assumption.
    cbn [a2b_base64_loop]. simpl.
    repeat match goal with H : _ = _ |- _ => rewrite H end.
    rewrite byte_of_code_code. reflexivity.
  - rejoin_facts a b. rejoin_facts b b.
    change (map code (map urlsafe_decode_translation (b2a_urlsafe (map code [a; b]))))
      with [sextet_char (N.shiftr (code a) 2);
            sextet_char (N.lor (N.shiftl (N.land (code a) 3) 4) (N.shiftr (code b) 4));
            sextet_char (N.shiftl (N.land (code b) 15) 2);
            BASE64_PAD].
    rewrite !a2b_base64_loop_sextet by assumption.
    cbn [a2b_base64_loop]. simpl.
    repeat match goal with H : _ = _ |- _ => rewrite H end.
    rewrite !byte_of_code_code, <- app_assoc. reflexivity.
  - rejoin_facts a b. rejoin_facts b c. rejoin_facts c c.
    change (map code (map urlsafe_decode_translation
                        (b2a_urlsafe (map code (a :: b :: c :: l)))))
      with (sextet_char (N.shiftr (code a) 2)
            :: sextet_char (N.lor (N.shiftl (N.land (code a) 3) 4) (N.shiftr (code b) 4))
            :: sextet_char (N.lor (N.shiftl (N.land (code b) 15) 2) (N.shiftr (code c) 6))
            :: sextet_char (N.land (code c) 63)
            :: map code (map urlsafe_decode_translation (b2a_urlsafe (map code l)))).
    rewrite !a2b_base64_loop_sextet by assumption.
    repeat match goal with H : _ = _ |- _ => rewrite H end.
    rewrite !byte_of_code_code, IH, <- !app_assoc. reflexivity.
Qed.

Lemma urlsafe_b64decode_b64encode bs : urlsafe_b64decode (urlsafe_b64encode bs) = Ok bs.
Proof. apply (a2b_base64_loop_b2a_urlsafe bs []). Qed.

(** ** Reconstruction gives back what was encoded *)

Lemma split_no_slash s : count_slash s = 0 -> split "/" s = [s].
Proof.
  induction s as [| ch s IH]; simpl; [reflexivity |].
  destruct (Ascii.eqb ch "/"); [discriminate |].
  intros H. rewrite (IH H). reflexivity.
Qed.

Lemma split_type_subtype mime_type mime_subtype :
  count_slash mime_type = 0 -> count_slash mime_subtype = 0 ->
  split "/" (mime_type ++ "/" ++ mime_subtype) = [mime_type; mime_subtype].
Proof.
  intros Ht Hs. induction mime_type as [| ch mime_type IH]; simpl.
  - change (split "/" ("" ++ mime_subtype)%string) with (split "/" mime_subtype).
    rewrite (split_no_slash _ Hs). reflexivity.
  - simpl in Ht. destruct (Ascii.eqb ch "/"); [discriminate |].
    rewrite (IH Ht). reflexivity.
Qed.

Lemma table_b2a_urlsafe_ascii v : (code (table_b2a_urlsafe v) < 128)%N.
Proof.
  unfold table_b2a_urlsafe.
  destruct (N.ltb_spec v 26); [rewrite code_byte_of_code; lia |].
  destruct (N.ltb_spec v 52); [rewrite code_byte_of_code; lia |].
  destruct (N.ltb_spec v 62); [rewrite code_byte_of_code; lia |].
  destruct (N.eqb v 62); vm_compute; reflexivity.
Qed.

Lemma b2a_urlsafe_ascii s :
  forallb (fun b => N.ltb (code b) 128) (b2a_urlsafe s) = true.
Proof.
  induction s as [| a | a b | a b c l IH] using list_ind3;
    cbn [b2a_urlsafe forallb app]; rewrite ?andb_true_iff; repeat split;
    try (apply N.ltb_lt; apply table_b2a_urlsafe_ascii); try reflexivity.
  exact IH.
Qed.

Lemma encode_ascii_b64encode bs :
  encode_ascii (string_of_list_byte (urlsafe_b64encode bs)) = Ok (urlsafe_b64encode bs).
Proof.
  unfold encode_ascii. rewrite list_byte_of_string_of_list_byte.
  unfold urlsafe_b64encode. rewrite b2a_urlsafe_ascii. reflexivity.
Qed.

Lemma bind_getitem_Some {A B} key (a : A) (k : A -> M B) h :
  bind (getitem key (Some a)) k h = k a h.
Proof. apply (bind_ret a k h). Qed.

(** X1. A text part whose inline data is the URL-safe base64 encoding of the
    UTF-8 encoding of a text is reconstructed, without any call, into a
    [MIMEText] of the declared subtype holding exactly that text. *)
Theorem parse_email_body_text_round_trip c msg_id message h subtype content b :
  mimeType message = Some ("text/" ++ subtype)%string ->
  count_slash subtype = 0 ->
  body message = Some b ->
  data b = Some (string_of_list_byte (urlsafe_b64encode (encode_utf8 content))) ->
  utf8_valid (map code (encode_utf8 content)) = true ->
  parse_email_body c msg_id message h = (Ok (MIMEText content subtype), []).
Proof.
  intros Hm Hs Hb Hd Hv.
  assert (split_mimeType message = Ok ("text", subtype)) as Hsplit.
  { unfold split_mimeType. rewrite Hm.
    change ("text/" ++ subtype)%string with ("text" ++ "/" ++ subtype)%string.
    rewrite (split_type_subtype "text" subtype eq_refl Hs). reflexivity. }
  rewrite (parse_email_body_text _ _ _ _ _ Hsplit), Hb.
  rewrite bind_getitem_Some, Hd, bind_getitem_Some.
  rewrite (bind_lift_Ok _ _ _ _ (encode_ascii_b64encode _)).
  rewrite (bind_lift_Ok _ _ _ _ (urlsafe_b64decode_b64encode _)).
  unfold decode_utf8. rewrite Hv. unfold encode_utf8.
  rewrite string_of_list_byte_of_string. reflexivity.
Qed.

Lemma parse_email_body_text_round_trip_witness :
  mimeType (text_part "plain" "hello") = Some ("text/" ++ "plain")%string
  /\ count_slash "plain" = 0
  /\ utf8_valid (map code (encode_utf8 "hello")) = true
  /\ parse_email_body offline "m1" (text_part "plain" "hello") []
     = (Ok (MIMEText "hello" "plain"), []).
Proof.
  split; [reflexivity |]. split; [reflexivity |]. split; [reflexivity |].
  apply (parse_email_body_text_round_trip offline "m1" (text_part "plain" "hello") []
           "plain" "hello" _ eq_refl eq_refl eq_refl eq_refl eq_refl).
Defined.

(** X2. An attachment part (a type other than "text", a non-empty file name)
    whose inline data is the URL-safe base64 encoding of some bytes is
    reconstructed, without any call, into an attachment of the declared type
    and subtype carrying exactly those bytes under the original file name. *)
Theorem parse_email_body_attachment_round_trip c msg_id message h
    mime_type mime_subtype name b content :
  mimeType message = Some (mime_type ++ "/" ++ mime_subtype)%string ->
  count_slash mime_type = 0 -> count_slash mime_subtype = 0 ->
  mime_type <> "text" ->
  filename message = Some name -> name <> "" ->
  body message = Some b ->
  data b = Some (string_of_list_byte (urlsafe_b64encode content)) ->
  parse_email_body c msg_id message h
  = (Ok (MIMEAttachment mime_type mime_subtype content name), []).
Proof.
  intros Hm Ht Hs Hne%String.eqb_neq Hf Hname Hb Hd.
  assert (split_mimeType message = Ok (mime_type, mime_subtype)) as Hsplit.
  { unfold split_mimeType. rewrite Hm, (split_type_subtype _ _ Ht Hs). reflexivity. }
  assert (truthy (filename message) = true) as Htruthy.
  { rewrite Hf. destruct name; [contradiction | reflexivity]. }
  rewrite (parse_email_body_attachment _ _ _ _ _ _ Hsplit Hne Htruthy), Hb.
  rewrite bind_getitem_Some, Hd, bind_ret.
  unfold encode_utf8. rewrite list_byte_of_string_of_list_byte.
  rewrite (bind_lift_Ok _ _ _ _ (urlsafe_b64decode_b64encode _)), Hf. reflexivity.
Qed.

Lemma parse_email_body_attachment_round_trip_witness :
  mimeType (attachment_part "f.bin" [x00; xff; x10])
  = Some ("application" ++ "/" ++ "octet-stream")%string
  /\ count_slash "application" = 0 /\ count_slash "octet-stream" = 0
  /\ "application" <> "text" /\ "f.bin" <> ""
  /\ parse_email_body offline "m1" (attachment_part "f.bin" [x00; xff; x10]) []
     = (Ok (MIMEAttachment "application" "octet-stream" [x00; xff; x10] "f.bin"), []).
Proof.
  split; [reflexivity |]. split; [reflexivity |]. split; [reflexivity |].
  split; [discriminate |]. split; [discriminate |].
  apply (parse_email_body_attachment_round_trip offline "m1"
           (attachment_part "f.bin" [x00; xff; x10]) [] "application" "octet-stream"
           "f.bin" _ [x00; xff; x10] eq_refl eq_refl eq_refl ltac:(discriminate) eq_refl
           ltac:(discriminate) eq_refl eq_refl).
Defined.

(** X3. An attachment part whose body carries no data is fetched with
    exactly one call, keyed by the id of the message and the attachment id of
    the body. An exception of the call is raised as it is, a fetched body
    without data raises [KeyError], and fetched data is decoded into the
    payload of the attachment. *)
Theorem parse_email_body_attachment_fetch c msg_id message h mime_type mime_subtype
    b attachment_id :
  split_mimeType message = Ok (mime_type, mime_subtype) ->
  mime_type <> "text" ->
  truthy (filename message) = true ->
  body message = Some b -> data b = None -> attachmentId b = Some attachment_id ->
  parse_email_body c msg_id message h
  = (match attachments_get c h msg_id attachment_id with
     | Err le => Err (Raised le)
     | Ok attachment =>
       match data attachment with
       | None => Err (KeyError "data")
       | Some d =>
         match urlsafe_b64decode (encode_utf8 d) with
         | Ok attachment_data =>
           Ok (MIMEAttachment mime_type mime_subtype attachment_data
                 (default "" (filename message)))
         | Err e => Err e
         end
       end
     end,
     [EvAttachmentGet (emailAddress c) msg_id attachment_id]).
Proof.
  intros Hsplit Hne%String.eqb_neq Htruthy Hb Hd Ha.
  rewrite (parse_email_body_attachment _ _ _ _ _ _ Hsplit Hne Htruthy), Hb.
  rewrite bind_getitem_Some, Hd, Ha. unfold bind, getitem, ret, raise, call, lift.
  rewrite !app_nil_r.
  destruct (attachments_get c h msg_id attachment_id) as [attachment | le]; [| reflexivity].
  destruct (data attachment) as [d |]; [| reflexivity].
  destruct (urlsafe_b64decode (encode_utf8 d)); reflexivity.
Qed.

Lemma parse_email_body_attachment_fetch_witness :
  split_mimeType attachment_remote = Ok ("application", "pdf")
  /\ "application" <> "text"
  /\ parse_email_body (attachment_server (Ok {| data := Some "AAEC"; attachmentId := None |}))
       "m1" attachment_remote []
     = (Ok (MIMEAttachment "application" "pdf" [x00; x01; x02] "report.pdf"),
        [EvAttachmentGet "relay@example.com" "m1" "att-1"])
  /\ parse_email_body (attachment_server (Err (HttpError 404))) "m1" attachment_remote []
     = (Err (Raised (HttpError 404)), [EvAttachmentGet "relay@example.com" "m1" "att-1"]).
Proof.
  split; [reflexivity |]. split; [discriminate |]. split.
  - rewrite (parse_email_body_attachment_fetch
               (attachment_server (Ok {| data := Some "AAEC"; attachmentId := None |}))
               "m1" attachment_remote [] "application" "pdf" _ "att-1"
               eq_refl ltac:(discriminate) eq_refl eq_refl eq_refl eq_refl).
    reflexivity.
  - rewrite (parse_email_body_attachment_fetch (attachment_server (Err (HttpError 404)))
               "m1" attachment_remote [] "application" "pdf" _ "att-1"
               eq_refl ltac:(discriminate) eq_refl eq_refl eq_refl eq_refl).
    reflexivity.
Defined.

(** ** A container and its subparts *)

Lemma attach_all_Ok (self : MessagePart -> M MIMEBase) subparts : forall h children evs,
  attach_all self subparts h = (Ok children, evs) ->
  Forall2 (fun subpart child => exists h' evs', self subpart h' = (Ok child, evs'))
    subparts children.
Proof.
  induction subparts as [| q l IH]; intros h children evs; simpl.
  - intros [= <- <-]. constructor.
  - intros (child & evs1 & evs2 & Hq & H & _)%bind_inv_Ok.
    apply bind_inv_Ok in H as (rest & evs3 & evs4 & Hl & [= <- _] & _).
    constructor; [eauto | eapply IH; exact Hl].
Qed.

Lemma attach_all_Err_at (self : MessagePart -> M MIMEBase) subparts : forall h e evs,
  attach_all self subparts h = (Err e, evs) ->
  exists before subpart after children evs_before evs_fail,
    subparts = before ++ subpart :: after
    /\ attach_all self before h = (Ok children, evs_before)
    /\ self subpart (h ++ evs_before) = (Err e, evs_fail)
    /\ evs = evs_before ++ evs_fail.
Proof.
  induction subparts as [| q l IH]; intros h e evs; simpl; [discriminate |].
  intros [Hq | (child & evs1 & evs2 & Hq & H & ->)]%bind_inv_Err.
  - exists [], q, l, [], [], evs. rewrite app_nil_r. auto.
  - apply bind_inv_Err in H as [H | (rest & evs3 & evs4 & _ & H & _)]; [| discriminate].
    apply IH in H as (before & subpart & after & children & evs_before & evs_fail
                      & -> & Hbefore & Hfail & ->).
    exists (q :: before), subpart, after, (child :: children), (evs1 ++ evs_before), evs_fail.
    split; [reflexivity |]. split; [| split].
    + simpl. unfold bind. rewrite Hq, Hbefore. unfold ret. rewrite app_nil_r. reflexivity.
    + rewrite app_assoc. exact Hfail.
    + rewrite app_assoc. reflexivity.
Qed.

(** X4. A container is reconstructed into one child per subpart, in the
    order of the subparts, each child being the reconstruction of its
    subpart; no subpart is dropped. When the reconstruction of a container
    raises, the exception is that of its first subpart that fails, raised
    from the history the subparts before it have left; what the container
    has done is what these subparts and the failing one have done, and the
    subparts after it are not visited: whatever they are, the outcome and
    the calls made are the same. *)
Theorem parse_email_body_container_children c msg_id message h subparts :
  is_container message = true ->
  parts message = Some subparts ->
  (forall part evs,
     parse_email_body c msg_id message h = (Ok part, evs) ->
     exists mime_type mime_subtype children,
       part = MIMEContainer mime_type mime_subtype children
       /\ Forall2 (fun subpart child =>
                    exists h' evs', parse_email_body c msg_id subpart h' = (Ok child, evs'))
            subparts children)
  /\ (forall e evs,
       parse_email_body c msg_id message h = (Err e, evs) ->
       exists before subpart after children evs_before evs_fail,
         subparts = before ++ subpart :: after
         /\ attach_all (parse_email_body c msg_id) before h = (Ok children, evs_before)
         /\ Forall2 (fun subpart child =>
                      exists h' evs',
                        parse_email_body c msg_id subpart h' = (Ok child, evs'))
              before children
         /\ parse_email_body c msg_id subpart (h ++ evs_before) = (Err e, evs_fail)
         /\ evs = evs_before ++ evs_fail
         /\ forall message' after',
              is_container message' = true ->
              parts message' = Some (before ++ subpart :: after') ->
              parse_email_body c msg_id message' h = (Err e, evs)).
Proof.
  unfold is_container.
  destruct (split_mimeType message) as [[mime_type mime_subtype] | e0] eqn:Hs;
    [| discriminate].
  intros [Ht%negb_true_iff Hf%negb_true_iff]%andb_prop Hp.
  rewrite (parse_email_body_container _ _ _ _ _ _ Hs Ht Hf), Hp. split.
  - intros part evs (children & evs1 & evs2 & Ha & [= <- _] & _)%bind_inv_Ok.
    exists mime_type, mime_subtype, children. split; [reflexivity |].
    eapply attach_all_Ok. exact Ha.
  - intros e evs [Ha | (children & evs1 & evs2 & _ & H & _)]%bind_inv_Err; [| discriminate].
    apply attach_all_Err_at in Ha
      as (before & subpart & after & children & evs_before & evs_fail
          & -> & Hbefore & Hfail & ->).
    exists before, subpart, after, children, evs_before, evs_fail.
    split; [reflexivity |]. split; [exact Hbefore |].
    split; [eapply attach_all_Ok; exact Hbefore |].
    split; [exact Hfail |]. split; [reflexivity |].
    intros message' after'.
    destruct (split_mimeType message') as [[mime_type' mime_subtype'] | e1] eqn:Hs';
      [| discriminate].
    intros [Ht'%negb_true_iff Hf'%negb_true_iff]%andb_prop Hp'.
    rewrite (parse_email_body_container _ _ _ _ _ _ Hs' Ht' Hf'), Hp'.
    apply bind_Err. eapply attach_all_stops; eassumption.
Qed.

Lemma parse_email_body_container_children_witness :
  is_container container_two = true
  /\ parts container_two = Some [text_hello; attachment_inline]
  /\ (exists mime_type mime_subtype children,
        MIMEContainer "multipart" "mixed"
          [MIMEText "hello" "plain";
           MIMEAttachment "application" "octet-stream" [x00; x01; x02] "f.bin"]
        = MIMEContainer mime_type mime_subtype children
        /\ Forall2 (fun subpart child =>
                     exists h' evs',
                       parse_email_body offline "m1" subpart h' = (Ok child, evs'))
             [text_hello; attachment_inline] children)
  /\ (exists before subpart after children evs_before evs_fail,
        [text_hello; text_bad_base64; part_untyped] = before ++ subpart :: after
        /\ attach_all (parse_email_body offline "m1") before [] = (Ok children, evs_before)
        /\ Forall2 (fun subpart child =>
                     exists h' evs',
                       parse_email_body offline "m1" subpart h' = (Ok child, evs'))
             before children
        /\ parse_email_body offline "m1" subpart ([] ++ evs_before)
           = (Err binascii_Error, evs_fail)
        /\ [] = evs_before ++ evs_fail
        /\ forall message' after',
             is_container message' = true ->
             parts message' = Some (before ++ subpart :: after') ->
             parse_email_body offline "m1" message' [] = (Err binascii_Error, [])).
Proof.
  split; [reflexivity |]. split; [reflexivity |]. split.
  - apply (proj1 (parse_email_body_container_children offline "m1" container_two []
                    [text_hello; attachment_inline] eq_refl eq_refl) _ []).
    reflexivity.
  - apply (proj2 (parse_email_body_container_children offline "m1"
                    (mkMessagePart (Some "multipart/mixed") None None None
                       (Some [text_hello; text_bad_base64; part_untyped])) []
                    [text_hello; text_bad_base64; part_untyped] eq_refl eq_refl) _ []).
    reflexivity.
Defined.

(** ** Reconstruction without calls *)

Lemma attach_all_inline subparts :
  Forall (fun q => forall c msg_id h c' msg_id' h',
            parse_email_body c msg_id q h = parse_email_body c' msg_id' q h'
            /\ snd (parse_email_body c msg_id q h) = []) subparts ->
  forall c msg_id h c' msg_id' h',
    attach_all (parse_email_body c msg_id) subparts h
    = attach_all (parse_email_body c' msg_id') subparts h'
    /\ snd (attach_all (parse_email_body c msg_id) subparts h) = [].
Proof.
  induction 1 as [| q l Hq _ IH]; intros c msg_id h c' msg_id' h'; simpl; [auto |].
  unfold bind.
  destruct (Hq c msg_id h c' msg_id' h') as [Heq Hnil]. rewrite <- Heq.
  destruct (parse_email_body c msg_id q h) as [[child | e] evs]; simpl in Hnil; subst evs;
    [| auto].
  rewrite !app_nil_r.
  destruct (IH c msg_id h c' msg_id' h') as [Heq' Hnil']. rewrite <- Heq'.
  destruct (attach_all (parse_email_body c msg_id) l h) as [[children | e] evs];
    simpl in Hnil'; subst evs; auto.
Qed.

(** X5. When every part of the tree that has a body has its data inline,
    reconstruction makes no call at all, and its result depends neither on
    the client, nor on the id of the message, nor on the history. *)
Theorem parse_email_body_inline_pure message :
  every_part inline message = true ->
  forall c msg_id h c' msg_id' h',
    parse_email_body c msg_id message h = parse_email_body c' msg_id' message h'
    /\ snd (parse_email_body c msg_id message h) = [].
Proof.
  induction message as [mt fn hs b | mt fn hs b subparts IH] using MessagePart_tree_ind;
    intros [Hin Hsub]%andb_prop c msg_id h c' msg_id' h';
    rewrite !parse_email_body_unfold; unfold parse_email_body_step;
    unfold inline in Hin; simpl in Hin.
  - unfold bind, lift, getitem, ret, raise, call. simpl.
    repeat case_match; simplify_eq; auto.
  - destruct (split_mimeType _) as [[mime_type mime_subtype] | e]; [| auto].
    rewrite !(bind_lift_Ok _ _ _ _ eq_refl). simpl.
    destruct (String.eqb mime_type "text"); [| destruct (truthy fn)].
    + unfold bind, lift, getitem, ret, raise, call. simpl.
      repeat case_match; simplify_eq; auto.
    + unfold bind, lift, getitem, ret, raise, call. simpl.
      repeat case_match; simplify_eq; auto.
    + assert (Forall (fun q => forall c msg_id h c' msg_id' h',
                        parse_email_body c msg_id q h = parse_email_body c' msg_id' q h'
                        /\ snd (parse_email_body c msg_id q h) = []) subparts) as Hall.
      { apply Forall_forall. intros q Hq. rewrite Forall_forall in IH.
        apply IH; [exact Hq |]. rewrite forallb_forall in Hsub. apply Hsub.
        apply list_elem_of_In. exact Hq. }
      destruct (attach_all_inline subparts Hall c msg_id h c' msg_id' h') as [Heq Hnil].
      unfold bind. rewrite <- Heq.
      destruct (attach_all _ subparts h) as [[children | e] evs]; simpl in Hnil; subst evs;
        auto.
Qed.

Lemma parse_email_body_inline_pure_witness :
  every_part inline container_two = true
  /\ parse_email_body sample_mailbox "m9" container_two [EvSleep 5]
     = parse_email_body offline "m1" container_two []
  /\ snd (parse_email_body sample_mailbox "m9" container_two [EvSleep 5]) = [].
Proof.
  split; [reflexivity |].
  apply (parse_email_body_inline_pure container_two eq_refl).
Defined.

(** ** Further properties of the cycle *)

Section CycleFurther.

Variable as_string : MIMEMultipart -> result lib_exn string.

Lemma sends_app evs1 evs2 : sends (evs1 ++ evs2) = sends evs1 + sends evs2.
Proof. unfold sends. rewrite List.filter_app, length_app. reflexivity. Qed.

Lemma sends_cons ev evs : sends (ev :: evs) = (if is_send ev then 1 else 0) + sends evs.
Proof. unfold sends. simpl. destruct (is_send ev); reflexivity. Qed.

Lemma sends_nil : sends [] = 0.
Proof. reflexivity. Qed.

Ltac count_sends :=
  cbn [app]; repeat (rewrite ?sends_app, ?sends_cons, ?sends_nil).

Lemma sends_none evs : Forall (fun ev => is_send ev = false) evs -> sends evs = 0.
Proof.
  unfold sends. induction 1 as [| ev evs Hev _ IH]; simpl; [reflexivity |].
  rewrite Hev. exact IH.
Qed.

Lemma forward_one_sends c account rule unread_email h r evs :
  forward_one as_string c account rule unread_email h = (r, evs) -> sends evs <= 1.
Proof.
  rewrite forward_one_run.
  destruct (headers (payload unread_email)) as [hs |]; [| intros [= <- <-]; unfold sends; simpl; lia].
  destruct (parse_email_body _ _ _ h) as [[_part | e] evs_p] eqn:Hp;
    pose proof (parse_email_body_events _ _ _ _ _ _ Hp) as Hev;
    assert (sends evs_p = 0) as Hns
      by (apply sends_none; eapply Forall_impl; [exact Hev |];
          intros ev [a ->]; reflexivity);
    [| intros [= <- <-]; lia].
  destruct rule as [rule |]; [| intros [= <- <-]; lia].
  cbv zeta. destruct (as_string _) as [serialized | e]; [| intros [= <- <-]; lia].
  destruct (messages_send _ _ _) as [u | e]; intros [= <- <-];
    rewrite sends_app, Hns; unfold sends; simpl; lia.
Qed.

(** Forwarding a batch is forwarding its first messages, then the others
    from the history and the processed ids reached. *)
Lemma forward_loop_app c account rule before after : forall processed_ids h,
  forward_loop as_string c account rule (before ++ after) processed_ids h
  = match forward_loop as_string c account rule before processed_ids h with
    | (Ok processed, evs) =>
      let (r, evs') := forward_loop as_string c account rule after processed (h ++ evs) in
      (r, evs ++ evs')
    | (Err e, evs) => (Err e, evs)
    end.
Proof.
  induction before as [| [unread_email | exception] before IH]; intros processed_ids h.
  - simpl. rewrite app_nil_r.
    destruct (forward_loop _ _ _ _ after _ _) as [r evs]. reflexivity.
  - rewrite <- app_comm_cons, !forward_loop_message.
    destruct (forward_one _ _ _ _ _ h) as [[sent | e] evs1].
    + rewrite IH.
      destruct (forward_loop _ _ _ _ before _ _) as [[processed | e] evs2]; [| reflexivity].
      rewrite <- app_assoc.
      destruct (forward_loop _ _ _ _ after _ _) as [r evs3]. rewrite app_assoc. reflexivity.
    + destruct (is_RuntimeError e); [| reflexivity].
      rewrite IH.
      destruct (forward_loop _ _ _ _ before _ _) as [[processed | e'] evs2]; [| reflexivity].
      rewrite <- app_assoc.
      destruct (forward_loop _ _ _ _ after _ _) as [r evs3]. rewrite app_assoc. reflexivity.
  - rewrite <- app_comm_cons, !forward_loop_fetch_error, IH.
    destruct (forward_loop _ _ _ _ before _ _) as [[processed | e'] evs2]; [| reflexivity].
    change (h ++ EvPrint (PrintError exception) :: evs2)
      with (h ++ [EvPrint (PrintError exception)] ++ evs2).
    rewrite app_assoc.
    destruct (forward_loop _ _ _ _ after _ _) as [r evs3]. reflexivity.
Qed.

Lemma forward_loop_processed c account rule unread_emails : forall processed_ids h r evs,
  forward_loop as_string c account rule unread_emails processed_ids h = (r, evs) ->
  sends evs <= length (fetched_ids unread_emails)
  /\ forall processed, r = Ok processed ->
       exists appended,
         processed = processed_ids ++ appended
         /\ sublist appended (fetched_ids unread_emails).
Proof.
  induction unread_emails as [| [unread_email | exception] rest IH];
    intros processed_ids h r evs.
  - intros [= <- <-]. split; [unfold sends; simpl; lia |].
    intros processed [= <-]. exists []. rewrite app_nil_r. split; [reflexivity | constructor].
  - rewrite forward_loop_message.
    destruct (forward_one _ _ _ _ _ h) as [[sent | e] evs1] eqn:H1;
      pose proof (forward_one_sends _ _ _ _ _ _ _ H1) as Hs1;
      apply forward_one_sent in H1 as [_ Hsent].
    + destruct (Hsent _ eq_refl) as [-> _].
      destruct (forward_loop _ _ _ _ rest _ _) as [r2 evs2] eqn:H2.
      apply IH in H2 as [Hs2 Hrest]. intros [= <- <-]. split.
      * rewrite sends_app. simpl. lia.
      * intros processed Hr. destruct (Hrest _ Hr) as (appended & -> & Hsub).
        exists (message_id unread_email :: appended). rewrite <- app_assoc.
        split; [reflexivity |]. simpl. constructor. exact Hsub.
    + destruct (is_RuntimeError e).
      * destruct (forward_loop _ _ _ _ rest _ _) as [r2 evs2] eqn:H2.
        apply IH in H2 as [Hs2 Hrest]. intros [= <- <-]. split.
        -- rewrite sends_app. simpl. lia.
        -- intros processed Hr. destruct (Hrest _ Hr) as (appended & -> & Hsub).
           exists appended. split; [reflexivity |]. simpl. constructor. exact Hsub.
      * intros [= <- <-]. split; [simpl; lia | discriminate].
  - rewrite forward_loop_fetch_error.
    destruct (forward_loop _ _ _ _ rest _ _) as [r2 evs2] eqn:H2.
    apply IH in H2 as [Hs2 Hrest]. intros [= <- <-]. split.
    + change (EvPrint (PrintError exception) :: evs2)
        with ([EvPrint (PrintError exception)] ++ evs2).
      rewrite sends_app. simpl. exact Hs2.
    + exact Hrest.
Qed.

(** X6. The ids a cycle asks to mark as read are ids of messages the batch
    fetch of that cycle returned, in the order it returned them, and the
    call is made by the client of the cycle: no id that was not fetched in
    this cycle is ever acknowledged. *)
Theorem acknowledged_ids_were_fetched c account rule h r evs user ids :
  apply_forwarding_rule as_string c account rule h = (r, evs) ->
  In (EvBatchModify user ids) evs ->
  user = emailAddress c
  /\ exists listed unread_emails,
       messages_list c h = Ok listed
       /\ messages_batch_get c (h ++ [EvList (emailAddress c)])
            (map fst (default [] (messages listed))) = Ok unread_emails
       /\ sublist ids (fetched_ids unread_emails).
Proof.
  intros Happly Hin.
  rewrite apply_forwarding_rule_run in Happly.
  pose proof (apply_forwarding_rule_try_run as_string c account rule h) as Hrun.
  cbv zeta in Hrun. rewrite Hrun in Happly. clear Hrun.
  destruct (messages_list c h) as [listed | le] eqn:Hl.
  2:{ exfalso. destruct le; simpl in Happly; injection Happly as <- <-; simpl in Hin;
      repeat (destruct Hin as [Hin | Hin]; try discriminate); contradiction. }
  destruct (messages_batch_get c _ _) as [unread_emails | le] eqn:Hb.
  2:{ exfalso. destruct le; simpl in Happly; injection Happly as <- <-; simpl in Hin;
      repeat (destruct Hin as [Hin | Hin]; try discriminate); contradiction. }
  destruct (forward_loop _ _ _ _ _ _ _) as [[processed_ids | e] evs_loop] eqn:Hloop;
    pose proof (forward_loop_sent _ _ _ _ _ _ _ _ _ Hloop) as [Hnm _];
    pose proof (forward_loop_processed _ _ _ _ _ _ _ _ Hloop) as [_ Hproc];
    rewrite Forall_forall in Hnm.
  - destruct (Hproc _ eq_refl) as (appended & Heq & Hsub). simpl in Heq. subst appended.
    assert (In (EvBatchModify user ids)
              (evs_loop ++ [EvBatchModify (emailAddress c) processed_ids])) as Hin'.
    { destruct (messages_batch_modify c _ _) as [u | le].
      - injection Happly as <- <-. simpl in Hin.
        destruct Hin as [Hin | [Hin | Hin]]; try discriminate. exact Hin.
      - destruct le; simpl in Happly; injection Happly as <- <-; simpl in Hin;
          destruct Hin as [Hin | [Hin | Hin]]; try discriminate; try exact Hin.
        rewrite <- app_assoc in Hin. apply in_app_or in Hin as [Hin | Hin];
          [apply in_or_app; left; exact Hin |].
        simpl in Hin. destruct Hin as [Hin | [Hin | []]]; [| discriminate].
        apply in_or_app. right. left. exact Hin. }
    apply in_app_or in Hin' as [Hin' | [[= <- <-] | []]].
    + apply list_elem_of_In, Hnm in Hin'. discriminate.
    + split; [reflexivity |]. exists listed, unread_emails. auto.
  - exfalso. destruct (is_HttpError e); injection Happly as <- <-; simpl in Hin;
      destruct Hin as [Hin | [Hin | Hin]]; try discriminate.
    + apply in_app_or in Hin as [Hin | Hin].
      * apply list_elem_of_In, Hnm in Hin. discriminate.
      * destruct Hin as [Hin | []]. discriminate.
    + apply list_elem_of_In, Hnm in Hin. discriminate.
Qed.

(** X7. A cycle makes at most one send call per message its batch fetch
    returned, and none at all when the listing or the batch fetch fails. *)
Theorem one_send_per_fetched_message c account rule h r evs :
  apply_forwarding_rule as_string c account rule h = (r, evs) ->
  sends evs
  <= match messages_list c h with
     | Ok listed =>
       match messages_batch_get c (h ++ [EvList (emailAddress c)])
               (map fst (default [] (messages listed))) with
       | Ok unread_emails => length (fetched_ids unread_emails)
       | Err _ => 0
       end
     | Err _ => 0
     end.
Proof.
  rewrite apply_forwarding_rule_run.
  pose proof (apply_forwarding_rule_try_run as_string c account rule h) as Hrun.
  cbv zeta in Hrun. rewrite Hrun. clear Hrun.
  destruct (messages_list c h) as [listed | le].
  2:{ destruct le; simpl; intros [= <- <-]; count_sends; simpl; lia. }
  destruct (messages_batch_get c _ _) as [unread_emails | le].
  2:{ destruct le; simpl; intros [= <- <-]; count_sends; simpl; lia. }
  destruct (forward_loop _ _ _ _ _ _ _) as [[processed_ids | e] evs_loop] eqn:Hloop;
    pose proof (forward_loop_processed _ _ _ _ _ _ _ _ Hloop) as [Hs _].
  - destruct (messages_batch_modify c _ _) as [u | le].
    + intros [= <- <-]. count_sends. simpl. lia.
    + destruct le; simpl; intros [= <- <-]; count_sends; simpl; lia.
  - destruct (is_HttpError e); intros [= <- <-]; count_sends; simpl; lia.
Qed.

(** X8. A cycle that returns has either issued its label-removal batch as
    its last call, or printed, as its last action, the [HttpError] that cut
    it short; a cycle that raises never raises an [HttpError]. *)
Theorem apply_forwarding_rule_outcome c account rule h r evs :
  apply_forwarding_rule as_string c account rule h = (r, evs) ->
  match r with
  | Ok _ =>
    (exists pre ids, evs = pre ++ [EvBatchModify (emailAddress c) ids])
    \/ (exists pre e, is_HttpError e = true /\ evs = pre ++ [EvPrint (PrintOccurred e)])
  | Err e => is_HttpError e = false
  end.
Proof.
  rewrite apply_forwarding_rule_run.
  destruct (apply_forwarding_rule_try as_string c account rule h) as [[u | e] evs0] eqn:Htry.
  - intros [= <- <-]. left.
    pose proof (apply_forwarding_rule_try_run as_string c account rule h) as Hrun.
    cbv zeta in Hrun. rewrite Hrun in Htry. clear Hrun.
    destruct (messages_list c h) as [listed | le]; [| discriminate].
    destruct (messages_batch_get c _ _) as [unread_emails | le]; [| discriminate].
    destruct (forward_loop _ _ _ _ _ _ _) as [[processed_ids | e] evs_loop]; [| discriminate].
    injection Htry as _ <-.
    exists ([EvList (emailAddress c);
             EvBatchGet (emailAddress c) (map fst (default [] (messages listed)))]
            ++ evs_loop), processed_ids.
    rewrite <- app_assoc. reflexivity.
  - destruct (is_HttpError e) eqn:He; intros [= <- <-]; [| exact He].
    right. exists evs0, e. auto.
Qed.

(** X9. When forwarding one of the fetched messages raises anything but a
    [RuntimeError] (a refused send, a decoding error, a missing rule), the
    cycle ends there: the messages after it are not forwarded, no
    label-removal batch is issued, so the messages already sent in this cycle
    stay unread; an [HttpError] is printed and the cycle returns, any other
    exception leaves [apply_forwarding_rule]. *)
Theorem forwarding_failure_ends_cycle c account rule h listed before unread_email rest
    processed evs1 e evs2 :
  messages_list c h = Ok listed ->
  messages_batch_get c (h ++ [EvList (emailAddress c)])
    (map fst (default [] (messages listed))) = Ok (before ++ Ok unread_email :: rest) ->
  forward_loop as_string c account rule before []
    (h ++ [EvList (emailAddress c);
           EvBatchGet (emailAddress c) (map fst (default [] (messages listed)))])
  = (Ok processed, evs1) ->
  forward_one as_string c account rule unread_email
    ((h ++ [EvList (emailAddress c);
            EvBatchGet (emailAddress c) (map fst (default [] (messages listed)))]) ++ evs1)
  = (Err e, evs2) ->
  is_RuntimeError e = false ->
  apply_forwarding_rule as_string c account rule h
  = (if is_HttpError e then Ok tt else Err e,
     [EvList (emailAddress c);
      EvBatchGet (emailAddress c) (map fst (default [] (messages listed)))]
     ++ evs1 ++ evs2 ++ (if is_HttpError e then [EvPrint (PrintOccurred e)] else []))
  /\ Forall (fun ev => is_modify ev = false) (evs1 ++ evs2).
Proof.
  intros Hl Hb Hbefore Hone He.
  assert (forward_loop as_string c account rule (before ++ Ok unread_email :: rest) []
            (h ++ [EvList (emailAddress c);
                   EvBatchGet (emailAddress c) (map fst (default [] (messages listed)))])
          = (Err e, evs1 ++ evs2)) as Hloop.
  { rewrite forward_loop_app, Hbefore, forward_loop_message, Hone, He. reflexivity. }
  split.
  - rewrite apply_forwarding_rule_run.
    pose proof (apply_forwarding_rule_try_run as_string c account rule h) as Hrun.
    cbv zeta in Hrun. rewrite Hrun, Hl, Hb, Hloop. clear Hrun.
    destruct (is_HttpError e); rewrite <- ?app_assoc, ?app_nil_r; reflexivity.
  - apply (forward_loop_sent _ _ _ _ _ _ _ _ _ Hloop).
Qed.

(** X10. When forwarding one of the fetched messages raises a
    [RuntimeError], that message alone is skipped: the loop goes on with the
    messages after it, from the history reached, and the list of processed
    ids is the one the messages before it produced. *)
Theorem forward_loop_skips_RuntimeError c account rule before unread_email rest
    processed_ids h processed evs1 e evs2 :
  forward_loop as_string c account rule before processed_ids h = (Ok processed, evs1) ->
  forward_one as_string c account rule unread_email (h ++ evs1) = (Err e, evs2) ->
  is_RuntimeError e = true ->
  forward_loop as_string c account rule (before ++ Ok unread_email :: rest) processed_ids h
  = (let (r, evs3) := forward_loop as_string c account rule rest processed
                        ((h ++ evs1) ++ evs2) in
     (r, evs1 ++ evs2 ++ evs3)).
Proof.
  intros Hbefore Hone He.
  rewrite forward_loop_app, Hbefore, forward_loop_message, Hone, He.
  destruct (forward_loop _ _ _ _ rest _ _) as [r evs3]. reflexivity.
Qed.

(** X11. When the listing names no message and the (empty) batch fetch
    returns nothing, the cycle still issues both batches, each without any
    id, and sends nothing. *)
Theorem nothing_unread c account rule h listed :
  messages_list c h = Ok listed ->
  default [] (messages listed) = [] ->
  messages_batch_get c (h ++ [EvList (emailAddress c)]) [] = Ok [] ->
  exists r tail,
    apply_forwarding_rule as_string c account rule h
    = (r, [EvList (emailAddress c); EvBatchGet (emailAddress c) [];
           EvBatchModify (emailAddress c) []] ++ tail)
    /\ sends tail = 0 /\ Forall (fun ev => is_modify ev = false) tail.
Proof.
  intros Hl Hnone Hb.
  rewrite apply_forwarding_rule_run.
  pose proof (apply_forwarding_rule_try_run as_string c account rule h) as Hrun.
  cbv zeta in Hrun. rewrite Hrun, Hl, Hnone. clear Hrun. simpl. rewrite Hb. simpl.
  destruct (messages_batch_modify c _ _) as [u | le].
  - exists (Ok tt), []. repeat split. constructor.
  - destruct le; simpl.
    + eexists (Ok tt), [_]. repeat split. repeat constructor.
    + eexists _, []. repeat split. constructor.
    + eexists _, []. repeat split. constructor.
Qed.

End CycleFurther.

Lemma acknowledged_ids_were_fetched_witness :
  In (EvBatchModify "relay@example.com" ["m1"; "m3"]) (snd sample_cycle)
  /\ "relay@example.com" = emailAddress sample_mailbox
  /\ exists listed unread_emails,
       messages_list sample_mailbox [] = Ok listed
       /\ messages_batch_get sample_mailbox ([] ++ [EvList (emailAddress sample_mailbox)])
            (map fst (default [] (messages listed))) = Ok unread_emails
       /\ sublist ["m1"; "m3"] (fetched_ids unread_emails).
Proof.
  assert (In (EvBatchModify "relay@example.com" ["m1"; "m3"]) (snd sample_cycle)) as Hin.
  { vm_compute. do 7 right. left. reflexivity. }
  split; [exact Hin |].
  apply (acknowledged_ids_were_fetched as_string_headers sample_mailbox "relay@example.com"
           (Some sample_rule) [] (fst sample_cycle) (snd sample_cycle)
           "relay@example.com" ["m1"; "m3"]).
  - apply surjective_pairing.
  - exact Hin.
Defined.

Lemma one_send_per_fetched_message_witness : sends (snd sample_cycle) <= 2.
Proof.
  apply (one_send_per_fetched_message as_string_headers sample_mailbox "relay@example.com"
           (Some sample_rule) [] (fst sample_cycle) (snd sample_cycle)).
  apply surjective_pairing.
Defined.

Lemma apply_forwarding_rule_outcome_witness :
  (exists pre ids, snd sample_cycle = pre ++ [EvBatchModify "relay@example.com" ids])
  \/ (exists pre e, is_HttpError e = true
                    /\ snd sample_cycle = pre ++ [EvPrint (PrintOccurred e)]).
Proof.
  apply (apply_forwarding_rule_outcome as_string_headers sample_mailbox "relay@example.com"
           (Some sample_rule) [] (Ok tt) (snd sample_cycle)).
  vm_compute. reflexivity.
Defined.

Lemma forwarding_failure_ends_cycle_witness :
  exists evs2,
    forward_one as_string_headers (mailbox_refusing three_unread) "relay@example.com"
      (Some sample_rule) (fetched "m1" "first" text_hello)
      (([] ++ [EvList "relay@example.com";
               EvBatchGet "relay@example.com" ["m1"; "m2"; "m3"]]) ++ [])
    = (Err (Raised (HttpError 403)), evs2)
    /\ apply_forwarding_rule as_string_headers (mailbox_refusing three_unread)
         "relay@example.com" (Some sample_rule) []
       = (Ok tt,
          [EvList "relay@example.com"; EvBatchGet "relay@example.com" ["m1"; "m2"; "m3"]]
          ++ [] ++ evs2 ++ [EvPrint (PrintOccurred (Raised (HttpError 403)))])
    /\ Forall (fun ev => is_modify ev = false) ([] ++ evs2).
Proof.
  eexists. split; [vm_compute; reflexivity |].
  apply (forwarding_failure_ends_cycle as_string_headers (mailbox_refusing three_unread)
           "relay@example.com" (Some sample_rule) []
           {| messages := Some [("m1", "thread-m1"); ("m2", "thread-m2");
                                ("m3", "thread-m3")] |}
           [] (fetched "m1" "first" text_hello)
           [Ok (fetched "m2" "second" text_bad_base64); Ok (fetched "m3" "third" text_hello)]
           [] [] (Raised (HttpError 403)) _ eq_refl eq_refl eq_refl);
    [vm_compute; reflexivity | reflexivity].
Defined.

Lemma forward_loop_skips_RuntimeError_witness :
  forward_loop as_string_raising sample_mailbox "relay@example.com" (Some sample_rule)
    ([] ++ Ok (fetched "m1" "first" text_hello) :: [Ok (fetched "m3" "third" text_hello)])
    [] []
  = (let (r, evs3) :=
       forward_loop as_string_raising sample_mailbox "relay@example.com" (Some sample_rule)
         [Ok (fetched "m3" "third" text_hello)] [] (([] ++ []) ++ []) in
     (r, [] ++ [] ++ evs3)).
Proof.
  apply (forward_loop_skips_RuntimeError as_string_raising sample_mailbox "relay@example.com"
           (Some sample_rule) [] (fetched "m1" "first" text_hello)
           [Ok (fetched "m3" "third" text_hello)] [] [] [] []
           (Raised (LibRuntimeError "cannot serialize")) [] eq_refl eq_refl eq_refl).
Defined.

Lemma nothing_unread_witness :
  exists r tail,
    apply_forwarding_rule as_string_headers mailbox_empty "relay@example.com"
      (Some sample_rule) []
    = (r, [EvList "relay@example.com"; EvBatchGet "relay@example.com" [];
           EvBatchModify "relay@example.com" []] ++ tail)
    /\ sends tail = 0 /\ Forall (fun ev => is_modify ev = false) tail.
Proof.
  apply (nothing_unread as_string_headers mailbox_empty "relay@example.com"
           (Some sample_rule) [] {| messages := Some [] |} eq_refl eq_refl eq_refl).
Defined.

(** ** The wire format of a reply *)

(** X12. The [raw] field of a reply is plain ASCII and decodes, as URL-safe
    base64, to exactly the UTF-8 bytes of the serialized message; its
    [threadId] is that of the original message. *)
Theorem build_reply_decodes serialized unread_email :
  encode_ascii (raw (build_reply serialized unread_email))
  = Ok (encode_utf8 (raw (build_reply serialized unread_email)))
  /\ urlsafe_b64decode (encode_utf8 (raw (build_reply serialized unread_email)))
     = Ok (encode_utf8 serialized)
  /\ reply_threadId (build_reply serialized unread_email) = threadId unread_email.
Proof.
  unfold build_reply. simpl. split; [| split; [| reflexivity]].
  - rewrite encode_ascii_b64encode. unfold encode_utf8 at 2.
    rewrite list_byte_of_string_of_list_byte. reflexivity.
  - unfold encode_utf8 at 1. rewrite list_byte_of_string_of_list_byte.
    apply urlsafe_b64decode_b64encode.
Qed.

(** ** Further properties of the scheduler *)

Section SchedulerFurther.

Variable as_string : MIMEMultipart -> result lib_exn string.
Variable now : list event -> Z * Z.
Variable email_lists : gmap string email_list.
Variable clients : list (string * Client).

Ltac no_clock :=
  repeat first [ assumption
               | apply Forall_nil_2
               | apply Forall_cons_2; [reflexivity |]
               | apply Forall_app_2 ].

Lemma forward_one_no_clock c account rule unread_email h r evs :
  forward_one as_string c account rule unread_email h = (r, evs) ->
  Forall (fun ev => is_clock ev = false) evs.
Proof.
  rewrite forward_one_run.
  destruct (headers (payload unread_email)) as [hs |]; [| intros [= <- <-]; constructor].
  destruct (parse_email_body _ _ _ h) as [[_part | e] evs_p] eqn:Hp;
    pose proof (parse_email_body_events _ _ _ _ _ _ Hp) as Hev;
    assert (Forall (fun ev => is_clock ev = false) evs_p) as Hnc
      by (eapply Forall_impl; [exact Hev |]; intros ev [a ->]; reflexivity);
    [| intros [= <- <-]; exact Hnc].
  destruct rule as [rule |]; [| intros [= <- <-]; exact Hnc].
  cbv zeta. destruct (as_string _) as [serialized | e]; [| intros [= <- <-]; exact Hnc].
  destruct (messages_send _ _ _) as [u | e]; intros [= <- <-];
    apply Forall_app; split; try exact Hnc; repeat constructor.
Qed.

Lemma forward_loop_no_clock c account rule unread_emails : forall processed_ids h r evs,
  forward_loop as_string c account rule unread_emails processed_ids h = (r, evs) ->
  Forall (fun ev => is_clock ev = false) evs.
Proof.
  induction unread_emails as [| [unread_email | exception] rest IH];
    intros processed_ids h r evs.
  - intros [= <- <-]. constructor.
  - rewrite forward_loop_message.
    destruct (forward_one _ _ _ _ _ h) as [[sent | e] evs1] eqn:H1;
      apply forward_one_no_clock in H1.
    + destruct (forward_loop _ _ _ _ rest _ _) as [r2 evs2] eqn:H2. apply IH in H2.
      intros [= <- <-]. apply Forall_app. auto.
    + destruct (is_RuntimeError e); [| intros [= <- <-]; exact H1].
      destruct (forward_loop _ _ _ _ rest _ _) as [r2 evs2] eqn:H2. apply IH in H2.
      intros [= <- <-]. apply Forall_app. auto.
  - rewrite forward_loop_fetch_error.
    destruct (forward_loop _ _ _ _ rest _ _) as [r2 evs2] eqn:H2. apply IH in H2.
    intros [= <- <-]. constructor; [reflexivity | exact H2].
Qed.

Lemma apply_forwarding_rule_no_clock c account rule h r evs :
  apply_forwarding_rule as_string c account rule h = (r, evs) ->
  Forall (fun ev => is_clock ev = false) evs.
Proof.
  rewrite apply_forwarding_rule_run.
  pose proof (apply_forwarding_rule_try_run as_string c account rule h) as Hrun.
  cbv zeta in Hrun. rewrite Hrun. clear Hrun.
  destruct (messages_list c h) as [listed | le];
    [| destruct le; simpl; intros [= <- <-]; no_clock].
  destruct (messages_batch_get c _ _) as [unread_emails | le];
    [| destruct le; simpl; intros [= <- <-]; no_clock].
  destruct (forward_loop _ _ _ _ _ _ _) as [[processed_ids | e] evs_loop] eqn:Hloop;
    apply forward_loop_no_clock in Hloop.
  - destruct (messages_batch_modify c _ _) as [u | le];
      [| destruct le; simpl]; intros [= <- <-]; no_clock.
  - destruct (is_HttpError e); intros [= <- <-]; no_clock.
Qed.

Lemma run_clients_no_clock cs : forall h r evs,
  run_clients as_string email_lists cs h = (r, evs) ->
  Forall (fun ev => is_clock ev = false) evs.
Proof.
  induction cs as [| [account client] cs IH]; intros h r evs; simpl.
  - intros [= <- <-]. constructor.
  - unfold bind.
    destruct (apply_forwarding_rule _ _ _ _ h) as [[u | e] evs1] eqn:H1;
      apply apply_forwarding_rule_no_clock in H1; [| intros [= <- <-]; exact H1].
    destruct (run_clients _ _ cs _) as [r2 evs2] eqn:H2. apply IH in H2.
    intros [= <- <-]. apply Forall_app. auto.
Qed.

Lemma last_sample_app h1 h2 :
  last_sample (h1 ++ h2)
  = match last_sample h2 with
    | Some sampled => Some sampled
    | None => last_sample h1
    end.
Proof.
  induction h1 as [| ev h1 IH]; simpl.
  - destruct (last_sample h2); reflexivity.
  - rewrite IH. destruct (last_sample h2); reflexivity.
Qed.

Lemma last_sample_no_clock evs :
  Forall (fun ev => is_clock ev = false) evs -> last_sample evs = None.
Proof.
  induction 1 as [| ev evs Hev _ IH]; simpl; [reflexivity |].
  rewrite IH. destruct ev; try reflexivity; discriminate.
Qed.

Lemma count_now_app h1 h2 : count_now (h1 ++ h2) = count_now h1 + count_now h2.
Proof. unfold count_now. rewrite List.filter_app, length_app. reflexivity. Qed.

Lemma count_sleep_app h1 h2 : count_sleep (h1 ++ h2) = count_sleep h1 + count_sleep h2.
Proof. unfold count_sleep. rewrite List.filter_app, length_app. reflexivity. Qed.

Lemma count_no_clock evs :
  Forall (fun ev => is_clock ev = false) evs -> count_now evs = 0 /\ count_sleep evs = 0.
Proof.
  unfold count_now, count_sleep.
  induction 1 as [| ev evs Hev _ [IH1 IH2]]; simpl; [auto |].
  destruct ev; try discriminate; simpl; auto.
Qed.

Lemma scheduler_invariant_start h0 : scheduler_invariant h0 (main_start now h0).
Proof.
  unfold scheduler_invariant, main_start. simpl.
  rewrite last_sample_app, count_now_app, count_sleep_app. simpl.
  destruct (now h0) as [hour minute]. simpl.
  split; [reflexivity |]. split; [discriminate |].
  change (count_now [EvNow hour minute]) with 1.
  change (count_sleep [EvNow hour minute]) with 0. lia.
Qed.

Lemma scheduler_invariant_step h0 s s' :
  scheduler_invariant h0 s ->
  step as_string now email_lists clients s = Some s' ->
  scheduler_invariant h0 s'.
Proof.
  intros (Hlast & Hstop & Hnow & Hsleep). unfold step.
  destruct (sched_phase s) eqn:Hphase; [| discriminate | discriminate].
  destruct (cutoff (dtime s)) eqn:Hcut.
  - intros [= <-]. unfold scheduler_invariant. simpl. auto.
  - destruct (run_clients _ _ _ _) as [[u | e] evs] eqn:Hc;
      apply run_clients_no_clock in Hc;
      pose proof (last_sample_no_clock _ Hc) as Hl;
      destruct (count_no_clock _ Hc) as [Hn Hs];
      intros [= <-]; unfold scheduler_invariant; simpl;
      rewrite ?last_sample_app, ?count_now_app, ?count_sleep_app, ?Hl, ?Hn, ?Hs; simpl;
      destruct (now (history s)) as [hour minute]; simpl;
      (split; [reflexivity |]); (split; [discriminate |]);
      change (count_now [EvNow hour minute]) with 1;
      change (count_sleep [EvNow hour minute]) with 0;
      try change (count_now [EvSleep 5]) with 0;
      try change (count_sleep [EvSleep 5]) with 1;
      lia.
Qed.

Lemma run_steps fuel : forall s,
  sched_steps as_string now email_lists clients s
    (run as_string now fuel email_lists clients s).
Proof.
  induction fuel as [| fuel IH]; intros s; simpl; [constructor |].
  destruct (step _ _ _ _ s) as [s' |] eqn:Hs; [| constructor].
  eapply steps_next; [exact Hs | apply IH].
Qed.

(** X13. In every state [main] reaches from its first reading of the clock,
    [dtime] is the time read last; the scheduler is stopped only if that
    time is in the cutoff window; the clock has been read once on entry and
    once per tick; and the program has slept five seconds once per tick,
    except after the tick that ended on an exception. *)
Theorem scheduler_reachable_invariant h0 s :
  sched_steps as_string now email_lists clients (main_start now h0) s ->
  scheduler_invariant h0 s.
Proof.
  intros Hsteps.
  pose proof (scheduler_invariant_start h0) as Hinv.
  induction Hsteps as [s | s s' s'' Hstep _ IH]; [exact Hinv |].
  apply IH. eapply scheduler_invariant_step; [exact Hinv | exact Hstep].
Qed.

(** X14. The time tested by the [while] is the one read before the cycles of
    the previous tick. So when [dtime] is outside the window but the clock,
    read again at the start of the loop body, is already inside it, the
    cycles of every client are still run and the program still sleeps; the
    scheduler stops at the next test. *)
Theorem tick_inside_window s evs :
  sched_phase s = Running ->
  cutoff (dtime s) = false ->
  cutoff (now (history s)) = true ->
  run_clients as_string email_lists clients
    (history s ++ [EvNow (fst (now (history s))) (snd (now (history s)))]) = (Ok tt, evs) ->
  forall fuel,
    run as_string now (S (S fuel)) email_lists clients s
    = {| sched_phase := Stopped; dtime := now (history s); ticks := S (ticks s);
         history := (history s ++ [EvNow (fst (now (history s))) (snd (now (history s)))])
                    ++ evs ++ [EvSleep 5] |}.
Proof.
  intros Hphase Hout Hin Hc fuel.
  cbn [run]. unfold step at 1. rewrite Hphase, Hout, Hc.
  unfold step at 1. cbn [sched_phase dtime]. rewrite Hin. simpl.
  apply run_terminal. reflexivity.
Qed.

End SchedulerFurther.

Lemma scheduler_reachable_invariant_witness :
  scheduler_invariant []
    (run as_string_headers clock_late 3 sample_lists sample_clients (main_start clock_late []))
  /\ sched_phase (run as_string_headers clock_late 3 sample_lists sample_clients
                    (main_start clock_late [])) = Stopped.
Proof.
  split; [| vm_compute; reflexivity].
  apply (scheduler_reachable_invariant as_string_headers clock_late sample_lists
           sample_clients []).
  apply run_steps.
Defined.

Lemma tick_inside_window_witness :
  cutoff (dtime (main_start clock_late [])) = false
  /\ cutoff (clock_late (history (main_start clock_late []))) = true
  /\ forall fuel,
       ticks (run as_string_headers clock_late (S (S fuel)) sample_lists sample_clients
                (main_start clock_late [])) = 1
       /\ sched_phase (run as_string_headers clock_late (S (S fuel)) sample_lists
                         sample_clients (main_start clock_late [])) = Stopped.
Proof.
  split; [reflexivity |]. split; [reflexivity |]. intros fuel.
  rewrite (tick_inside_window as_string_headers clock_late sample_lists sample_clients
             (main_start clock_late [])
             (snd (run_clients as_string_headers sample_lists sample_clients
                     [EvNow 23 54; EvNow 23 59]))
             eq_refl eq_refl eq_refl ltac:(vm_compute; reflexivity) fuel).
  split; reflexivity.
Defined.

(** ** Further properties of the rule loader *)

Section LoaderFurther.

Variable fs : FileSystem.
Variable parseaddr : string -> string * string.

Lemma index_in_range lines i : i < length lines -> exists x, index lines i = Ok x.
Proof.
  intros Hi. unfold index. destruct (lines !! i) as [x |] eqn:Hx; [eauto |].
  apply lookup_ge_None in Hx. lia.
Qed.

Lemma index_Err lines i e : index lines i = Err e -> e = IndexError /\ length lines <= i.
Proof.
  unfold index. destruct (lines !! i) as [x |] eqn:Hx; [discriminate |].
  intros [= <-]. apply lookup_ge_None in Hx. auto.
Qed.

Lemma headers_ok_Err lines e :
  headers_ok lines = Err e -> e = IndexError /\ length lines < 5.
Proof.
  unfold headers_ok.
  destruct (index lines 0) as [l0 |] eqn:H0;
    [| intros [= <-]; apply index_Err in H0 as [-> ?]; split; [reflexivity | lia]].
  destruct (negb (String.eqb l0 "ACCOUNT")); [discriminate |].
  destruct (index lines 2) as [l2 |] eqn:H2;
    [| intros [= <-]; apply index_Err in H2 as [-> ?]; split; [reflexivity | lia]].
  destruct (negb (String.eqb l2 "TO")); [discriminate |].
  destruct (index lines 4) as [l4 |] eqn:H4;
    [discriminate | intros [= <-]; apply index_Err in H4 as [-> ?]; split; [reflexivity | lia]].
Qed.

Lemma headers_ok_true_length lines : headers_ok lines = Ok true -> 5 <= length lines.
Proof.
  unfold headers_ok.
  destruct (index lines 0) as [l0 |]; [| discriminate].
  destruct (negb (String.eqb l0 "ACCOUNT")); [discriminate |].
  destruct (index lines 2) as [l2 |]; [| discriminate].
  destruct (negb (String.eqb l2 "TO")); [discriminate |].
  unfold index. destruct (lines !! 4) as [l4 |] eqn:H4; [| discriminate].
  intros _. apply lookup_lt_Some in H4. lia.
Qed.

(** The three things the lines of a file can be: a rule, a list to skip, or
    too short for the header test. *)
Lemma content_cases content :
  (exists account rule,
     entry_of content = Some (account, rule)
     /\ headers_ok (map strip content) = Ok true
     /\ index (map strip content) 1 = Ok account
     /\ index (map strip content) 3 = Ok (to rule)
     /\ cc rule = drop 5 (map strip content))
  \/ (entry_of content = None /\ headers_ok (map strip content) = Ok false)
  \/ (entry_of content = None /\ headers_ok (map strip content) = Err IndexError
      /\ length content < 5).
Proof.
  unfold entry_of.
  destruct (headers_ok (map strip content)) as [[|] | e] eqn:Hh.
  - left. pose proof (headers_ok_true_length _ Hh) as Hlen.
    destruct (index_in_range (map strip content) 1 ltac:(lia)) as [account Ha].
    destruct (index_in_range (map strip content) 3 ltac:(lia)) as [to_address Ht].
    rewrite Ha, Ht. eexists _, _. repeat split.
  - right. left. auto.
  - right. right. apply headers_ok_Err in Hh as [-> Hlen].
    rewrite length_map in Hlen. auto.
Qed.

(** One turn of the loop, for each of the four things that can happen. *)
Lemma parse_files_unreadable file rest email_lists le :
  readlines fs (list_path file) = Err le ->
  parse_files fs parseaddr (file :: rest) email_lists = (Err (Raised le), []).
Proof. intros Hr. simpl. rewrite Hr. reflexivity. Qed.

Lemma parse_files_short file content rest email_lists :
  readlines fs (list_path file) = Ok content ->
  headers_ok (map strip content) = Err IndexError ->
  parse_files fs parseaddr (file :: rest) email_lists = (Err IndexError, []).
Proof. intros Hr Hh. simpl. rewrite Hr, Hh. reflexivity. Qed.

Lemma parse_files_skip file content rest email_lists :
  readlines fs (list_path file) = Ok content ->
  headers_ok (map strip content) = Ok false ->
  parse_files fs parseaddr (file :: rest) email_lists
  = (fst (parse_files fs parseaddr rest email_lists),
     LogListInvalid file :: snd (parse_files fs parseaddr rest email_lists)).
Proof.
  intros Hr Hh. simpl. rewrite Hr, Hh.
  destruct (parse_files fs parseaddr rest email_lists). reflexivity.
Qed.

Lemma parse_files_rule file content rest email_lists account rule :
  readlines fs (list_path file) = Ok content ->
  entry_of content = Some (account, rule) ->
  parse_files fs parseaddr (file :: rest) email_lists
  = (fst (parse_files fs parseaddr rest (<[account := rule]> email_lists)),
     validate_emails parseaddr (account :: to rule :: cc rule)
     ++ snd (parse_files fs parseaddr rest (<[account := rule]> email_lists))).
Proof.
  intros Hr. unfold entry_of. cbn [parse_files]. rewrite Hr. cbv zeta.
  destruct (headers_ok (map strip content)) as [[|] | e]; try discriminate.
  destruct (index (map strip content) 1) as [a |]; [| discriminate].
  destruct (index (map strip content) 3) as [t |]; [| discriminate].
  intros [= <- <-]. destruct (parse_files fs parseaddr rest _). reflexivity.
Qed.

Lemma parse_files_app before after : forall email_lists,
  parse_files fs parseaddr (before ++ after) email_lists
  = match parse_files fs parseaddr before email_lists with
    | (Ok loaded, logs) =>
      let (r, logs') := parse_files fs parseaddr after loaded in (r, logs ++ logs')
    | (Err e, logs) => (Err e, logs)
    end.
Proof.
  induction before as [| file before IH]; intros email_lists.
  - simpl. destruct (parse_files fs parseaddr after email_lists). reflexivity.
  - rewrite <- app_comm_cons.
    destruct (readlines fs (list_path file)) as [content | le] eqn:Hr;
      [| rewrite !(parse_files_unreadable _ _ _ _ Hr); reflexivity].
    destruct (content_cases content)
      as [(account & rule & He & _) | [[_ Hh] | (_ & Hh & _)]].
    + rewrite !(parse_files_rule _ _ _ _ _ _ Hr He), IH.
      destruct (parse_files fs parseaddr before _) as [[loaded | e] logs]; [| reflexivity].
      cbn [fst snd].
      destruct (parse_files fs parseaddr after loaded) as [r logs'].
      cbn [fst snd]. rewrite app_assoc. reflexivity.
    + rewrite !(parse_files_skip _ _ _ _ Hr Hh), IH.
      destruct (parse_files fs parseaddr before _) as [[loaded | e] logs]; [| reflexivity].
      cbn [fst snd].
      destruct (parse_files fs parseaddr after loaded) as [r logs']. reflexivity.
    + rewrite !(parse_files_short _ _ _ _ Hr Hh). reflexivity.
Qed.




(** X16. A file whose section headers are not in place is skipped: the
    mapping returned is the one the other files of the directory give, and,
    when the files before it are loaded without an exception, the file is
    reported in the log. *)
Theorem parse_skips_bad_headers before file content after :
  listdir fs "email_lists" = Ok (before ++ file :: after) ->
  readlines fs (list_path file) = Ok content ->
  headers_ok (map strip content) = Ok false ->
  fst (parse fs parseaddr) = fst (parse_files fs parseaddr (before ++ after) ∅)
  /\ ((exists loaded, fst (parse_files fs parseaddr before ∅) = Ok loaded) ->
      In (LogListInvalid file) (snd (parse fs parseaddr))).
Proof.
  intros Hl Hr Hh. unfold parse. rewrite Hl, !parse_files_app.
  destruct (parse_files fs parseaddr before ∅) as [[loaded | e] logs].
  - rewrite (parse_files_skip _ _ _ _ Hr Hh).
    destruct (parse_files fs parseaddr after loaded) as [r logs']. cbn [fst snd].
    split; [reflexivity |].
    intros _. apply in_or_app. right. left. reflexivity.
  - cbn [fst snd]. split; [reflexivity |]. intros [loaded [=]].
Qed.

Lemma parse_files_lookup files : forall email_lists loaded account rule,
  fst (parse_files fs parseaddr files email_lists) = Ok loaded ->
  loaded !! account = Some rule ->
  (exists file content,
     In file files /\ readlines fs (list_path file) = Ok content
     /\ entry_of content = Some (account, rule))
  \/ email_lists !! account = Some rule.
Proof.
  induction files as [| file rest IH]; intros email_lists loaded account rule.
  - simpl. intros [= <-]. auto.
  - destruct (readlines fs (list_path file)) as [content | le] eqn:Hr;
      [| rewrite (parse_files_unreadable _ _ _ _ Hr); discriminate].
    destruct (content_cases content)
      as [(a & r & He & _) | [[_ Hh] | (_ & Hh & _)]].
    + rewrite (parse_files_rule _ _ _ _ _ _ Hr He). cbn [fst]. intros Hp Hl.
      destruct (IH _ _ _ _ Hp Hl) as [(f & c' & Hin & Hf & Hent) | Hins].
      * left. exists f, c'. simpl. auto.
      * destruct (decide (a = account)) as [-> | Hne].
        -- rewrite lookup_insert_eq in Hins. injection Hins as ->.
           left. exists file, content. simpl. auto.
        -- rewrite lookup_insert_ne in Hins by exact Hne. auto.
    + rewrite (parse_files_skip _ _ _ _ Hr Hh). cbn [fst]. intros Hp Hl.
      destruct (IH _ _ _ _ Hp Hl) as [(f & c' & Hin & Hf & Hent) | Hins]; [| auto].
      left. exists f, c'. simpl. auto.
    + rewrite (parse_files_short _ _ _ _ Hr Hh). discriminate.
Qed.

Lemma parse_files_keeps files : forall email_lists loaded account rule,
  Forall (fun file => forall content r,
            readlines fs (list_path file) = Ok content ->
            entry_of content <> Some (account, r)) files ->
  fst (parse_files fs parseaddr files email_lists) = Ok loaded ->
  email_lists !! account = Some rule ->
  loaded !! account = Some rule.
Proof.
  induction files as [| file rest IH]; intros email_lists loaded account rule Hall.
  - simpl. intros [= <-]. auto.
  - inversion Hall as [| f l Hf Hrest]; subst.
    destruct (readlines fs (list_path file)) as [content | le] eqn:Hr;
      [| rewrite (parse_files_unreadable _ _ _ _ Hr); discriminate].
    destruct (content_cases content)
      as [(a & r & He & _) | [[_ Hh] | (_ & Hh & _)]].
    + rewrite (parse_files_rule _ _ _ _ _ _ Hr He). cbn [fst]. intros Hp Hl.
      apply (IH _ _ _ _ Hrest Hp).
      rewrite lookup_insert_ne; [exact Hl |]. intros ->. apply (Hf content r eq_refl He).
    + rewrite (parse_files_skip _ _ _ _ Hr Hh). cbn [fst]. eauto.
    + rewrite (parse_files_short _ _ _ _ Hr Hh). discriminate.
Qed.

(** X17. When several files name the same account, the last one wins: the
    rule of an account in the returned mapping is the rule of the last file,
    with its headers in place, that names it, its lines stripped of
    surrounding white space. *)
Theorem parse_last_file_wins before file content after loaded account rule :
  listdir fs "email_lists" = Ok (before ++ file :: after) ->
  readlines fs (list_path file) = Ok content ->
  entry_of content = Some (account, rule) ->
  Forall (fun later => forall content' r,
            readlines fs (list_path later) = Ok content' ->
            entry_of content' <> Some (account, r)) after ->
  fst (parse fs parseaddr) = Ok loaded ->
  loaded !! account = Some rule.
Proof.
  intros Hl Hr He Hafter. unfold parse. rewrite Hl, parse_files_app.
  destruct (parse_files fs parseaddr before ∅) as [[loaded0 | e] logs]; [| discriminate].
  rewrite (parse_files_rule _ _ _ _ _ _ Hr He).
  destruct (parse_files fs parseaddr after _) as [r logs'] eqn:Hp. cbn [fst snd]. intros ->.
  assert (fst (parse_files fs parseaddr after (<[account := rule]> loaded0)) = Ok loaded)
    as Hp' by (rewrite Hp; reflexivity).
  apply (parse_files_keeps _ _ _ _ _ Hafter Hp'). apply lookup_insert_eq.
Qed.

(** X18. Every account of the returned mapping is the second line, stripped,
    of one of the files of the directory whose section headers are in place,
    and its rule is made of the fourth line and of the lines after the fifth
    of that file: the loader registers nothing else. *)
Theorem parse_rule_from_file loaded account rule :
  fst (parse fs parseaddr) = Ok loaded ->
  loaded !! account = Some rule ->
  exists files file content,
    listdir fs "email_lists" = Ok files
    /\ In file files
    /\ readlines fs (list_path file) = Ok content
    /\ headers_ok (map strip content) = Ok true
    /\ index (map strip content) 1 = Ok account
    /\ index (map strip content) 3 = Ok (to rule)
    /\ cc rule = drop 5 (map strip content).
Proof.
  unfold parse. destruct (listdir fs "email_lists") as [files | le]; [| discriminate].
  intros Hp Hl.
  destruct (parse_files_lookup _ _ _ _ _ Hp Hl) as [(file & content & Hin & Hr & He) | Hempty];
    [| rewrite lookup_empty in Hempty; discriminate].
  exists files, file, content. split; [reflexivity |]. split; [exact Hin |].
  split; [exact Hr |].
  destruct (content_cases content)
    as [(a & r & He' & Hh & Ha & Ht & Hcc) | [[Hn _] | (Hn & _)]]; [| congruence | congruence].
  rewrite He in He'. injection He' as <- <-. auto.
Qed.

Lemma validate_emails_filter emails :
  validate_emails parseaddr emails
  = map LogEmailInvalid (List.filter (fun email => negb (validate_email parseaddr email)) emails).
Proof.
  induction emails as [| email rest IH]; [reflexivity |].
  cbn [validate_emails List.filter].
  destruct (negb (validate_email parseaddr email)); rewrite IH; reflexivity.
Qed.

Lemma parse_files_log files : forall email_lists loaded,
  fst (parse_files fs parseaddr files email_lists) = Ok loaded ->
  snd (parse_files fs parseaddr files email_lists)
  = flat_map
      (fun file =>
         match readlines fs (list_path file) with
         | Ok content =>
           match entry_of content with
           | Some (account, rule) =>
             map LogEmailInvalid
               (List.filter (fun email => negb (validate_email parseaddr email))
                  (account :: to rule :: cc rule))
           | None => [LogListInvalid file]
           end
         | Err _ => []
         end) files.
Proof.
  induction files as [| file rest IH]; intros email_lists loaded; [reflexivity |].
  cbn [flat_map].
  destruct (readlines fs (list_path file)) as [content | le] eqn:Hr;
    [| rewrite (parse_files_unreadable _ _ _ _ Hr); discriminate].
  destruct (content_cases content)
    as [(a & r & He & _) | [[Hn Hh] | (_ & Hh & _)]].
  - rewrite (parse_files_rule _ _ _ _ _ _ Hr He), He. cbn [fst snd]. intros Hp.
    rewrite (IH _ _ Hp), validate_emails_filter. reflexivity.
  - rewrite (parse_files_skip _ _ _ _ Hr Hh), Hn. cbn [fst snd]. intros Hp.
    rewrite (IH _ _ Hp). reflexivity.
  - rewrite (parse_files_short _ _ _ _ Hr Hh). discriminate.
Qed.

(** X26. When the loader returns, its log is made, file after file in the
    order of the listing, of one report for a file whose section headers
    are not in place and, for a file that gives a rule, of one report per
    address (the account, the recipient, each copy recipient, in this
    order) that [validate_email] refuses. Nothing else is reported and no
    refused address of a registered rule goes unreported. *)
Theorem parse_reports files loaded :
  listdir fs "email_lists" = Ok files ->
  fst (parse fs parseaddr) = Ok loaded ->
  snd (parse fs parseaddr)
  = flat_map
      (fun file =>
         match readlines fs (list_path file) with
         | Ok content =>
           match entry_of content with
           | Some (account, rule) =>
             map LogEmailInvalid
               (List.filter (fun email => negb (validate_email parseaddr email))
                  (account :: to rule :: cc rule))
           | None => [LogListInvalid file]
           end
         | Err _ => []
         end) files.
Proof.
  unfold parse. intros ->. apply parse_files_log.
Qed.

Lemma parse_keys_coherent_from files : forall email_lists keys loaded,
  fst (parse_files fs parseaddr files email_lists) = Ok loaded ->
  NoDup keys ->
  (forall a, a ∈ keys <-> is_Some (email_lists !! a)) ->
  NoDup (parse_keys fs files keys)
  /\ forall a, a ∈ parse_keys fs files keys <-> is_Some (loaded !! a).
Proof.
  induction files as [| file rest IH]; intros email_lists keys loaded Hp Hnd Hco.
  - simpl in *. injection Hp as <-. auto.
  - revert Hp. cbn [parse_keys].
    destruct (readlines fs (list_path file)) as [content | le] eqn:Hr;
      [| rewrite (parse_files_unreadable _ _ _ _ Hr); discriminate].
    destruct (content_cases content)
      as [(account & rule & He & _) | [[Hn Hh] | (_ & Hh & _)]].
    + rewrite (parse_files_rule _ _ _ _ _ _ Hr He), He. cbn [fst]. intros Hp.
      apply (IH _ _ _ Hp).
      * destruct (decide (account ∈ keys)) as [Hin | Hout]; [exact Hnd |].
        apply NoDup_app. split; [exact Hnd |]. split; [| apply NoDup_singleton].
        intros x Hx ->%list_elem_of_singleton. contradiction.
      * intros a. rewrite lookup_insert_is_Some.
        destruct (decide (account ∈ keys)) as [Hin | Hout].
        -- rewrite Hco. split; [| intros [<- | [_ H]]; [apply Hco; exact Hin | exact H]].
           intros H. destruct (decide (account = a)); auto.
        -- rewrite elem_of_app, list_elem_of_singleton, Hco.
           split.
           ++ intros [H | ->]; [| auto]. destruct (decide (account = a)); auto.
           ++ intros [<- | [_ H]]; auto.
    + rewrite (parse_files_skip _ _ _ _ Hr Hh), Hn. cbn [fst]. intros Hp.
      apply (IH _ _ _ Hp Hnd Hco).
    + rewrite (parse_files_short _ _ _ _ Hr Hh). discriminate.
Qed.

Lemma email_lists_keys_coherent loaded :
  fst (parse fs parseaddr) = Ok loaded ->
  NoDup (email_lists_keys fs)
  /\ forall a, a ∈ email_lists_keys fs <-> is_Some (loaded !! a).
Proof.
  unfold parse, email_lists_keys.
  destruct (listdir fs "email_lists") as [files | le]; [| discriminate].
  intros Hp. apply (parse_keys_coherent_from files ∅ [] loaded Hp).
  - constructor.
  - intros a. rewrite lookup_empty. split; [intros H; inversion H | intros [x [=]]].
Qed.

(** X19. When the loader returns, the keys over which [main] iterates are
    exactly the accounts of the returned mapping, each of them once, however
    many files name it: no account is signed in twice at startup. *)
Theorem parse_keys_coherent loaded :
  fst (parse fs parseaddr) = Ok loaded ->
  NoDup (email_lists_keys fs)
  /\ forall a, a ∈ email_lists_keys fs <-> is_Some (loaded !! a).
Proof.
  apply email_lists_keys_coherent.
Qed.

End LoaderFurther.

(** [str.strip()] on lines with white space outside ASCII: the no-break
    space and the ideographic space go, the zero-width space (U+200B, which
    [str.isspace] refuses) stays. *)
Lemma strip_examples :
  strip ("ACCOUNT" ++ nbsp ++ nl) = "ACCOUNT"
  /\ strip (nbsp ++ " a" ++ nbsp ++ "b " ++ nbsp) = ("a" ++ nbsp ++ "b")%string
  /\ strip (String "227" (String "128" (String "128" "x"))) = "x"
  /\ strip (String "226" (String "128" (String "139" "x")))
     = String "226" (String "128" (String "139" "x"))
  /\ strip (String "194" (String "133" (String "028" ""))) = ""
  /\ headers_ok (map strip (snd file_nbsp)) = Ok true.
Proof. repeat split; vm_compute; reflexivity. Qed.

(** Without the directory the loader ends on the exception of
    [os.listdir], and a folder among the files ends it on the exception of
    [open], after the files before it have been read. *)
Lemma parse_unreadable_raises parseaddr :
  parse directory_missing parseaddr = (Err (Raised (LibError "FileNotFoundError")), [])
  /\ parse directory_with_folder parseaddr_bare
     = (Err (Raised (LibError "IsADirectoryError")), [LogEmailInvalid ""]).
Proof. split; reflexivity. Qed.


Lemma parse_skips_bad_headers_witness :
  fst (parse (directory [file_second; file_bad_header; file_empty_to]) parseaddr_bare)
  = fst (parse_files (directory [file_second; file_bad_header; file_empty_to]) parseaddr_bare
           (["second.txt"] ++ ["relay.txt"]) ∅)
  /\ In (LogListInvalid "notes.txt")
       (snd (parse (directory [file_second; file_bad_header; file_empty_to])
               parseaddr_bare)).
Proof.
  pose proof (parse_skips_bad_headers
                (directory [file_second; file_bad_header; file_empty_to]) parseaddr_bare
                ["second.txt"] "notes.txt" (snd file_bad_header) ["relay.txt"]
                eq_refl eq_refl eq_refl) as [Hmap Hlog].
  split; [exact Hmap |]. apply Hlog. eexists. reflexivity.
Defined.

Lemma parse_last_file_wins_witness :
  exists loaded,
    fst (parse (directory [file_empty_to; file_nbsp; file_bad_header]) parseaddr_bare)
    = Ok loaded
    /\ loaded !! "relay@example.com" = Some {| to := "board@example.com"; cc := [] |}.
Proof.
  eexists. split; [reflexivity |].
  apply (parse_last_file_wins (directory [file_empty_to; file_nbsp; file_bad_header])
           parseaddr_bare ["relay.txt"] "spaced.txt" (snd file_nbsp) ["notes.txt"] _
           "relay@example.com" _ eq_refl eq_refl eq_refl).
  - repeat constructor. intros content' r [= <-]. discriminate.
  - reflexivity.
Defined.

Lemma parse_rule_from_file_witness :
  exists files file content,
    listdir (directory [file_nbsp]) "email_lists" = Ok files
    /\ In file files
    /\ readlines (directory [file_nbsp]) (list_path file) = Ok content
    /\ headers_ok (map strip content) = Ok true
    /\ index (map strip content) 1 = Ok "relay@example.com"
    /\ index (map strip content) 3 = Ok "board@example.com"
    /\ [] = drop 5 (map strip content).
Proof.
  apply (parse_rule_from_file (directory [file_nbsp]) parseaddr_bare
           {[ "relay@example.com" := {| to := "board@example.com"; cc := [] |} ]}
           "relay@example.com" {| to := "board@example.com"; cc := [] |}).
  - vm_compute. reflexivity.
  - vm_compute. reflexivity.
Defined.

Lemma parse_reports_witness :
  snd (parse (directory [file_empty_to; file_bad_header; file_second]) parseaddr_bare)
  = [LogEmailInvalid ""; LogListInvalid "notes.txt"]
  /\ snd (parse (directory [file_empty_to; file_bad_header; file_second]) parseaddr_bare)
     = flat_map
         (fun file =>
            match readlines (directory [file_empty_to; file_bad_header; file_second])
                    (list_path file) with
            | Ok content =>
              match entry_of content with
              | Some (account, rule) =>
                map LogEmailInvalid
                  (List.filter (fun email => negb (validate_email parseaddr_bare email))
                     (account :: to rule :: cc rule))
              | None => [LogListInvalid file]
              end
            | Err _ => []
            end) ["relay.txt"; "notes.txt"; "second.txt"].
Proof.
  split; [vm_compute; reflexivity |].
  eapply (parse_reports (directory [file_empty_to; file_bad_header; file_second])
            parseaddr_bare ["relay.txt"; "notes.txt"; "second.txt"]).
  - reflexivity.
  - vm_compute. reflexivity.
Defined.

Lemma parse_keys_coherent_witness :
  email_lists_keys (directory [file_empty_to; file_bad_header; file_second])
  = ["relay@example.com"]
  /\ NoDup (email_lists_keys (directory [file_empty_to; file_bad_header; file_second]))
  /\ forall a,
       a ∈ email_lists_keys (directory [file_empty_to; file_bad_header; file_second])
       <-> is_Some
             (({[ "relay@example.com" :=
                   {| to := "team@example.com"; cc := ["a@example.com"; "b@example.com"] |} ]}
               : gmap string email_list) !! a).
Proof.
  split; [reflexivity |].
  apply (parse_keys_coherent (directory [file_empty_to; file_bad_header; file_second])
           parseaddr_bare).
  vm_compute. reflexivity.
Defined.

Section StartupFurther.

Context {Credentials : Type}.
Variable env : Startup Credentials.

(** What one turn of the loop does to the list of clients. *)
Lemma authenticate_one_clients account clients h clients' evs :
  authenticate_one env account clients h = (Ok clients', evs) ->
  clients' = clients
  \/ exists client h',
       clients' = clients ++ [(account, client)]
       /\ (getProfile env h' client = Ok (Some account)
           \/ exists le, getProfile env h' client = Err le /\ is_ValueError env le = true).
Proof.
  unfold authenticate_one, except_ValueError.
  destruct (login env h _ account) as [creds | le].
  2:{ destruct (is_ValueError env le); [| discriminate]. intros [= <- _]. auto. }
  destruct (build env _ creds) as [client | le].
  2:{ destruct (is_ValueError env le); [| discriminate]. intros [= <- _]. auto. }
  destruct (getProfile env _ client) as [profile | le] eqn:Hprofile.
  - destruct (decide (profile = Some account)) as [-> | Hne]; intros [= <- _]; [| auto].
    right. eauto 6.
  - destruct (is_ValueError env le) eqn:Hle; [| discriminate]. intros [= <- _].
    right. eauto 8.
Qed.

Lemma authenticate_kept accounts : forall clients0 h clients evs,
  authenticate env accounts clients0 h = (Ok clients, evs) ->
  exists kept,
    clients = clients0 ++ kept
    /\ sublist (map fst kept) accounts
    /\ Forall (fun kept_client : string * Client =>
                 exists h',
                   getProfile env h' (snd kept_client) = Ok (Some (fst kept_client))
                   \/ exists le, getProfile env h' (snd kept_client) = Err le
                                 /\ is_ValueError env le = true) kept.
Proof.
  induction accounts as [| account rest IH]; intros clients0 h clients evs; simpl.
  - intros [= <- _]. exists []. rewrite app_nil_r. repeat split; constructor.
  - destruct (authenticate_one env account clients0 h) as [[clients1 | le] evs1] eqn:H1;
      [| discriminate].
    destruct (authenticate env rest clients1 _) as [r evs2] eqn:H2. intros [= -> _].
    apply IH in H2 as (kept & -> & Hsub & Hall).
    apply authenticate_one_clients in H1 as [-> | (client & h' & -> & Hv)].
    + exists kept. split; [reflexivity |]. split; [| exact Hall].
      apply sublist_cons. exact Hsub.
    + exists ((account, client) :: kept). rewrite <- app_assoc.
      split; [reflexivity |]. split.
      * simpl. apply sublist_skip. exact Hsub.
      * constructor; [exists h'; exact Hv | exact Hall].
Qed.

(** X20. When the profile call never raises a [ValueError], every client
    the loop adds has answered, to the profile call, the very account it is
    stored under: a client signed in as somebody else is never kept. *)
Theorem authenticate_keeps_verified accounts clients0 h clients evs account client :
  (forall h' c le, getProfile env h' c = Err le -> is_ValueError env le = false) ->
  authenticate env accounts clients0 h = (Ok clients, evs) ->
  In (account, client) clients ->
  In (account, client) clients0
  \/ exists h', getProfile env h' client = Ok (Some account).
Proof.
  intros Hnever Ha Hin.
  apply authenticate_kept in Ha as (kept & -> & _ & Hall).
  apply in_app_or in Hin as [Hin | Hin]; [auto |]. right.
  rewrite Forall_forall in Hall. apply list_elem_of_In, Hall in Hin.
  destruct Hin as (h' & [Hok | (le & Herr & Hle)]); [eauto |].
  rewrite (Hnever _ _ _ Herr) in Hle. discriminate.
Qed.

(** X21. The clients the loop adds come after the clients that were there,
    and the accounts they are stored under are a subsequence of the accounts
    the loop goes through: the loop never reorders, never adds two clients
    for one turn, and never removes a client of an earlier account. *)
Theorem authenticate_order accounts clients0 h clients evs :
  authenticate env accounts clients0 h = (Ok clients, evs) ->
  exists kept, clients = clients0 ++ kept /\ sublist (map fst kept) accounts.
Proof.
  intros Ha. apply authenticate_kept in Ha as (kept & -> & Hsub & _). eauto.
Qed.

(** X22. When the profile call of a client itself raises a [ValueError],
    the client has already been appended and is not removed: the failure is
    printed, yet the client stays in the list [main] runs its cycles on,
    without its identity having been compared with the account. *)
Theorem authenticate_keeps_unchecked account rest clients0 h creds client le clients evs :
  login env h "app_credentials.json" account = Ok creds ->
  build env (h ++ [StLogin "app_credentials.json" account]) creds = Ok client ->
  getProfile env (h ++ [StLogin "app_credentials.json" account; StBuild account]) client
  = Err le ->
  is_ValueError env le = true ->
  authenticate env (account :: rest) clients0 h = (Ok clients, evs) ->
  In (account, client) clients /\ In (StPrintFailed account) evs.
Proof.
  intros Hlogin Hbuild Hprofile Hle. simpl.
  unfold authenticate_one, except_ValueError. rewrite Hlogin, Hbuild.
  simpl. rewrite Hprofile, Hle.
  destruct (authenticate env rest _ _) as [r evs2] eqn:H2. intros [= -> <-].
  apply authenticate_kept in H2 as (kept & -> & _). split.
  - apply in_or_app. left. apply in_or_app. right. left. reflexivity.
  - simpl. auto.
Qed.

Lemma authenticate_Err accounts : forall clients0 h le evs,
  authenticate env accounts clients0 h = (Err le, evs) ->
  is_ValueError env le = false.
Proof.
  induction accounts as [| account rest IH]; intros clients0 h le evs; simpl;
    [discriminate |].
  destruct (authenticate_one env account clients0 h) as [[clients1 | le1] evs1] eqn:H1.
  - destruct (authenticate env rest clients1 _) as [r evs2] eqn:H2.
    intros [= -> _]. eapply IH. exact H2.
  - intros [= -> _]. revert H1. unfold authenticate_one, except_ValueError.
    repeat case_match; try discriminate; intros [= <- _]; assumption.
Qed.

(** X23. [startup] fails either with the exception of the loader, whatever
    its class (the loader is called outside the [try], so a [ValueError]
    such as a [UnicodeDecodeError] of reading a file leaves [main] too) and
    before any sign-in, or, the rules being loaded, with an exception of a
    sign-in call that is not a [ValueError]. *)
Theorem startup_raises fs parseaddr e evs :
  startup env fs parseaddr = (Err e, evs) ->
  (fst (parse fs parseaddr) = Err e /\ evs = [])
  \/ (exists loaded le,
        fst (parse fs parseaddr) = Ok loaded
        /\ e = Raised le /\ is_ValueError env le = false).
Proof.
  unfold startup.
  destruct (fst (parse fs parseaddr)) as [email_lists | e0] eqn:Hp.
  - destruct (authenticate env _ [] []) as [[clients | le] evs0] eqn:Ha; [discriminate |].
    intros [= <- _]. right. exists email_lists, le. split; [reflexivity |].
    split; [reflexivity |]. eapply authenticate_Err. exact Ha.
  - intros [= <- <-]. left. auto.
Qed.

Lemma startup_rules fs parseaddr email_lists clients evs account client :
  startup env fs parseaddr = (Ok (email_lists, clients), evs) ->
  In (account, client) clients -> is_Some (email_lists !! account).
Proof.
  unfold startup.
  destruct (fst (parse fs parseaddr)) as [loaded | e0] eqn:Hp; [| discriminate].
  destruct (authenticate env _ [] []) as [[kept | le] evs0] eqn:Ha; [| discriminate].
  intros [= <- <- _] Hin.
  destruct (email_lists_keys_coherent fs parseaddr loaded Hp) as [_ Hco].
  apply authenticate_kept in Ha as (kept' & -> & Hsub & _). simpl in *.
  apply Hco. eapply elem_of_sublist; [| exact Hsub].
  apply list_elem_of_In. apply (in_map fst) in Hin. exact Hin.
Qed.

Lemma startup_NoDup fs parseaddr email_lists clients evs :
  startup env fs parseaddr = (Ok (email_lists, clients), evs) ->
  NoDup (map fst clients).
Proof.
  unfold startup.
  destruct (fst (parse fs parseaddr)) as [loaded | e0] eqn:Hp; [| discriminate].
  destruct (authenticate env _ [] []) as [[kept | le] evs0] eqn:Ha; [| discriminate].
  intros [= <- <- _].
  destruct (email_lists_keys_coherent fs parseaddr loaded Hp) as [Hnd _].
  apply authenticate_kept in Ha as (kept' & -> & Hsub & _). simpl in *.
  eapply sublist_NoDup; eassumption.
Qed.

(** X24. Every client [startup] hands to the scheduler is stored under an
    account that has a rule in the loaded mapping, and no two clients are
    stored under the same account. *)
Theorem startup_clients_have_rules fs parseaddr email_lists clients evs :
  startup env fs parseaddr = (Ok (email_lists, clients), evs) ->
  NoDup (map fst clients)
  /\ forall account client, In (account, client) clients ->
                            is_Some (email_lists !! account).
Proof.
  intros Hs. split.
  - eapply startup_NoDup. exact Hs.
  - intros account client. eapply startup_rules. exact Hs.
Qed.

End StartupFurther.

Lemma authenticate_keeps_verified_witness :
  fst (authenticate (sign_in always_relay) ["down@example.com"; "relay@example.com"] [] [])
  = Ok [("relay@example.com", sample_mailbox)]
  /\ (In ("relay@example.com", sample_mailbox) []
      \/ exists h', getProfile (sign_in always_relay) h' sample_mailbox
                    = Ok (Some "relay@example.com")).
Proof.
  split; [reflexivity |].
  apply (authenticate_keeps_verified (sign_in always_relay)
           ["down@example.com"; "relay@example.com"] [] []
           [("relay@example.com", sample_mailbox)]
           (snd (authenticate (sign_in always_relay)
                   ["down@example.com"; "relay@example.com"] [] []))).
  - intros h' c le. discriminate.
  - reflexivity.
  - left. reflexivity.
Defined.

Lemma authenticate_order_witness :
  exists kept,
    [("relay@example.com", sample_mailbox)] = [] ++ kept
    /\ sublist (map fst kept) ["down@example.com"; "relay@example.com"].
Proof.
  apply (authenticate_order (sign_in always_relay)
           ["down@example.com"; "relay@example.com"] [] []
           [("relay@example.com", sample_mailbox)]
           (snd (authenticate (sign_in always_relay)
                   ["down@example.com"; "relay@example.com"] [] []))).
  reflexivity.
Defined.

Lemma authenticate_keeps_unchecked_witness :
  In ("relay@example.com", offline)
     [("relay@example.com", offline); ("down@example.com", offline)]
  /\ In (StPrintFailed "relay@example.com")
        (snd (authenticate sign_in_garbled ["relay@example.com"; "down@example.com"] [] [])).
Proof.
  apply (authenticate_keeps_unchecked sign_in_garbled "relay@example.com"
           ["down@example.com"] [] [] "relay@example.com" offline (LibError "JSONDecodeError")).
  - reflexivity.
  - reflexivity.
  - reflexivity.
  - reflexivity.
  - reflexivity.
Defined.

Lemma startup_raises_witness :
  ((fst (parse (directory [file_second]) parseaddr_bare) = Err (Raised (HttpError 503))
    /\ [StLogin "app_credentials.json" "relay@example.com"] = [])
   \/ (exists loaded le,
         fst (parse (directory [file_second]) parseaddr_bare) = Ok loaded
         /\ Raised (HttpError 503) = Raised le
         /\ is_ValueError sign_in_unavailable le = false))
  /\ ((fst (parse directory_with_folder parseaddr_bare)
       = Err (Raised (LibError "IsADirectoryError"))
       /\ @nil startup_event = [])
      \/ (exists loaded le,
            fst (parse directory_with_folder parseaddr_bare) = Ok loaded
            /\ Raised (LibError "IsADirectoryError") = Raised le
            /\ is_ValueError (sign_in always_relay) le = false)).
Proof.
  split.
  - apply (startup_raises sign_in_unavailable (directory [file_second]) parseaddr_bare
             (Raised (HttpError 503))
             [StLogin "app_credentials.json" "relay@example.com"]).
    reflexivity.
  - apply (startup_raises (sign_in always_relay) directory_with_folder parseaddr_bare
             (Raised (LibError "IsADirectoryError")) []).
    reflexivity.
Defined.

Lemma startup_clients_have_rules_witness :
  NoDup (map fst [("relay@example.com", sample_mailbox)])
  /\ forall account client,
       In (account, client) [("relay@example.com", sample_mailbox)] ->
       is_Some (({[ "relay@example.com" :=
                     {| to := "team@example.com"; cc := ["a@example.com"; "b@example.com"] |} ]}
                 : gmap string email_list) !! account).
Proof.
  apply (startup_clients_have_rules (sign_in always_relay)
           (directory [file_empty_to; file_bad_header; file_second]) parseaddr_bare _ _
           (snd (startup (sign_in always_relay)
                   (directory [file_empty_to; file_bad_header; file_second])
                   parseaddr_bare))).
  vm_compute. reflexivity.
Defined.

(** ** Startup and scheduler together *)

Section MainFurther.

Variable as_string : MIMEMultipart -> result lib_exn string.
Variable now : list event -> Z * Z.

Lemma forward_one_rule_present c account r unread_email h e evs :
  forward_one as_string c account (Some r) unread_email h = (Err e, evs) ->
  e <> AttributeError_NoneType "get".
Proof.
  rewrite forward_one_run.
  destruct (headers (payload unread_email)) as [hs |]; [| intros [= <- _]; discriminate].
  destruct (parse_email_body c _ _ h) as [[_part | e'] evs'] eqn:Hp.
  - cbv zeta. destruct (as_string _) as [s | le]; [| intros [= <- _]; discriminate].
    destruct (messages_send c _ _) as [u | le]; [discriminate | intros [= <- _]; discriminate].
  - intros [= -> ->]. revert Hp.
    apply (parse_email_body_raises (fun e => e <> AttributeError_NoneType "get")
             (fun _ => true)); try discriminate.
    + intros q e' _ He%split_mimeType_Err_split ->. discriminate.
    + apply every_part_true.
Qed.

Lemma forward_loop_rule_present c account r unread_emails :
  forall processed_ids h e evs,
  forward_loop as_string c account (Some r) unread_emails processed_ids h = (Err e, evs) ->
  e <> AttributeError_NoneType "get".
Proof.
  induction unread_emails as [| [unread_email | exception] rest IH];
    intros processed_ids h e evs.
  - discriminate.
  - rewrite forward_loop_message.
    destruct (forward_one _ _ _ _ _ h) as [[sent | e1] evs1] eqn:H1.
    + destruct (forward_loop _ _ _ _ _ _ _) as [r2 evs2] eqn:H2.
      intros [= -> _]. eapply IH. exact H2.
    + destruct (is_RuntimeError e1).
      * destruct (forward_loop _ _ _ _ _ _ _) as [r2 evs2] eqn:H2.
        intros [= -> _]. eapply IH. exact H2.
      * intros [= <- _]. eapply forward_one_rule_present. exact H1.
  - rewrite forward_loop_fetch_error.
    destruct (forward_loop _ _ _ _ _ _ _) as [r2 evs2] eqn:H2.
    intros [= -> _]. eapply IH. exact H2.
Qed.

Lemma apply_forwarding_rule_rule_present c account r h e evs :
  apply_forwarding_rule as_string c account (Some r) h = (Err e, evs) ->
  e <> AttributeError_NoneType "get".
Proof.
  rewrite apply_forwarding_rule_run.
  pose proof (apply_forwarding_rule_try_run as_string c account (Some r) h) as Hrun.
  cbv zeta in Hrun. rewrite Hrun. clear Hrun.
  destruct (messages_list c h) as [listed | le].
  2:{ destruct (is_HttpError _); [discriminate | intros [= <- _]; discriminate]. }
  destruct (messages_batch_get c _ _) as [unread_emails | le].
  2:{ destruct (is_HttpError _); [discriminate | intros [= <- _]; discriminate]. }
  destruct (forward_loop _ _ _ _ _ _ _) as [[processed_ids | e1] evs1] eqn:Hloop.
  - destruct (messages_batch_modify c _ _) as [u | le]; [discriminate |].
    destruct (is_HttpError _); [discriminate | intros [= <- _]; discriminate].
  - destruct (is_HttpError e1); [discriminate |]. intros [= <- _].
    eapply forward_loop_rule_present. exact Hloop.
Qed.

Lemma run_clients_rules_present (email_lists : gmap string email_list) clients :
  Forall (fun kept : string * Client => is_Some (email_lists !! fst kept)) clients ->
  forall h e evs,
  run_clients as_string email_lists clients h = (Err e, evs) ->
  e <> AttributeError_NoneType "get".
Proof.
  induction 1 as [| [account client] rest [r Hr] _ IH]; intros h e evs; simpl.
  - discriminate.
  - simpl in Hr. rewrite Hr.
    intros [H | (u & evs1 & evs2 & _ & H & _)]%bind_inv_Err.
    + eapply apply_forwarding_rule_rule_present. exact H.
    + eapply IH. exact H.
Qed.

Lemma sched_steps_rules_present (email_lists : gmap string email_list) clients s s' :
  Forall (fun kept : string * Client => is_Some (email_lists !! fst kept)) clients ->
  sched_steps as_string now email_lists clients s s' ->
  sched_phase s <> Crashed (AttributeError_NoneType "get") ->
  sched_phase s' <> Crashed (AttributeError_NoneType "get").
Proof.
  intros Hall. induction 1 as [| s s' s'' Hstep _ IH]; [auto |].
  intros Hs. apply IH. clear IH. revert Hstep. unfold sched_step, step.
  destruct (sched_phase s); [| discriminate | discriminate].
  destruct (cutoff (dtime s)); [intros [= <-]; discriminate |].
  destruct (run_clients _ _ _ _) as [[u | e] evs] eqn:Hrun; intros [= <-]; simpl;
    [discriminate |].
  intros [= ->]. eapply run_clients_rules_present; [exact Hall | exact Hrun | reflexivity].
Qed.

(** X25. However long [main] is followed, its scheduler never ends on the
    exception of a missing rule: every client that startup keeps is stored
    under an account of the loaded mapping, so the rule each cycle looks up
    is there. *)
Theorem main_rule_never_missing {Credentials} (env : Startup Credentials)
    fs parseaddr fuel s :
  main env as_string now fs parseaddr fuel = Some s ->
  sched_phase s <> Crashed (AttributeError_NoneType "get").
Proof.
  unfold main.
  destruct (startup env fs parseaddr) as [[[email_lists clients] | e] evs] eqn:Hs;
    simpl; [| discriminate].
  intros [= <-].
  eapply sched_steps_rules_present; [| apply run_steps | discriminate].
  apply Forall_forall. intros [account client] Hin%list_elem_of_In.
  eapply startup_rules; eassumption.
Qed.

End MainFurther.

Lemma main_rule_never_missing_witness :
  match main (sign_in always_relay) as_string_headers clock_late
          (directory [file_empty_to; file_second]) parseaddr_bare 3 with
  | Some s => sched_phase s = Stopped
              /\ sched_phase s <> Crashed (AttributeError_NoneType "get")
  | None => False
  end.
Proof.
  destruct (main (sign_in always_relay) as_string_headers clock_late
              (directory [file_empty_to; file_second]) parseaddr_bare 3) as [s |] eqn:Hmain.
  - split.
    + vm_compute in Hmain. injection Hmain as <-. reflexivity.
    + apply (main_rule_never_missing as_string_headers clock_late (sign_in always_relay)
               (directory [file_empty_to; file_second]) parseaddr_bare 3 s Hmain).
  - vm_compute in Hmain. discriminate.
Defined.
